(** * gotmplfmt: the template parser and its whitespace-aware printer

    A shallow embedding of [internal/parse/parse.go], [internal/parse/node.go]
    and [tmplfmt.Format], with the properties the formatter is meant to have.

    Layout of the development:
    - [strings]   : the functions of Go's [strings] package the code calls;
    - [Strconv]   : the interface to Go's [strconv] and [fmt] as the code uses it;
    - tokens      : [itemType], [trim], [item] and the tokenizer;
    - nodes       : the parse tree and the printer ([writeTo], [String]);
    - parser      : [Tree] and the recursive-descent parser, in an error/state monad;
    - [Format]    : the formatting entry point;
    - properties. *)

From Stdlib Require Import ZArith String Ascii List Bool Lia.
From Stdlib Require Import DecimalString.
From Stdlib Require Import SpecFloat.
Import ListNotations.

#[local] Set Warnings "-register-all".
#[local] Open Scope list_scope.
#[local] Open Scope string_scope.
#[local] Open Scope Z_scope.

(** ** Bytes and characters *)

Definition newline : ascii := "010"%char.
Definition tab : ascii := "009"%char.
Definition cr : ascii := "013"%char.
Definition dquote : ascii := "034"%char.
Definition squote : ascii := "039"%char.
Definition backquote : ascii := "096"%char.
Definition backslash : ascii := "092"%char.

Definition str1 (c : ascii) : string := String c EmptyString.
Definition nl : string := str1 newline.

Definition byte (c : ascii) : Z := Z.of_nat (nat_of_ascii c).

(** [fmt.Sprintf("%d", n)] on an [int]. *)
Definition itoa (n : Z) : string := NilZero.string_of_int (Z.to_int n).

(** ** Go's [strings] package, on byte strings *)

Module strings.

Definition len (s : string) : Z := Z.of_nat (String.length s).

Fixpoint HasPrefix (s pre : string) : bool :=
  match pre, s with
  | EmptyString, _ => true
  | String c pre', String d s' => Ascii.eqb c d && HasPrefix s' pre'
  | String _ _, EmptyString => false
  end.

Fixpoint drop (n : nat) (s : string) : string :=
  match n, s with
  | O, _ => s
  | S n', String _ s' => drop n' s'
  | S _, EmptyString => EmptyString
  end.

Fixpoint take (n : nat) (s : string) : string :=
  match n, s with
  | O, _ => EmptyString
  | S n', String c s' => String c (take n' s')
  | S _, EmptyString => EmptyString
  end.

(** The slice expression [s[lo:hi]]; [None] is the run-time panic Go raises
    when the bounds are not [0 <= lo <= hi <= len(s)]. *)
Definition slice (s : string) (lo hi : Z) : option string :=
  if (0 <=? lo) && (lo <=? hi) && (hi <=? len s)
  then Some (take (Z.to_nat (hi - lo)) (drop (Z.to_nat lo) s))
  else None.

Definition HasSuffix (s suf : string) : bool :=
  (String.length suf <=? String.length s)%nat
  && String.eqb (drop (String.length s - String.length suf) s) suf.

(** [strings.Index]: the first index of [sub] in [s], or -1. *)
Fixpoint index_from (i : Z) (s sub : string) : Z :=
  if HasPrefix s sub then i
  else match s with
       | EmptyString => -1
       | String _ s' => index_from (i + 1) s' sub
       end.
Definition Index (s sub : string) : Z := index_from 0 s sub.

(** [strings.LastIndex]: the last index of [sub] in [s], or -1. *)
Fixpoint last_index_from (i found : Z) (s sub : string) : Z :=
  let found' := if HasPrefix s sub then i else found in
  match s with
  | EmptyString => found'
  | String _ s' => last_index_from (i + 1) found' s' sub
  end.
Definition LastIndex (s sub : string) : Z := last_index_from 0 (-1) s sub.

(** [strings.Count] for a non-empty [sub]: non-overlapping occurrences.
    [skip] bytes of a match just counted are passed over. *)
Fixpoint count_from (skip : nat) (s sub : string) : Z :=
  match s with
  | EmptyString => 0
  | String _ s' =>
      match skip with
      | S k => count_from k s' sub
      | O => if HasPrefix s sub
             then 1 + count_from (String.length sub - 1) s' sub
             else count_from O s' sub
      end
  end.
Definition Count (s sub : string) : Z := count_from O s sub.

Fixpoint ContainsByte (chars : string) (c : ascii) : bool :=
  match chars with
  | EmptyString => false
  | String d chars' => Ascii.eqb c d || ContainsByte chars' c
  end.

(** [strings.ContainsAny]: some byte of [chars] occurs in [s]. *)
Fixpoint ContainsAny (s chars : string) : bool :=
  match s with
  | EmptyString => false
  | String c s' => ContainsByte chars c || ContainsAny s' chars
  end.

Fixpoint repeat_nat (s : string) (n : nat) : string :=
  match n with
  | O => EmptyString
  | S n' => s ++ repeat_nat s n'
  end.
(** [strings.Repeat]; a negative count panics in Go. *)
Definition Repeat (s : string) (n : Z) : option string :=
  if n <? 0 then None else Some (repeat_nat s (Z.to_nat n)).

(** [strings.Split(s, ".")]: the pieces between the separator byte. *)
Fixpoint split_byte (sep : ascii) (cur : string) (s : string) : list string :=
  match s with
  | EmptyString => [cur]
  | String c s' =>
      if Ascii.eqb c sep then cur :: split_byte sep EmptyString s'
      else split_byte sep (cur ++ str1 c) s'
  end.
Definition Split (s : string) (sep : ascii) : list string :=
  split_byte sep EmptyString s.

(** The last byte, [s[len(s)-1]]. *)
Fixpoint last_byte (s : string) : option ascii :=
  match s with
  | EmptyString => None
  | String c EmptyString => Some c
  | String _ s' => last_byte s'
  end.

Definition init (s : string) : string := take (String.length s - 1) s.

End strings.

(** ** Go's [strconv] and [fmt], as far as the parser calls them

    These library functions are not code of the repository; the parser is
    written against this interface and every general property below holds
    for any implementation of it.  [None] and [inr msg] stand for a non-nil
    [err] (with [msg] what [err.Error()] returns). *)

Class Strconv : Type := {
  float64 : Type;
  float64_of_int64 : Z -> float64;        (* float64(i) for an int64 i   *)
  float64_of_uint64 : Z -> float64;       (* float64(u) for a uint64 u   *)
  int64_of_float64 : float64 -> Z;        (* int64(f)                    *)
  uint64_of_float64 : float64 -> Z;       (* uint64(f)                   *)
  float64_eqb : float64 -> float64 -> bool;               (* f == g      *)
  ParseUint : string -> option Z;         (* strconv.ParseUint(s, 0, 64) *)
  ParseInt : string -> option Z;          (* strconv.ParseInt(s, 0, 64)  *)
  ParseFloat : string -> option float64;  (* strconv.ParseFloat(s, 64)   *)
  UnquoteChar : string -> ascii -> (Z * string) + string; (* rune, tail  *)
  Unquote : string -> string + string;    (* strconv.Unquote             *)
  Sscan_complex128 : string -> (float64 * float64) + string;
                                          (* fmt.Sscan(s, &c): real, imaginary *)
  Quote : string -> string                (* the verb %q                 *)
}.

(** ** Tokens

    Modelled from the spec: the token type of the tokenizer (the source file
    of the tokenizer is not among the repository files at hand).  The kinds
    are those of the spec's data model, under the names parse.go uses. *)

Inductive itemType : Type :=
| itemError | itemBool | itemChar | itemCharConstant | itemComment
| itemComplex | itemAssign | itemDeclare | itemEOF | itemField
| itemIdentifier | itemLeftDelim | itemLeftParen | itemNumber | itemPipe
| itemRawString | itemRightDelim | itemRightParen | itemSpace | itemString
| itemText | itemVariable
| itemBranch | itemDot | itemElse | itemEnd | itemIf | itemNil.

Definition itemType_eq_dec (a b : itemType) : {a = b} + {a <> b}.
Proof. decide equality. Defined.

Definition itemType_eqb (a b : itemType) : bool :=
  if itemType_eq_dec a b then true else false.

(** Keyword kinds: the ones an [item] prints between angle brackets. *)
Definition isKeyword (t : itemType) : bool :=
  match t with
  | itemBranch | itemDot | itemElse | itemEnd | itemIf | itemNil => true
  | _ => false
  end.

(** Modelled from the spec: the trim flags of a delimiter, [{{-] and [-}}]. *)
Record trim : Type := mkTrim { trim_left : bool; trim_right : bool }.

Definition noTrim : trim := mkTrim false false.

(** Modelled from the spec: the delimiter forms the printer emits.  The
    normal forms carry the space of the formatting convention ([{{ end }}]);
    the space-trimmed right form is the one put on a line of its own. *)
Definition leftDelim (t : trim) : string :=
  if trim_left t then "{{- " else "{{ ".
Definition rightDelim (t : trim) : string :=
  if trim_right t then " -}}" else " }}".
Definition rightDelimNoSpace (t : trim) : string :=
  if trim_right t then "-}}" else "}}".

(** Modelled from the spec: a token is
    [{kind, raw value, byte position, line number, trim flags}]. *)
Record item : Type := mkItem {
  typ : itemType;
  pos : Z;
  val : string;
  line : Z;
  item_trim : trim
}.

Definition isSpace (c : ascii) : bool :=
  Ascii.eqb c " " || Ascii.eqb c tab || Ascii.eqb c cr || Ascii.eqb c newline.
Definition isDigit (c : ascii) : bool := (48 <=? byte c) && (byte c <=? 57).
Definition isLetter (c : ascii) : bool :=
  ((65 <=? byte c) && (byte c <=? 90)) || ((97 <=? byte c) && (byte c <=? 122)).
Definition isAlphaNumeric (c : ascii) : bool :=
  Ascii.eqb c "_" || isLetter c || isDigit c.
Definition isPrint (c : ascii) : bool := (32 <=? byte c) && (byte c <=? 126).

(** Modelled from the spec: the length of the white space a string starts
    with ([leftTrimLength], which node.go calls; its definition is with the
    tokenizer). *)
Fixpoint leftTrimLength (s : string) : Z :=
  match s with
  | String c s' => if isSpace c then 1 + leftTrimLength s' else 0
  | EmptyString => 0
  end.

(** ** The tokenizer

    Modelled from the spec: the tokenizer (section 4.1).  It scans in two
    modes, text and action; a left delimiter carries the trim-left flag and
    the matching right delimiter the trim-right flag; inside an action it
    emits identifiers, fields, variables, strings, numbers, operators and
    explicit space tokens; a comment token holds the raw comment body; the
    stream ends with an end-of-input token, or with one error token at the
    first malformed construct.  Bytes are taken as ASCII. *)

Definition mk (t : itemType) (p : Z) (v : string) (l : Z) : item :=
  mkItem t p v l noTrim.

Fixpoint span (p : ascii -> bool) (s : string) : string * string :=
  match s with
  | String c s' =>
      if p c then let (a, b) := span p s' in (String c a, b)
      else (EmptyString, s)
  | EmptyString => (EmptyString, EmptyString)
  end.

Definition hasLeftTrimMarker (s : string) : bool :=
  match s with
  | String c (String d _) => Ascii.eqb c "-" && isSpace d
  | _ => false
  end.

Definition hasRightTrimMarker (s : string) : bool :=
  match s with
  | String c (String d _) => isSpace c && Ascii.eqb d "-"
  | _ => false
  end.

(** Is a right delimiter next, and does it carry the trim marker? *)
Definition atRightDelim (s : string) : bool * bool :=
  if hasRightTrimMarker s && strings.HasPrefix (strings.drop 2 s) "}}"
  then (true, true)
  else if strings.HasPrefix s "}}" then (true, false)
  else (false, false).

Definition atTerminator (s : string) : bool :=
  match s with
  | EmptyString => true
  | String c _ =>
      isSpace c || strings.ContainsByte ".,|:)(" c || strings.HasPrefix s "}}"
  end.

(** The words with a token kind of their own; every block-opening keyword
    is one kind, [itemBranch]. *)
Definition keyword (word : string) : option itemType :=
  if String.eqb word "." then Some itemDot
  else if String.eqb word "block" then Some itemBranch
  else if String.eqb word "define" then Some itemBranch
  else if String.eqb word "range" then Some itemBranch
  else if String.eqb word "with" then Some itemBranch
  else if String.eqb word "else" then Some itemElse
  else if String.eqb word "end" then Some itemEnd
  else if String.eqb word "if" then Some itemIf
  else if String.eqb word "nil" then Some itemNil
  else None.

(** What one scanning step inside an action yields. *)
Inductive scanned : Type :=
| Tok (t : itemType) (v : string) (rest : string)
| Bad (msg : string).

(** The body of a quoted string or character constant up to and including
    the closing quote [q]; [None] when it is not terminated on its line. *)
Fixpoint scanQuoted (q : ascii) (s : string) : option (string * string) :=
  match s with
  | EmptyString => None
  | String c s' =>
      if Ascii.eqb c backslash then
        match s' with
        | String d s'' =>
            if Ascii.eqb d newline then None
            else match scanQuoted q s'' with
                 | Some (body, rest) => Some (String c (String d body), rest)
                 | None => None
                 end
        | EmptyString => None
        end
      else if Ascii.eqb c newline then None
      else if Ascii.eqb c q then Some (str1 c, s')
      else match scanQuoted q s' with
           | Some (body, rest) => Some (String c body, rest)
           | None => None
           end
  end.

Fixpoint scanRaw (s : string) : option (string * string) :=
  match s with
  | EmptyString => None
  | String c s' =>
      if Ascii.eqb c backquote then Some (str1 c, s')
      else match scanRaw s' with
           | Some (body, rest) => Some (String c body, rest)
           | None => None
           end
  end.

(** [accept] takes one byte of [valid]; [acceptRun] takes a run of them. *)
Definition accept (valid : string) (st : string * string) : bool * (string * string) :=
  match snd st with
  | String c s' =>
      if strings.ContainsByte valid c then (true, (fst st ++ str1 c, s'))
      else (false, st)
  | EmptyString => (false, st)
  end.

Definition acceptRun (valid : string) (st : string * string) : string * string :=
  let (run, rest) := span (strings.ContainsByte valid) (snd st) in
  (fst st ++ run, rest).

(** One number: optional sign, digits of the base its prefix selects, an
    optional fraction, exponent and imaginary marker; it must not run into
    a letter or digit. *)
Definition scanNumber (s : string) : option (string * string) :=
  let st := snd (accept "+-" (EmptyString, s)) in
  let (zero, st) := accept "0" st in
  let '(digits, st) :=
    if zero then
      let (x, st1) := accept "xX" st in
      if x then ("0123456789abcdefABCDEF_", st1)
      else let (o, st2) := accept "oO" st in
           if o then ("01234567_", st2)
           else let (b, st3) := accept "bB" st in
                if b then ("01_", st3) else ("0123456789_", st)
    else ("0123456789_", st) in
  let st := acceptRun digits st in
  let (dot, st) := accept "." st in
  let st := if dot then acceptRun digits st else st in
  let st :=
    if (String.length digits =? 11)%nat then
      let (e, st1) := accept "eE" st in
      if e then acceptRun "0123456789_" (snd (accept "+-" st1)) else st
    else st in
  let st :=
    if (String.length digits =? 23)%nat then
      let (p, st1) := accept "pP" st in
      if p then acceptRun "0123456789_" (snd (accept "+-" st1)) else st
    else st in
  let st := snd (accept "i" st) in
  match snd st with
  | String c _ => if isAlphaNumeric c then None else Some st
  | EmptyString => Some st
  end.

Definition lexNumber (s : string) : scanned :=
  match scanNumber s with
  | None => Bad "bad number syntax"
  | Some (num, rest) =>
      match rest with
      | String c _ =>
          if Ascii.eqb c "+" || Ascii.eqb c "-" then
            (* complex: 1+2i *)
            match scanNumber rest with
            | Some (im, rest') =>
                if match strings.last_byte im with
                   | Some d => Ascii.eqb d "i"
                   | None => false
                   end
                then Tok itemComplex (num ++ im) rest'
                else Bad "bad number syntax"
            | None => Bad "bad number syntax"
            end
          else Tok itemNumber num rest
      | EmptyString => Tok itemNumber num rest
      end
  end.

Definition lexIdentifier (s : string) : scanned :=
  let (word, rest) := span isAlphaNumeric s in
  if negb (atTerminator rest) then Bad "bad character"
  else match keyword word with
       | Some k => Tok k word rest
       | None =>
           if String.eqb word "true" || String.eqb word "false"
           then Tok itemBool word rest
           else Tok itemIdentifier word rest
       end.

(** A field [.name] or a variable [$name]; [s] comes after the first byte
    [c].  A lone [$] is a variable, a lone [.] the dot. *)
Definition lexFieldOrVariable (t : itemType) (c : ascii) (s : string) : scanned :=
  if atTerminator s then
    match t with
    | itemVariable => Tok itemVariable (str1 c) s
    | _ => Tok itemDot (str1 c) s
    end
  else
    let (word, rest) := span isAlphaNumeric s in
    if negb (atTerminator rest) then Bad "bad character"
    else Tok t (String c word) rest.

(** One token of an action other than a space or a right delimiter. *)
Definition scanToken (s : string) : scanned :=
  match s with
  | EmptyString => Bad "unclosed action"
  | String c s' =>
      if Ascii.eqb c "=" then Tok itemAssign "=" s'
      else if Ascii.eqb c ":" then
        match s' with
        | String d s'' =>
            if Ascii.eqb d "=" then Tok itemDeclare ":=" s'' else Bad "expected :="
        | EmptyString => Bad "expected :="
        end
      else if Ascii.eqb c "|" then Tok itemPipe "|" s'
      else if Ascii.eqb c dquote then
        match scanQuoted dquote s' with
        | Some (body, rest) => Tok itemString (String c body) rest
        | None => Bad "unterminated quoted string"
        end
      else if Ascii.eqb c backquote then
        match scanRaw s' with
        | Some (body, rest) => Tok itemRawString (String c body) rest
        | None => Bad "unterminated raw quoted string"
        end
      else if Ascii.eqb c "$" then lexFieldOrVariable itemVariable c s'
      else if Ascii.eqb c squote then
        match scanQuoted squote s' with
        | Some (body, rest) => Tok itemCharConstant (String c body) rest
        | None => Bad "unterminated character constant"
        end
      else if Ascii.eqb c "." then
        match s' with
        | String d _ =>
            if isDigit d then lexNumber s else lexFieldOrVariable itemField c s'
        | EmptyString => lexNumber s
        end
      else if Ascii.eqb c "+" || Ascii.eqb c "-" || isDigit c then lexNumber s
      else if isAlphaNumeric c then lexIdentifier s
      else if Ascii.eqb c "(" then Tok itemLeftParen "(" s'
      else if Ascii.eqb c ")" then Tok itemRightParen ")" s'
      else if isPrint c then Tok itemChar (str1 c) s'
      else Bad "unrecognized character in action"
  end.

Definition lines_in (s : string) : Z := strings.Count s nl.

(** The two modes.  [p] and [l] are the byte position and the line of the
    first byte of [s]; [depth] counts the open parentheses.  Every token
    takes at least one byte, so [fuel] above the input length is enough. *)
Fixpoint lexText (fuel : nat) (s : string) (p l : Z) : list item :=
  match fuel with
  | O => []
  | S fuel' =>
      let x := strings.Index s "{{" in
      if x <? 0 then
        (if String.eqb s "" then [] else [mk itemText p s l])
        ++ [mk itemEOF (p + strings.len s) "EOF" (l + lines_in s)]
      else
        let txt := strings.take (Z.to_nat x) s in
        let text_items := if 0 <? x then [mk itemText p txt l] else [] in
        let p1 := p + x in
        let l1 := l + lines_in txt in
        (* the left delimiter and its trim marker *)
        let after := strings.drop (Z.to_nat x + 2) s in
        let tl := hasLeftTrimMarker after in
        let skip := if tl then 2%nat else 0%nat in
        let p2 := p1 + 2 + Z.of_nat skip in
        let l2 := l1 + lines_in (strings.take skip after) in
        let body := strings.drop skip after in
        if strings.HasPrefix body "/*" then
          (* a comment runs to its closing marker and a right delimiter *)
          let y := strings.Index (strings.drop 2 body) "*/" in
          if y <? 0 then text_items ++ [mk itemError p2 "unclosed comment" l2]
          else
            let n := (Z.to_nat y + 4)%nat in
            let comment := strings.take n body in
            let rest := strings.drop n body in
            let (delim, tr) := atRightDelim rest in
            if negb delim then
              text_items
              ++ [mk itemError p2 "comment ends before closing delimiter" l2]
            else
              let close := if tr then 4%nat else 2%nat in
              text_items
              ++ mkItem itemComment p2 comment l2 (mkTrim tl tr)
              :: lexText fuel' (strings.drop close rest)
                   (p2 + Z.of_nat n + Z.of_nat close)
                   (l2 + lines_in comment + lines_in (strings.take close rest))
        else
          text_items
          ++ mkItem itemLeftDelim p1 "{{" l1 (mkTrim tl false)
          :: lexInsideAction fuel' body p2 l2 0
  end

with lexInsideAction (fuel : nat) (s : string) (p l : Z) (depth : Z) : list item :=
  match fuel with
  | O => []
  | S fuel' =>
      let (delim, tr) := atRightDelim s in
      if delim then
        if depth =? 0 then
          let skip := if tr then 2%nat else 0%nat in
          let l1 := l + lines_in (strings.take skip s) in
          mkItem itemRightDelim (p + Z.of_nat skip) "}}" l1 (mkTrim false tr)
          :: lexText fuel' (strings.drop (skip + 2) s) (p + Z.of_nat skip + 2) l1
        else [mk itemError p "unclosed left paren" l]
      else
        match s with
        | String c _ =>
            if isSpace c then
              let (sp, rest) := span isSpace s in
              (* a trim-marked right delimiter keeps the space before it *)
              let sp := if strings.HasPrefix rest "-}}"
                        then strings.take (String.length sp - 1) sp else sp in
              let n := String.length sp in
              (if (n =? 0)%nat then [] else [mk itemSpace p sp l])
              ++ lexInsideAction fuel' (strings.drop n s)
                   (p + Z.of_nat n) (l + lines_in sp) depth
            else
              match scanToken s with
              | Bad msg => [mk itemError p msg l]
              | Tok t v rest =>
                  let depth' :=
                    match t with
                    | itemLeftParen => depth + 1
                    | itemRightParen => depth - 1
                    | _ => depth
                    end in
                  if depth' <? 0 then [mk itemError p "unexpected right paren" l]
                  else mk t p v l
                       :: lexInsideAction fuel' rest
                            (p + strings.len v) (l + lines_in v) depth'
              end
        | EmptyString => [mk itemError p "unclosed action" l]
        end
  end.

(** [lex]: the token stream of a document; byte positions from 0, lines
    from 1. *)
Definition lex (input : string) : list item :=
  lexText (S (S (String.length input))) input 0 1.

(** ** Parse nodes (node.go)

    [Node] is the tagged union behind Go's [Node] interface, one case per
    node struct.  Structs that hold nodes are records over the node type;
    the back-reference [tr] of every node to its tree is only read for the
    tree's [text], which the printer takes as an argument instead. *)

Inductive NodeType : Type :=
| NodeText | NodeAction | NodeBool | NodeChain | NodeCommand | NodeDot
| nodeElse | nodeEnd | NodeField | NodeIdentifier | NodeBranch | NodeList
| NodeNil | NodeNumber | NodePipe | NodeString | NodeTemplate
| NodeVariable | NodeComment.

Record VariableNode : Type := mkVariable {
  var_Pos : Z;
  var_Ident : list string        (* variable name and fields *)
}.

Record EndNode : Type := mkEnd {
  end_Pos : Z;
  end_Trim : trim
}.

Record NumberNode {SC : Strconv} : Type := mkNumber {
  num_Pos : Z;
  IsInt : bool;
  IsUint : bool;
  IsFloat : bool;
  IsComplex : bool;
  Int64 : Z;
  Uint64 : Z;
  Float64 : float64;
  Complex128 : float64 * float64;   (* real and imaginary part *)
  num_Text : string
}.
Arguments mkNumber {SC}.

Record CommandNode_ (N : Type) : Type := mkCommand {
  cmd_Pos : Z;
  Args : list N;
  cmd_Trim : trim
}.
Arguments mkCommand {N}.
Arguments cmd_Pos {N}.
Arguments Args {N}.
Arguments cmd_Trim {N}.

Record PipeNode_ (N : Type) : Type := mkPipe {
  pipe_Pos : Z;
  pipe_Line : Z;
  IsAssign : bool;
  Decl : list VariableNode;
  Cmds : list (CommandNode_ N)
}.
Arguments mkPipe {N}.
Arguments pipe_Pos {N}.
Arguments pipe_Line {N}.
Arguments IsAssign {N}.
Arguments Decl {N}.
Arguments Cmds {N}.

Record ListNode_ (N : Type) : Type := mkList {
  list_Pos : Z;
  Nodes : list N
}.
Arguments mkList {N}.
Arguments list_Pos {N}.
Arguments Nodes {N}.

Record ActionNode_ (N : Type) : Type := mkAction {
  action_Pos : Z;
  action_Line : Z;
  action_Pipe : PipeNode_ N;
  action_Trim : trim
}.
Arguments mkAction {N}.
Arguments action_Pos {N}.
Arguments action_Line {N}.
Arguments action_Pipe {N}.
Arguments action_Trim {N}.

Record ChainNode_ (N : Type) : Type := mkChain {
  chain_Pos : Z;
  chain_Node : N;
  Field : list string
}.
Arguments mkChain {N}.
Arguments chain_Pos {N}.
Arguments chain_Node {N}.
Arguments Field {N}.

(** [else_Pipe] is nil for a bare [{{else}}]; [else_List] is nil until
    [branchControl] fills it in. *)
Record ElseNode_ (N : Type) : Type := mkElse {
  else_Pos : Z;
  else_Pipe : option (PipeNode_ N);
  else_List : option (ListNode_ N);
  else_Line : Z;
  else_Trim : trim
}.
Arguments mkElse {N}.
Arguments else_Pos {N}.
Arguments else_Pipe {N}.
Arguments else_List {N}.
Arguments else_Line {N}.
Arguments else_Trim {N}.

Record BranchNode_ (N : Type) : Type := mkBranch {
  Keyword : string;
  branch_Pos : Z;
  branch_Line : Z;
  branch_Pipe : PipeNode_ N;
  branch_List : ListNode_ N;
  Elses : list (ElseNode_ N);
  End : EndNode;
  branch_Trim : trim
}.
Arguments mkBranch {N}.
Arguments Keyword {N}.
Arguments branch_Pos {N}.
Arguments branch_Line {N}.
Arguments branch_Pipe {N}.
Arguments branch_List {N}.
Arguments Elses {N}.
Arguments End {N}.
Arguments branch_Trim {N}.

Inductive Node {SC : Strconv} : Type :=
| NList (l : ListNode_ Node)
| NText (Pos : Z) (Text : string)
| NComment (Pos : Z) (Text : string)
| NPipe (p : PipeNode_ Node)
| NAction (a : ActionNode_ Node)
| NCommand (c : CommandNode_ Node)
| NIdentifier (Pos : Z) (Ident : string)
| NVariable (v : VariableNode)
| NDot (Pos : Z)
| NNil (Pos : Z)
| NField (Pos : Z) (Ident : list string)
| NChain (c : ChainNode_ Node)
| NBool (Pos : Z) (True_ : bool)
| NNumber (n : NumberNode)
| NString (Pos : Z) (Quoted : string) (Text : string)
| NEnd (e : EndNode)
| NElse (e : ElseNode_ Node)
| NBranch (b : BranchNode_ Node).

Section Nodes.
Context {SC : Strconv}.

Definition ListNode : Type := ListNode_ Node.
Definition PipeNode : Type := PipeNode_ Node.
Definition ActionNode : Type := ActionNode_ Node.
Definition CommandNode : Type := CommandNode_ Node.
Definition ChainNode : Type := ChainNode_ Node.
Definition ElseNode : Type := ElseNode_ Node.
Definition BranchNode : Type := BranchNode_ Node.

(** [n.Type()].  [branchControl] builds a [BranchNode] without setting its
    embedded [NodeType], so a branch reports the zero value, [NodeText]. *)
Definition Type_ (n : Node) : NodeType :=
  match n with
  | NList _ => NodeList
  | NText _ _ => NodeText
  | NComment _ _ => NodeComment
  | NPipe _ => NodePipe
  | NAction _ => NodeAction
  | NCommand _ => NodeCommand
  | NIdentifier _ _ => NodeIdentifier
  | NVariable _ => NodeVariable
  | NDot _ => NodeDot
  | NNil _ => NodeNil
  | NField _ _ => NodeField
  | NChain _ => NodeChain
  | NBool _ _ => NodeBool
  | NNumber _ => NodeNumber
  | NString _ _ _ => NodeString
  | NEnd _ => nodeEnd
  | NElse _ => nodeElse
  | NBranch _ => NodeText
  end.

(** [n.Position()] *)
Definition Position (n : Node) : Z :=
  match n with
  | NList l => list_Pos l
  | NText p _ | NComment p _ | NIdentifier p _ | NDot p | NNil p
  | NField p _ | NBool p _ | NString p _ _ => p
  | NPipe p => pipe_Pos p
  | NAction a => action_Pos a
  | NCommand c => cmd_Pos c
  | NVariable v => var_Pos v
  | NChain c => chain_Pos c
  | NNumber n => num_Pos n
  | NEnd e => end_Pos e
  | NElse e => else_Pos e
  | NBranch b => branch_Pos b
  end.

(** *** The printer

    [printer] is the [strings.Builder] with the prefix and the depth.  A
    write is a function [printer -> option printer]; [None] is a run-time
    panic (a slice out of range in [lineno] or [whitespacePrefix], a
    negative repeat count). *)
Record printer : Type := mkPrinter {
  buf : string;
  prefix : string;
  depth : Z
}.

Definition newPrinter : printer := mkPrinter "" "" 0.

Definition W : Type := printer -> option printer.

Definition WriteString (s : string) : W :=
  fun sb => Some (mkPrinter (buf sb ++ s) (prefix sb) (depth sb)).
Definition WriteByte (c : ascii) : W := WriteString (str1 c).
Definition set_prefix (w : string) : W :=
  fun sb => Some (mkPrinter (buf sb) w (depth sb)).
Definition set_depth (d : Z) : W :=
  fun sb => Some (mkPrinter (buf sb) (prefix sb) d).
Definition skip : W := fun sb => Some sb.

Definition seqW (a b : W) : W :=
  fun sb => match a sb with Some sb' => b sb' | None => None end.

(** A write that first reads the printer. *)
Definition reading (f : printer -> W) : W := fun sb => f sb sb.

(** A write that needs a value whose computation may panic. *)
Definition need {A : Type} (x : option A) (f : A -> W) : W :=
  fun sb => match x with Some a => f a sb | None => None end.

#[local] Notation "a >> b" := (seqW a b) (at level 61, right associativity).

Definition WritePrefix : W :=
  reading (fun sb =>
    need (strings.Repeat (str1 tab) (depth sb)) (fun tabs =>
      WriteString (prefix sb) >> WriteString tabs)).

(** [strings.Count(sb.String(), "\n")] *)
Definition newlines (sb : printer) : Z := strings.Count (buf sb) nl.

(** [for i, x := range l { f i x }] *)
Definition rangeW {A : Type} (f : Z -> A -> W) : Z -> list A -> W :=
  fix go (i : Z) (l : list A) : W :=
    match l with
    | [] => skip
    | x :: l' => f i x >> go (i + 1) l'
    end.

Section Printing.
(** [text] is [n.tree().text], the document the nodes were parsed from. *)
Variable text : string.

Definition lineno (n : Node) : option Z :=
  match strings.slice text 0 (Position n) with
  | Some before => Some (strings.Count before nl)
  | None => None
  end.

Definition whitespacePrefix (n : Node) (ltok : string) : option (string * bool) :=
  let txt := text in
  let pos := Position n in
  match strings.slice txt 0 pos with
  | None => None
  | Some before =>
      let start := strings.LastIndex before nl in
      let start := if start <? 0 then 0 (* first line *) else start in
      match strings.slice txt (start + 1) pos with
      | None => None
      | Some line =>
          let tokIdx := strings.LastIndex line ltok in
          if tokIdx <? 0 then Some ("", false)
          else
            match strings.slice line 0 tokIdx with
            | None => None
            | Some line =>
                let w := leftTrimLength line in
                if negb (w =? strings.len line) then Some ("", false)
                else Some (line, true)
            end
      end
  end.

Definition VariableNode_writeTo (v : VariableNode) : W :=
  rangeW (fun i id => (if 0 <? i then WriteByte "." else skip) >> WriteString id)
         0 (var_Ident v).

Definition EndNode_writeTo (e : EndNode) : W :=
  WriteString (leftDelim (end_Trim e))
  >> WriteString "end"
  >> WriteString (rightDelim (end_Trim e)).

(** The methods of the structs that hold nodes, over the writer [wr] of
    their children. *)
Section Over.
Variable wr : Node -> W.

Definition ListNode_writeTo (l : ListNode) : W :=
  rangeW (fun _ n => wr n) 0 (Nodes l).

(** One argument of a command; a pipeline among the arguments goes
    between parentheses, one level deeper. *)
Definition arg_writeTo (arg : Node) : W :=
  match arg with
  | NPipe _ =>
      WriteByte "("
      >> reading (fun sb =>
           let before := newlines sb in
           set_depth (depth sb + 1)
           >> wr arg
           >> reading (fun sb => set_depth (depth sb - 1))
           >> reading (fun sb =>
                let after := newlines sb in
                if negb (before =? after)
                then WriteString nl >> WritePrefix
                else skip))
      >> WriteByte ")"
  | _ => wr arg
  end.

Definition CommandNode_writeTo (c : CommandNode) : W :=
  (fix args (i prevLine : Z) (l : list Node) {struct l} : W :=
     match l with
     | [] => skip
     | arg :: l' =>
         need (lineno arg) (fun line =>
           (if 0 <? i then
              if prevLine <? line
              then WriteString nl >> WritePrefix
              else WriteByte " "
            else skip)
           >> arg_writeTo arg
           >> args (i + 1) line l')
     end) 0 0 (Args c).

Definition PipeNode_writeTo (p : PipeNode) : W :=
  (match Decl p with
   | [] => skip
   | _ :: _ =>
       rangeW (fun i v =>
                 (if 0 <? i then WriteString ", " else skip)
                 >> VariableNode_writeTo v)
              0 (Decl p)
       >> (if IsAssign p then WriteString " = " else WriteString " := ")
   end)
  >> rangeW (fun i c =>
               (if 0 <? i then WriteString " | " else skip)
               >> CommandNode_writeTo c)
            0 (Cmds p).

Definition ActionNode_writeTo (a : ActionNode) : W :=
  need (whitespacePrefix (NAction a) "{{") (fun '(w, ok) =>
    set_prefix w
    >> WriteString (leftDelim (action_Trim a))
    >> reading (fun sb =>
         let before := newlines sb in
         set_depth 1
         >> PipeNode_writeTo (action_Pipe a)
         >> set_depth 0
         >> reading (fun sb =>
              let after := newlines sb in
              if ok && negb (before =? after)
              then WriteString nl
                   >> WritePrefix
                   >> WriteString (rightDelimNoSpace (action_Trim a))
              else WriteString (rightDelim (action_Trim a))))).

Definition ChainNode_writeTo (c : ChainNode) : W :=
  (match chain_Node c with
   | NPipe _ => WriteByte "(" >> wr (chain_Node c) >> WriteByte ")"
   | _ => wr (chain_Node c)
   end)
  >> rangeW (fun _ field => WriteByte "." >> WriteString field) 0 (Field c).

Definition ElseNode_writeTo (e : ElseNode) : W :=
  WriteString (leftDelim (else_Trim e))
  >> WriteString "else"
  >> (match else_Pipe e with
      | Some p => WriteString " if " >> PipeNode_writeTo p
      | None => skip
      end)
  >> WriteString (rightDelim (else_Trim e))
  >> (match else_List e with
      | Some l => ListNode_writeTo l
      | None => skip
      end).

Definition BranchNode_writeTo (b : BranchNode) : W :=
  WriteString (leftDelim (branch_Trim b))
  >> WriteString (Keyword b)
  >> WriteByte " "
  >> PipeNode_writeTo (branch_Pipe b)
  >> WriteString (rightDelim (branch_Trim b))
  >> ListNode_writeTo (branch_List b)
  >> rangeW (fun _ e => ElseNode_writeTo e) 0 (Elses b)
  >> EndNode_writeTo (End b).
End Over.

(** [n.writeTo(sb)] *)
Fixpoint writeTo (n : Node) {struct n} : W :=
  match n with
  | NList l => ListNode_writeTo writeTo l
  | NText _ t => WriteString t
  | NComment _ t => WriteString "{{" >> WriteString t >> WriteString "}}"
  | NPipe p => PipeNode_writeTo writeTo p
  | NAction a => ActionNode_writeTo writeTo a
  | NCommand c => CommandNode_writeTo writeTo c
  | NIdentifier _ ident => WriteString ident
  | NVariable v => VariableNode_writeTo v
  | NDot _ => WriteString "."
  | NNil _ => WriteString "nil"
  | NField _ ident =>
      rangeW (fun _ id => WriteByte "." >> WriteString id) 0 ident
  | NChain c => ChainNode_writeTo writeTo c
  | NBool _ b => WriteString (if b then "true" else "false")
  | NNumber n => WriteString (num_Text n)
  | NString _ quoted _ => WriteString quoted
  | NEnd e => EndNode_writeTo e
  | NElse e => ElseNode_writeTo writeTo e
  | NBranch b => BranchNode_writeTo writeTo b
  end.

(** [n.String()]: a fresh printer, [writeTo], and the builder's content. *)
Definition String_ (n : Node) : option string :=
  match writeTo n newPrinter with
  | Some sb => Some (buf sb)
  | None => None
  end.
End Printing.
End Nodes.

(** ** The parser (parse.go) *)

(** What a call of the parser comes to.  [errorf] panics with an error,
    which [Tree.Parse] recovers and returns; any other panic is a run-time
    error and is raised again; [OutOfFuel] is the recursion bound of the
    embedding, which also stands for a loop that never ends. *)
Inductive result (A : Type) : Type :=
| Ok (a : A)
| Failed (err : string)
| Crashed
| OutOfFuel.
Arguments Ok {A}.
Arguments Failed {A}.
Arguments Crashed {A}.
Arguments OutOfFuel {A}.

(** The parsing state of a [Tree]: the tokens still to come from the lexer,
    the three-token look-ahead, and the line of the current action.  The
    root is returned by [parse] instead of being stored. *)
Record Tree : Type := mkTree {
  text : string;
  lex_ : list item;
  token0 : item;
  token1 : item;
  token2 : item;
  peekCount : Z;
  actionLine : Z
}.

Definition M (A : Type) : Type := Tree -> result (A * Tree).

Definition ret {A : Type} (a : A) : M A := fun t => Ok (a, t).

Definition bind {A B : Type} (m : M A) (k : A -> M B) : M B :=
  fun t =>
    match m t with
    | Ok (a, t') => k a t'
    | Failed e => Failed e
    | Crashed => Crashed
    | OutOfFuel => OutOfFuel
    end.

Declare Scope parser_scope.
Delimit Scope parser_scope with parser.
Notation "x <- m ;; k" := (bind m (fun x => k))
  (at level 61, m at next level, right associativity) : parser_scope.
Notation "' pat <- m ;; k" := (bind m (fun pat => k))
  (at level 61, pat pattern, m at next level, right associativity) : parser_scope.
Notation "m ;; k" := (bind m (fun _ => k))
  (at level 61, right associativity) : parser_scope.
#[local] Open Scope parser_scope.

Definition crash {A : Type} : M A := fun _ => Crashed.
Definition out_of_fuel {A : Type} : M A := fun _ => OutOfFuel.
Definition get : M Tree := fun t => Ok (t, t).
Definition put (t : Tree) : M unit := fun _ => Ok (tt, t).

(** A value whose computation panics when it is [None]. *)
Definition must {A : Type} (x : option A) : M A :=
  match x with Some a => ret a | None => crash end.

(** The lexer's next item.  Past the end of the stream the lexer keeps
    answering with the end-of-input item. *)
Definition eofItem (t : Tree) : item :=
  mk itemEOF (strings.len (text t)) "EOF" (1 + lines_in (text t)).

Definition nextItem (t : Tree) : item * list item :=
  match lex_ t with
  | i :: rest => (i, rest)
  | [] => (eofItem t, [])
  end.

(** [t.token[i]]; an index outside the array is a run-time panic. *)
Definition token (t : Tree) (i : Z) : option item :=
  if i =? 0 then Some (token0 t)
  else if i =? 1 then Some (token1 t)
  else if i =? 2 then Some (token2 t)
  else None.

Definition set_peekCount (n : Z) (t : Tree) : Tree :=
  mkTree (text t) (lex_ t) (token0 t) (token1 t) (token2 t) n (actionLine t).
Definition set_actionLine (n : Z) (t : Tree) : Tree :=
  mkTree (text t) (lex_ t) (token0 t) (token1 t) (token2 t) (peekCount t) n.
(** [t.token[0] = t.lex.nextItem()] *)
Definition read_token0 (t : Tree) : Tree :=
  let (i, rest) := nextItem t in
  mkTree (text t) rest i (token1 t) (token2 t) (peekCount t) (actionLine t).

(** [next] returns the next token. *)
Definition next : M item :=
  fun t =>
    let t := if 0 <? peekCount t
             then set_peekCount (peekCount t - 1) t
             else read_token0 t in
    must (token t (peekCount t)) t.

(** [backup] backs the input stream up one token. *)
Definition backup : M unit :=
  fun t => Ok (tt, set_peekCount (peekCount t + 1) t).

(** [backup2] backs the input stream up two tokens. *)
Definition backup2 (t1 : item) : M unit :=
  fun t =>
    Ok (tt, mkTree (text t) (lex_ t) (token0 t) t1 (token2 t) 2 (actionLine t)).

(** [backup3] backs the input stream up three tokens. *)
Definition backup3 (t2 t1 : item) : M unit :=
  fun t =>
    Ok (tt, mkTree (text t) (lex_ t) (token0 t) t1 t2 3 (actionLine t)).

(** [peek] returns but does not consume the next token. *)
Definition peek : M item :=
  fun t =>
    if 0 <? peekCount t then must (token t (peekCount t - 1)) t
    else
      let t := read_token0 (set_peekCount 1 t) in
      ret (token0 t) t.

Definition is_space (i : item) : bool := itemType_eqb (typ i) itemSpace.

(** The tokens [next] can still hand out before the lexer is at its end;
    it bounds every loop that takes a token per round. *)
Definition pending (t : Tree) : nat :=
  (Z.to_nat (peekCount t) + List.length (lex_ t))%nat.

(** [nextNonSpace] returns the next non-space token. *)
Fixpoint nextNonSpace_loop (n : nat) : M item :=
  tok <- next ;;
  if is_space tok then
    match n with
    | S n' => nextNonSpace_loop n'
    | O => out_of_fuel
    end
  else ret tok.

Definition nextNonSpace : M item :=
  fun t => nextNonSpace_loop (pending t) t.

(** [peekNonSpace] returns but does not consume the next non-space token. *)
Definition peekNonSpace : M item :=
  tok <- nextNonSpace ;;
  backup ;;
  ret tok.

Section Parser.
Context {SC : Strconv}.

(** Modelled from the spec: how a token reads in an error message (the
    [String] method of [item], defined with the tokenizer): end of input
    by name, an error token by its message, a keyword between angle
    brackets, any other token quoted, cut after ten bytes. *)
Definition item_String (i : item) : string :=
  match typ i with
  | itemEOF => "EOF"
  | itemError => val i
  | _ =>
      if isKeyword (typ i) then "<" ++ val i ++ ">"
      else if 10 <? strings.len (val i)
           then Quote (strings.take 10 (val i)) ++ "..."
           else Quote (val i)
  end.

(** The text of the error [errorf] panics with:
    [fmt.Sprintf("template: %d: %s", t.token[0].line, format)]. *)
Definition error_text (t : Tree) (msg : string) : string :=
  "template: " ++ itoa (line (token0 t)) ++ ": " ++ msg.

(** [errorf] formats the error and terminates processing. *)
Definition errorf {A : Type} (msg : string) : M A :=
  fun t => Failed (error_text t msg).

(** [n.String()] inside the parser, on the tree's text. *)
Definition node_String (n : Node) : M string :=
  t <- get ;; must (String_ (text t) n).

(** [unexpected] complains about the token and terminates processing. *)
Definition unexpected {A : Type} (tok : item) (context : string) : M A :=
  if itemType_eqb (typ tok) itemError then
    t <- get ;;
    let extra :=
      if negb (actionLine t =? 0) && negb (actionLine t =? line tok) then
        let extra := " in action started at :" ++ itoa (actionLine t) in
        if strings.HasSuffix (val tok) " action"
        then strings.drop (String.length " in action") extra
        else extra
      else "" in
    errorf (item_String tok ++ extra)
  else errorf ("unexpected " ++ item_String tok ++ " in " ++ context).

(** [expect] consumes the next token and guarantees it has the required
    type. *)
Definition expect (expected : itemType) (context : string) : M item :=
  tok <- nextNonSpace ;;
  if negb (itemType_eqb (typ tok) expected) then unexpected tok context
  else ret tok.

(** *** Node constructors *)

Definition newList (pos : Z) : ListNode := mkList pos [].
Definition ListNode_append (l : ListNode) (n : Node) : ListNode :=
  mkList (list_Pos l) (Nodes l ++ [n])%list.

Definition newPipeline (pos line : Z) (vars : list VariableNode) : PipeNode :=
  mkPipe pos line false vars [].
Definition PipeNode_append (p : PipeNode) (c : CommandNode) : PipeNode :=
  mkPipe (pipe_Pos p) (pipe_Line p) (IsAssign p) (Decl p) (Cmds p ++ [c])%list.
Definition declare (p : PipeNode) (isAssign : option bool) (v : VariableNode) : PipeNode :=
  mkPipe (pipe_Pos p) (pipe_Line p)
    (match isAssign with Some b => b | None => IsAssign p end)
    (Decl p ++ [v])%list (Cmds p).

Definition newCommand (pos : Z) : CommandNode := mkCommand pos [] noTrim.
Definition CommandNode_append (c : CommandNode) (arg : Node) : CommandNode :=
  mkCommand (cmd_Pos c) (Args c ++ [arg])%list (cmd_Trim c).

Definition newVariable (pos : Z) (ident : string) : VariableNode :=
  mkVariable pos (strings.Split ident ".").

(** [ident[1:]] drops the leading period; on an empty string it panics. *)
Definition newField (pos : Z) (ident : string) : option Node :=
  match ident with
  | String _ rest => Some (NField pos (strings.Split rest "."))
  | EmptyString => None
  end.

Definition newChain (pos : Z) (node : Node) : ChainNode := mkChain pos node [].

(** [Add] adds the named field, which should start with a period; it
    panics otherwise. *)
Definition ChainNode_Add (c : ChainNode) (field : string) : option ChainNode :=
  match field with
  | String d rest =>
      if negb (Ascii.eqb d ".") then None
      else if String.eqb rest "" then None
      else Some (mkChain (chain_Pos c) (chain_Node c) (Field c ++ [rest])%list)
  | EmptyString => None
  end.

Definition set_right (tr : trim) (r : bool) : trim := mkTrim (trim_left tr) r.

(** *** Numbers *)

Definition zero64 : float64 := float64_of_int64 0.

Definition set_int (n : NumberNode) (i : Z) : NumberNode :=
  mkNumber (num_Pos n) true (IsUint n) (IsFloat n) (IsComplex n)
           i (Uint64 n) (Float64 n) (Complex128 n) (num_Text n).
Definition set_uint (n : NumberNode) (u : Z) : NumberNode :=
  mkNumber (num_Pos n) (IsInt n) true (IsFloat n) (IsComplex n)
           (Int64 n) u (Float64 n) (Complex128 n) (num_Text n).
Definition set_float (n : NumberNode) (f : float64) : NumberNode :=
  mkNumber (num_Pos n) (IsInt n) (IsUint n) true (IsComplex n)
           (Int64 n) (Uint64 n) f (Complex128 n) (num_Text n).
Definition set_complex (n : NumberNode) (c : float64 * float64) : NumberNode :=
  mkNumber (num_Pos n) (IsInt n) (IsUint n) (IsFloat n) true
           (Int64 n) (Uint64 n) (Float64 n) c (num_Text n).

(** If [f] has an integral value, extract it where no integer was found
    before ([float64(int64(f)) == f], and the same unsigned). *)
Definition extract_ints (n : NumberNode) (f : float64) : NumberNode :=
  let n := if negb (IsInt n) && float64_eqb (float64_of_int64 (int64_of_float64 f)) f
           then set_int n (int64_of_float64 f) else n in
  if negb (IsUint n) && float64_eqb (float64_of_uint64 (uint64_of_float64 f)) f
  then set_uint n (uint64_of_float64 f) else n.

(** [simplifyComplex] pulls out any other types that are represented by
    the complex number; these all require the imaginary part to be zero. *)
Definition simplifyComplex (n : NumberNode) : NumberNode :=
  let isFloat := float64_eqb (snd (Complex128 n)) zero64 in
  if isFloat then
    let f := fst (Complex128 n) in
    let isInt := float64_eqb (float64_of_int64 (int64_of_float64 f)) f in
    let isUint := float64_eqb (float64_of_uint64 (uint64_of_float64 f)) f in
    mkNumber (num_Pos n) isInt isUint true (IsComplex n)
             (if isInt then int64_of_float64 f else Int64 n)
             (if isUint then uint64_of_float64 f else Uint64 n)
             f (Complex128 n) (num_Text n)
  else
    mkNumber (num_Pos n) (IsInt n) (IsUint n) false (IsComplex n)
             (Int64 n) (Uint64 n) (Float64 n) (Complex128 n) (num_Text n).

Definition ends_in_i (text : string) : bool :=
  match strings.last_byte text with
  | Some c => Ascii.eqb c "i"
  | None => false
  end.

(** [newNumber]: [Some (inl n)] is the number, [Some (inr msg)] the error
    returned, [None] a run-time panic (indexing an empty text). *)
Definition newNumber (pos : Z) (text : string) (typ : itemType)
  : option (NumberNode + string) :=
  let n := mkNumber pos false false false false 0 0 zero64 (zero64, zero64) text in
  match typ with
  | itemCharConstant =>
      match text with
      | EmptyString => None
      | String quote rest =>
          match UnquoteChar rest quote with
          | inr err => Some (inr err)
          | inl (rune, tail) =>
              if negb (String.eqb tail (str1 squote))
              then Some (inr ("malformed character constant: " ++ text))
              else Some (inl (set_float (set_uint (set_int n rune) rune)
                                (float64_of_int64 rune)))
          end
      end
  | itemComplex =>
      match Sscan_complex128 text with
      | inr err => Some (inr err)
      | inl c => Some (inl (simplifyComplex (set_complex n c)))
      end
  | _ =>
      (* Imaginary constants can only be complex unless they are zero. *)
      match (if ends_in_i text then ParseFloat (strings.init text) else None) with
      | Some f => Some (inl (simplifyComplex (set_complex n (zero64, f))))
      | None =>
          (* Do integer test first so we get 0x123 etc. *)
          let u := ParseUint text in   (* will fail for -0; fixed below *)
          let n := match u with Some u => set_uint n u | None => n end in
          let n :=
            match ParseInt text with
            | Some i =>
                let n := set_int n i in
                if i =? 0
                then (* in case of -0, where ParseUint left u at 0 *)
                     set_uint n (match u with Some u => u | None => 0 end)
                else n
            | None => n
            end in
          (* If an integer extraction succeeded, promote the float. *)
          if IsInt n then Some (inl (set_float n (float64_of_int64 (Int64 n))))
          else if IsUint n then Some (inl (set_float n (float64_of_uint64 (Uint64 n))))
          else
            match ParseFloat text with
            | Some f =>
                (* It looks like an integer: too large to fit in an int. *)
                if negb (strings.ContainsAny text ".eEpP")
                then Some (inr ("integer overflow: " ++ Quote text))
                else Some (inl (extract_ints (set_float n f) f))
            | None => Some (inr ("illegal number syntax: " ++ Quote text))
            end
      end
  end.

(** *** Pipelines *)

Definition is_literal (ty : NodeType) : bool :=
  match ty with
  | NodeBool | NodeDot | NodeNil | NodeNumber | NodeString => true
  | _ => false
  end.

(** The loop of [checkPipeline] over [pipe.Cmds[1:]]; [i] is its index. *)
Fixpoint check_stages (i : Z) (cmds : list CommandNode) : M unit :=
  match cmds with
  | [] => ret tt
  | c :: cmds' =>
      arg0 <- must (List.hd_error (Args c)) ;;
      if is_literal (Type_ arg0)
      then (* With A|B|C, pipeline stage 2 is B *)
           errorf ("non executable command in pipeline stage " ++ itoa (i + 2))
      else check_stages (i + 1) cmds'
  end.

Definition checkPipeline (pipe : PipeNode) (context : string) : M unit :=
  (* Reject empty pipelines *)
  (if (List.length (Cmds pipe) =? 0)%nat
   then errorf ("missing value for " ++ context)
   else ret tt) ;;
  (* Only the first command of a pipeline can start with a non executable
     operand *)
  check_stages 0 (List.tl (Cmds pipe)).

Definition starts_operand (ty : itemType) : bool :=
  match ty with
  | itemBool | itemCharConstant | itemComplex | itemDot | itemField
  | itemIdentifier | itemNumber | itemNil | itemRawString | itemString
  | itemVariable | itemLeftParen => true
  | _ => false
  end.

(** The fields that follow a term: [for t.peek().typ == itemField]. *)
Fixpoint chain_fields (n : nat) (chain : ChainNode) : M ChainNode :=
  tok <- peek ;;
  if itemType_eqb (typ tok) itemField then
    tok <- next ;;
    chain <- must (ChainNode_Add chain (val tok)) ;;
    match n with
    | S n' => chain_fields n' chain
    | O => out_of_fuel
    end
  else ret chain.

(** The recursive functions of the parser are written in two steps: the
    body of each function, over the functions it calls recursively, and the
    functions themselves, which hand their bodies the callees with one unit
    of fuel less. *)

(** The part of [pipeline] under its label [decls]: the declarations or
    assignments a pipeline may start with.  [again] is the jump back to the
    label. *)
Definition pipeline_decls_body (again : PipeNode -> M PipeNode)
           (context : string) (pipe : PipeNode) : M PipeNode :=
  v <- peekNonSpace ;;
  if itemType_eqb (typ v) itemVariable then
    next ;;
    (* Since space is a token, we need 3-token look-ahead here in the
       worst case. *)
    tokenAfterVariable <- peek ;;
    nxt <- peekNonSpace ;;
    if itemType_eqb (typ nxt) itemAssign || itemType_eqb (typ nxt) itemDeclare then
      nextNonSpace ;;
      ret (declare pipe (Some (itemType_eqb (typ nxt) itemAssign))
             (newVariable (pos v) (val v)))
    else if itemType_eqb (typ nxt) itemChar && String.eqb (val nxt) "," then
      nextNonSpace ;;
      let pipe := declare pipe None (newVariable (pos v) (val v)) in
      if String.eqb context "range" && (List.length (Decl pipe) <? 2)%nat then
        tok <- peekNonSpace ;;
        match typ tok with
        | itemVariable | itemRightDelim | itemRightParen =>
            (* second initialized variable in a range pipeline *)
            again pipe
        | _ => errorf "range can only initialize variables"
        end
      else errorf ("too many declarations in " ++ context)
    else if is_space tokenAfterVariable then
      backup3 v tokenAfterVariable ;; ret pipe
    else
      backup2 v ;; ret pipe
  else ret pipe.

Fixpoint pipeline_decls (fuel : nat) (context : string) (pipe : PipeNode) : M PipeNode :=
  match fuel with
  | O => out_of_fuel
  | S fuel' => pipeline_decls_body (pipeline_decls fuel' context) context pipe
  end.

(** [term]: a simple expression.  A nil return ([None]) means the next
    item is not a term. *)
Definition term_body (pipeline : string -> itemType -> M (PipeNode * item))
  : M (option Node) :=
  tok <- nextNonSpace ;;
  match typ tok with
  | itemIdentifier => ret (Some (NIdentifier (pos tok) (val tok)))
  | itemDot => ret (Some (NDot (pos tok)))
  | itemNil => ret (Some (NNil (pos tok)))
  | itemVariable => ret (Some (NVariable (newVariable (pos tok) (val tok))))
  | itemField => n <- must (newField (pos tok) (val tok)) ;; ret (Some n)
  | itemBool => ret (Some (NBool (pos tok) (String.eqb (val tok) "true")))
  | itemCharConstant | itemComplex | itemNumber =>
      r <- must (newNumber (pos tok) (val tok) (typ tok)) ;;
      match r with
      | inl number => ret (Some (NNumber number))
      | inr err => errorf err
      end
  | itemLeftParen =>
      '(pipe, _) <- pipeline "parenthesized pipeline" itemRightParen ;;
      ret (Some (NPipe pipe))
  | itemString | itemRawString =>
      match Unquote (val tok) with
      | inl s => ret (Some (NString (pos tok) (val tok) s))
      | inr err => errorf err
      end
  | _ => backup ;; ret None
  end.

(** [operand]: a term possibly followed by field accesses.  A nil return
    means the next item is not an operand. *)
Definition operand_body (term : M (option Node)) : M (option Node) :=
  node <- term ;;
  match node with
  | None => ret None
  | Some node =>
      tok <- peek ;;
      if itemType_eqb (typ tok) itemField then
        t <- get ;;
        chain <- chain_fields (pending t) (newChain (pos tok) node) ;;
        (* If the term is of type NodeField or NodeVariable, just put more
           fields on the original.  Otherwise, keep the Chain node. *)
        match Type_ node with
        | NodeField =>
            s <- node_String (NChain chain) ;;
            n <- must (newField (chain_Pos chain) s) ;;
            ret (Some n)
        | NodeVariable =>
            s <- node_String (NChain chain) ;;
            ret (Some (NVariable (newVariable (chain_Pos chain) s)))
        | NodeBool | NodeString | NodeNumber | NodeNil | NodeDot =>
            s <- node_String node ;;
            errorf ("unexpected . after term " ++ Quote s)
        | _ => ret (Some (NChain chain))
        end
      else ret (Some node)
  end.

(** The loop of [command]; [again] is its next round. *)
Definition command_loop_body (operand : M (option Node))
           (again : CommandNode -> M CommandNode) (cmd : CommandNode)
  : M CommandNode :=
  peekNonSpace ;;  (* skip leading spaces *)
  arg <- operand ;;
  let cmd := match arg with
             | Some arg => CommandNode_append cmd arg
             | None => cmd
             end in
  tok <- next ;;
  match typ tok with
  | itemSpace => again cmd
  | itemRightDelim | itemRightParen => backup ;; ret cmd
  | itemPipe => ret cmd
  | _ => unexpected tok "operand"
  end.

(** [command]: space-separated arguments up to a pipeline character or
    right delimiter. *)
Definition command_body (command_loop : CommandNode -> M CommandNode)
  : M CommandNode :=
  tok <- peekNonSpace ;;
  cmd <- command_loop (newCommand (pos tok)) ;;
  (if (List.length (Args cmd) =? 0)%nat then errorf "empty command" else ret tt) ;;
  ret cmd.

(** The loop of [pipeline]; [again] is its next round. *)
Definition pipeline_loop_body (command : M CommandNode)
           (again : PipeNode -> M (PipeNode * item))
           (context : string) (end_ : itemType) (pipe : PipeNode)
  : M (PipeNode * item) :=
  tok <- nextNonSpace ;;
  if itemType_eqb (typ tok) end_ then
    (* At this point, the pipeline is complete *)
    checkPipeline pipe context ;;
    ret (pipe, tok)
  else if starts_operand (typ tok) then
    backup ;;
    cmd <- command ;;
    again (PipeNode_append pipe cmd)
  else unexpected tok context.

(** [pipeline]: declarations? command ('|' command)* *)
Definition pipeline_body (decls : string -> PipeNode -> M PipeNode)
           (loop : string -> itemType -> PipeNode -> M (PipeNode * item))
           (context : string) (end_ : itemType) : M (PipeNode * item) :=
  tok <- peekNonSpace ;;
  let pipe := newPipeline (pos tok) (line tok) [] in
  (* Are there declarations or assignments? *)
  pipe <- decls context pipe ;;
  loop context end_ pipe.

Fixpoint term (fuel : nat) : M (option Node) :=
  match fuel with
  | O => out_of_fuel
  | S fuel' => term_body (pipeline fuel')
  end
with operand (fuel : nat) : M (option Node) :=
  match fuel with
  | O => out_of_fuel
  | S fuel' => operand_body (term fuel')
  end
with command_loop (fuel : nat) (cmd : CommandNode) : M CommandNode :=
  match fuel with
  | O => out_of_fuel
  | S fuel' => command_loop_body (operand fuel') (command_loop fuel') cmd
  end
with command (fuel : nat) : M CommandNode :=
  match fuel with
  | O => out_of_fuel
  | S fuel' => command_body (command_loop fuel')
  end
with pipeline_loop (fuel : nat) (context : string) (end_ : itemType) (pipe : PipeNode)
  : M (PipeNode * item) :=
  match fuel with
  | O => out_of_fuel
  | S fuel' =>
      pipeline_loop_body (command fuel') (pipeline_loop fuel' context end_)
        context end_ pipe
  end
with pipeline (fuel : nat) (context : string) (end_ : itemType) : M (PipeNode * item) :=
  match fuel with
  | O => out_of_fuel
  | S fuel' =>
      pipeline_body (pipeline_decls fuel') (pipeline_loop fuel') context end_
  end.

(** *** Actions and control structures *)

Definition newEnd (pos : Z) (tr : trim) : Node := NEnd (mkEnd pos tr).
Definition newElse (pos line : Z) (pipe : option PipeNode) (tr : trim) : Node :=
  NElse (mkElse pos pipe None line tr).
Definition newAction (pos line : Z) (pipe : PipeNode) (tr : trim) : Node :=
  NAction (mkAction pos line pipe tr).
Definition ElseNode_set_List (e : ElseNode) (l : ListNode) : ElseNode :=
  mkElse (else_Pos e) (else_Pipe e) (Some l) (else_Line e) (else_Trim e).

(** [endControl]: the end keyword is past. *)
Definition endControl (tr : trim) : M Node :=
  tok <- expect itemRightDelim "end" ;;
  ret (newEnd (pos tok) (set_right tr (trim_right (item_trim tok)))).

(** [elseControl]: the else keyword is past. *)
Definition elseControl (fuel : nat) (tr : trim) : M Node :=
  pk <- peekNonSpace ;;
  if itemType_eqb (typ pk) itemIf then
    tok <- next ;;  (* Consume the "if" token. *)
    '(pipe, eoptok) <- pipeline fuel "else if" itemRightDelim ;;
    ret (newElse (pos tok) (line tok) (Some pipe)
           (set_right tr (trim_right (item_trim eoptok))))
  else
    tok <- expect itemRightDelim "else" ;;
    ret (newElse (pos tok) (line tok) None
           (set_right tr (trim_right (item_trim tok)))).

(** [textOrAction]: text | comment | action *)
Definition textOrAction_body (action : trim -> M Node) : M Node :=
  tok <- nextNonSpace ;;
  match typ tok with
  | itemText => ret (NText (pos tok) (val tok))
  | itemLeftDelim =>
      t <- get ;;
      put (set_actionLine (line tok) t) ;;
      n <- action (item_trim tok) ;;
      (* the deferred clearActionLine *)
      t <- get ;;
      put (set_actionLine 0 t) ;;
      ret n
  | itemComment => ret (NComment (pos tok) (val tok))
  | _ => unexpected tok "input"
  end.

(** [action]: the left delimiter is past; the first word could be a
    keyword. *)
Definition action_body (elseControl : trim -> M Node)
           (branchControl : string -> trim -> M Node)
           (pipeline : string -> itemType -> M (PipeNode * item))
           (tr : trim) : M Node :=
  tok <- nextNonSpace ;;
  match typ tok with
  | itemElse => elseControl tr
  | itemEnd => endControl tr
  | itemIf | itemBranch => branchControl (val tok) tr
  | _ =>
      backup ;;
      tok <- peek ;;
      '(pipe, endtok) <- pipeline "command" itemRightDelim ;;
      ret (newAction (pos tok) (line tok) pipe
             (set_right tr (trim_right (item_trim endtok))))
  end.

(** The loop of [itemList], which terminates at [{{end}}] or [{{else}}],
    returned separately; [again] is its next round. *)
Definition itemList_loop_body (textOrAction : M Node)
           (again : ListNode -> M (ListNode * Node)) (list : ListNode)
  : M (ListNode * Node) :=
  tok <- peekNonSpace ;;
  if negb (itemType_eqb (typ tok) itemEOF) then
    n <- textOrAction ;;
    match Type_ n with
    | nodeEnd | nodeElse => ret (list, n)
    | _ => again (ListNode_append list n)
    end
  else errorf "unexpected EOF".

(** [itemList]: textOrAction* *)
Definition itemList_body (loop : ListNode -> M (ListNode * Node))
  : M (ListNode * Node) :=
  tok <- peekNonSpace ;;
  loop (newList (pos tok)).

(** The loop of [branchControl] under its label [Elses]; on a node that
    is neither an else nor an end it goes round without a change. *)
Definition branch_elses_body (itemList : M (ListNode * Node))
           (again : Node -> list ElseNode -> M (list ElseNode * EndNode))
           (nxt : Node) (elses : list ElseNode)
  : M (list ElseNode * EndNode) :=
  match nxt with
  | NElse n =>
      '(l, nxt) <- itemList ;;
      again nxt (elses ++ [ElseNode_set_List n l])%list
  | NEnd n => ret (elses, n)
  | _ => again nxt elses
  end.

(** [branchControl]: the keyword is past. *)
Definition branchControl_body
           (pipeline : string -> itemType -> M (PipeNode * item))
           (itemList : M (ListNode * Node))
           (elses_loop : Node -> list ElseNode -> M (list ElseNode * EndNode))
           (keyword : string) (tr : trim) : M Node :=
  '(pipe, tok) <- pipeline keyword itemRightDelim ;;
  let tr := set_right tr (trim_right (item_trim tok)) in
  '(l, nxt) <- itemList ;;
  '(elses, e) <- elses_loop nxt [] ;;
  ret (NBranch (mkBranch keyword (pipe_Pos pipe) (pipe_Line pipe)
                  pipe l elses e tr)).

Fixpoint textOrAction (fuel : nat) : M Node :=
  match fuel with
  | O => out_of_fuel
  | S fuel' => textOrAction_body (action fuel')
  end
with action (fuel : nat) (tr : trim) : M Node :=
  match fuel with
  | O => out_of_fuel
  | S fuel' =>
      action_body (elseControl fuel') (branchControl fuel') (pipeline fuel') tr
  end
with itemList_loop (fuel : nat) (list : ListNode) : M (ListNode * Node) :=
  match fuel with
  | O => out_of_fuel
  | S fuel' => itemList_loop_body (textOrAction fuel') (itemList_loop fuel') list
  end
with itemList (fuel : nat) : M (ListNode * Node) :=
  match fuel with
  | O => out_of_fuel
  | S fuel' => itemList_body (itemList_loop fuel')
  end
with branch_elses (fuel : nat) (nxt : Node) (elses : list ElseNode)
  : M (list ElseNode * EndNode) :=
  match fuel with
  | O => out_of_fuel
  | S fuel' => branch_elses_body (itemList fuel') (branch_elses fuel') nxt elses
  end
with branchControl (fuel : nat) (keyword : string) (tr : trim) : M Node :=
  match fuel with
  | O => out_of_fuel
  | S fuel' =>
      branchControl_body (pipeline fuel') (itemList fuel') (branch_elses fuel')
        keyword tr
  end.

(** The loop of [parse] over the root list; [again] is its next round. *)
Definition parse_loop_body (textOrAction : M Node)
           (again : ListNode -> M ListNode) (root : ListNode) : M ListNode :=
  tok <- peek ;;
  if negb (itemType_eqb (typ tok) itemEOF) then
    tok <- peek ;;
    (if itemType_eqb (typ tok) itemLeftDelim then
       delim <- next ;;
       nextNonSpace ;;
       backup2 delim
     else ret tt) ;;
    n <- textOrAction ;;
    match Type_ n with
    | nodeEnd | nodeElse =>
        s <- node_String n ;;
        errorf ("unexpected " ++ s)
    | _ => again (ListNode_append root n)
    end
  else ret root.

Fixpoint parse_loop (fuel : nat) (root : ListNode) : M ListNode :=
  match fuel with
  | O => out_of_fuel
  | S fuel' => parse_loop_body (textOrAction fuel') (parse_loop fuel') root
  end.

(** [parse] is the top-level parser for a template; it runs to EOF. *)
Definition parse (fuel : nat) : M ListNode :=
  tok <- peek ;;
  parse_loop fuel (newList (pos tok)).

(** The [Tree] that [Tree.Parse] starts from: [t.lex = lex(text)],
    [t.text = text], everything else at its zero value. *)
Definition zeroItem : item := mkItem itemError 0 "" 0 noTrim.
Definition startTree (text : string) (items : list item) : Tree :=
  mkTree text items zeroItem zeroItem zeroItem 0 0.

(** [Tree.Parse] followed by [parse.Parse]: the root, or the error of
    the first [errorf].  [items] is what the lexer yields for [text]. *)
Definition Parse_items (fuel : nat) (text : string) (items : list item)
  : result ListNode :=
  match parse fuel (startTree text items) with
  | Ok (root, _) => Ok root
  | Failed e => Failed e
  | Crashed => Crashed
  | OutOfFuel => OutOfFuel
  end.

Definition Parse_fuel (fuel : nat) (text : string) : result ListNode :=
  Parse_items fuel text (lex text).

(** [root.String()] on the root of a parse of [text]. *)
Definition root_String (text : string) (root : ListNode) : result string :=
  match String_ text (NList root) with
  | Some s => Ok s
  | None => Crashed
  end.

(** [tmplfmt.Format] *)
Definition Format_fuel (fuel : nat) (text : string) : result string :=
  match Parse_fuel fuel text with
  | Ok root =>
      (* TODO in the source: move the printing logic out of the nodes *)
      root_String text root
  | Failed e => Failed e
  | Crashed => Crashed
  | OutOfFuel => OutOfFuel
  end.

(** The fuel [Parse] and [Format] run with, linear in the number of
    tokens: six units a token and three more are enough for every token
    stream.  What holds of every parse is stated for every fuel. *)
Definition enough (text : string) : nat :=
  (6 * List.length (lex text) + 8)%nat.

Definition Parse (text : string) : result ListNode :=
  Parse_fuel (enough text) text.

Definition Format (text : string) : result string :=
  Format_fuel (enough text) text.
End Parser.

(** ** An implementation of [Strconv]

    Used to run the parser on concrete documents.  [float64] is IEEE 754
    binary64 with round-to-nearest-even.  Integers follow [strconv] with
    base 0 (prefixes and digit separators); floats are the decimal
    literals, correctly rounded, while hexadecimal floats, digit separators
    in floats and the words [inf] and [nan] are left out and come out as
    syntax errors.  Bytes from 0x80 on are taken as parts of printable
    characters.  A conversion of a float outside the integer range gives the
    value the amd64 instruction leaves. *)
Module GoLib.

Definition f64 : Type := spec_float.
Definition normalize (m e : Z) : f64 := binary_normalize 53 1024 m e false.

Definition of_int (i : Z) : f64 := normalize i 0.

Definition truncate (f : f64) : option Z :=
  match f with
  | S754_zero _ => Some 0
  | S754_finite s m e =>
      let mag := if 0 <=? e then Zpos m * 2 ^ e else Zpos m / 2 ^ (- e) in
      Some (if s then - mag else mag)
  | _ => None
  end.
Definition to_int64 (f : f64) : Z :=
  match truncate f with
  | Some v => if (- 2 ^ 63 <=? v) && (v <? 2 ^ 63) then v else - 2 ^ 63
  | None => - 2 ^ 63
  end.
Definition to_uint64 (f : f64) : Z :=
  match truncate f with
  | Some v => if (0 <=? v) && (v <? 2 ^ 64) then v else 2 ^ 63
  | None => 2 ^ 63
  end.

Definition digit_val (c : ascii) : option Z :=
  let b := byte c in
  if (48 <=? b) && (b <=? 57) then Some (b - 48)
  else if (97 <=? b) && (b <=? 102) then Some (b - 87)
  else if (65 <=? b) && (b <=? 70) then Some (b - 55)
  else None.

Definition lower (c : ascii) : ascii :=
  if (65 <=? byte c) && (byte c <=? 90)
  then ascii_of_nat (nat_of_ascii c + 32) else c.

(** The value of a run of digits of [base]; separators are passed over. *)
Fixpoint digits (base acc : Z) (s : string) : option Z :=
  match s with
  | EmptyString => Some acc
  | String c s' =>
      if Ascii.eqb c "_" then digits base acc s'
      else match digit_val c with
           | Some d => if d <? base then digits base (acc * base + d) s' else None
           | None => None
           end
  end.

(** [underscoreOK]: separators only between digits or after the base
    prefix.  [saw] is the kind of the last byte: 0 start, 1 digit,
    2 separator, 3 other. *)
Fixpoint underscores_from (hex : bool) (saw : Z) (s : string) : bool :=
  match s with
  | EmptyString => negb (saw =? 2)
  | String c s' =>
      if isDigit c || (hex && (97 <=? byte (lower c)) && (byte (lower c) <=? 102))
      then underscores_from hex 1 s'
      else if Ascii.eqb c "_"
           then (saw =? 1) && underscores_from hex 2 s'
           else negb (saw =? 2) && underscores_from hex 3 s'
  end.

Definition unsigned (s : string) : string :=
  match s with
  | String c s' => if Ascii.eqb c "-" || Ascii.eqb c "+" then s' else s
  | EmptyString => s
  end.

Definition underscoreOK (s : string) : bool :=
  let s := unsigned s in
  match s with
  | String z (String b s') =>
      if Ascii.eqb z "0"
         && (Ascii.eqb (lower b) "b" || Ascii.eqb (lower b) "o" || Ascii.eqb (lower b) "x")
      then underscores_from (Ascii.eqb (lower b) "x") 1 s'
      else underscores_from false 0 s
  | _ => underscores_from false 0 s
  end.

(** [strconv.ParseUint(s, 0, 64)] *)
Definition parseUint (s : string) : option Z :=
  match s with
  | EmptyString => None
  | String z rest =>
      let '(base, body) :=
        if Ascii.eqb z "0" then
          match rest with
          | String b (String _ _ as ds) =>
              if Ascii.eqb (lower b) "b" then (2, ds)
              else if Ascii.eqb (lower b) "o" then (8, ds)
              else if Ascii.eqb (lower b) "x" then (16, ds)
              else (8, rest)
          | _ => (8, rest)
          end
        else (10, s) in
      match digits base 0 body with
      | Some n =>
          if strings.ContainsByte s "_" && negb (underscoreOK s) then None
          else if n <? 2 ^ 64 then Some n else None
      | None => None
      end
  end.

(** [strconv.ParseInt(s, 0, 64)] *)
Definition parseInt (s : string) : option Z :=
  match s with
  | EmptyString => None
  | String c _ =>
      let neg := Ascii.eqb c "-" in
      match parseUint (unsigned s) with
      | Some un =>
          if neg then (if un <=? 2 ^ 63 then Some (- un) else None)
          else (if un <? 2 ^ 63 then Some un else None)
      | None => None
      end
  end.

Fixpoint number_of (acc : Z) (ds : string) : Z :=
  match ds with
  | String c ds' =>
      number_of (acc * 10 + match digit_val c with Some d => d | None => 0 end) ds'
  | EmptyString => acc
  end.

(** The float nearest to [m * 10 ^ e10], ties to even.  A negative power
    of ten is divided out with 64 extra bits and a sticky last bit. *)
Definition decimal (neg : bool) (m e10 : Z) : f64 :=
  let f :=
    if m =? 0 then S754_zero false
    else if 0 <=? e10 then normalize (m * 10 ^ e10) 0
    else
      let d := 10 ^ (- e10) in
      let s := Z.max 0 (64 + Z.log2_up d - Z.log2 m) in
      let q := (m * 2 ^ s) / d in
      let r := (m * 2 ^ s) mod d in
      normalize (2 * q + (if r =? 0 then 0 else 1)) (- (s + 1)) in
  if neg then SFopp f else f.

(** The parts of a decimal float at the head of [s]: sign, integer
    digits, fraction digits, exponent, and what follows. *)
Definition floatToken (s : string)
  : option (bool * string * string * Z * string) :=
  let neg := match s with String c _ => Ascii.eqb c "-" | _ => false end in
  let s := unsigned s in
  let (ip, s) := span isDigit s in
  let '(fp, s) :=
    match s with
    | String c s' => if Ascii.eqb c "." then span isDigit s' else (EmptyString, s)
    | EmptyString => (EmptyString, s)
    end in
  if String.eqb (ip ++ fp) "" then None
  else
    match s with
    | String c s' =>
        if Ascii.eqb (lower c) "e" then
          let eneg := match s' with String d _ => Ascii.eqb d "-" | _ => false end in
          let (ds, rest) := span isDigit (unsigned s') in
          if String.eqb ds "" then None
          else Some (neg, ip, fp, (if eneg then - number_of 0 ds else number_of 0 ds), rest)
        else Some (neg, ip, fp, 0, s)
    | EmptyString => Some (neg, ip, fp, 0, s)
    end.

Definition float_of_token (neg : bool) (ip fp : string) (e : Z) : option f64 :=
  match decimal neg (number_of 0 (ip ++ fp)) (e - strings.len fp) with
  | S754_infinity _ => None   (* out of range *)
  | f => Some f
  end.

(** [strconv.ParseFloat(s, 64)] on decimal literals *)
Definition parseFloat (s : string) : option f64 :=
  match floatToken s with
  | Some (neg, ip, fp, e, EmptyString) => float_of_token neg ip fp e
  | _ => None
  end.

(** [fmt.Sscan(s, &c)] for a complex: [real+imagi], or that between
    parentheses. *)
Definition sscanComplex (s : string) : (f64 * f64) + string :=
  let bad := inr "syntax error scanning complex number" in
  let '(parens, s) :=
    match s with
    | String c s' => if Ascii.eqb c "(" then (true, s') else (false, s)
    | EmptyString => (false, s)
    end in
  match floatToken s with
  | Some (neg, ip, fp, e, (String c _) as rest) =>
      if Ascii.eqb c "+" || Ascii.eqb c "-" then
        match floatToken rest with
        | Some (ineg, iip, ifp, ie, String i rest') =>
            if Ascii.eqb i "i"
               && (negb parens || strings.HasPrefix rest' ")") then
              match float_of_token neg ip fp e, float_of_token ineg iip ifp ie with
              | Some re, Some im => inl (re, im)
              | _, _ => inr "value out of range"
              end
            else bad
        | _ => bad
        end
      else bad
  | _ => bad
  end.

(** UTF-8: the bytes of a code point, and the code point at the head of a
    string with its size (the error rune U+FFFD of size 1 when invalid). *)
Definition chr (n : Z) : ascii := ascii_of_nat (Z.to_nat n).

Definition encodeRune (r : Z) : string :=
  if r <? 128 then str1 (chr r)
  else if r <? 2048 then
    String (chr (192 + r / 64)) (str1 (chr (128 + r mod 64)))
  else if r <? 65536 then
    String (chr (224 + r / 4096))
      (String (chr (128 + (r / 64) mod 64)) (str1 (chr (128 + r mod 64))))
  else
    String (chr (240 + r / 262144))
      (String (chr (128 + (r / 4096) mod 64))
         (String (chr (128 + (r / 64) mod 64)) (str1 (chr (128 + r mod 64))))).

Definition cont (c : ascii) : option Z :=
  if (128 <=? byte c) && (byte c <? 192) then Some (byte c - 128) else None.

Definition decodeRune (s : string) : Z * string :=
  match s with
  | EmptyString => (65533, s)
  | String c s1 =>
      let b := byte c in
      if b <? 128 then (b, s1)
      else
        match s1 with
        | String c1 s2 =>
            match cont c1 with
            | None => (65533, s1)
            | Some x1 =>
                if (194 <=? b) && (b <? 224) then ((b - 192) * 64 + x1, s2)
                else
                  match s2 with
                  | String c2 s3 =>
                      match cont c2 with
                      | None => (65533, s1)
                      | Some x2 =>
                          if (224 <=? b) && (b <? 240)
                          then ((b - 224) * 4096 + x1 * 64 + x2, s3)
                          else
                            match s3 with
                            | String c3 s4 =>
                                match cont c3 with
                                | Some x3 =>
                                    if (240 <=? b) && (b <? 245)
                                    then ((b - 240) * 262144 + x1 * 4096 + x2 * 64 + x3, s4)
                                    else (65533, s1)
                                | None => (65533, s1)
                                end
                            | EmptyString => (65533, s1)
                            end
                      end
                  | EmptyString => (65533, s1)
                  end
            end
        | EmptyString => (65533, s1)
        end
  end.

Definition validRune (r : Z) : bool :=
  ((0 <=? r) && (r <? 55296)) || ((57343 <? r) && (r <=? 1114111)).

(** [n] digits of [base] at the head of [s] *)
Fixpoint fixed_digits (n : nat) (base acc : Z) (s : string) : option (Z * string) :=
  match n with
  | O => Some (acc, s)
  | S n' =>
      match s with
      | String c s' =>
          match digit_val c with
          | Some d => if d <? base then fixed_digits n' base (acc * base + d) s' else None
          | None => None
          end
      | EmptyString => None
      end
  end.

Definition ErrSyntax : string := "invalid syntax".

(** [strconv.UnquoteChar]: the value, whether it is a multi-byte
    character, and the tail. *)
Definition unquoteChar (s : string) (quote : ascii) : (Z * bool * string) + string :=
  match s with
  | EmptyString => inr ErrSyntax
  | String c s1 =>
      if Ascii.eqb c quote && (Ascii.eqb quote squote || Ascii.eqb quote dquote)
      then inr ErrSyntax
      else if 128 <=? byte c then
        let (r, tail) := decodeRune s in inl (r, true, tail)
      else if negb (Ascii.eqb c backslash) then inl (byte c, false, s1)
      else
        match s1 with
        | EmptyString => inr ErrSyntax
        | String e s2 =>
            if Ascii.eqb e "a" then inl (7, false, s2)
            else if Ascii.eqb e "b" then inl (8, false, s2)
            else if Ascii.eqb e "f" then inl (12, false, s2)
            else if Ascii.eqb e "n" then inl (10, false, s2)
            else if Ascii.eqb e "r" then inl (13, false, s2)
            else if Ascii.eqb e "t" then inl (9, false, s2)
            else if Ascii.eqb e "v" then inl (11, false, s2)
            else if Ascii.eqb e "x" then
              match fixed_digits 2 16 0 s2 with
              | Some (v, tail) => inl (v, false, tail)
              | None => inr ErrSyntax
              end
            else if Ascii.eqb e "u" || Ascii.eqb e "U" then
              match fixed_digits (if Ascii.eqb e "u" then 4 else 8) 16 0 s2 with
              | Some (v, tail) =>
                  if validRune v then inl (v, true, tail) else inr ErrSyntax
              | None => inr ErrSyntax
              end
            else if (48 <=? byte e) && (byte e <=? 55) then
              match fixed_digits 2 8 (byte e - 48) s2 with
              | Some (v, tail) => if 255 <? v then inr ErrSyntax else inl (v, false, tail)
              | None => inr ErrSyntax
              end
            else if Ascii.eqb e backslash then inl (92, false, s2)
            else if Ascii.eqb e squote || Ascii.eqb e dquote then
              if Ascii.eqb e quote then inl (byte e, false, s2) else inr ErrSyntax
            else inr ErrSyntax
        end
  end.

Fixpoint unquote_loop (fuel : nat) (quote : ascii) (s acc : string) : string + string :=
  match s with
  | EmptyString => inl acc
  | _ =>
      match fuel with
      | O => inr ErrSyntax
      | S fuel' =>
          match unquoteChar s quote with
          | inr e => inr e
          | inl (r, multibyte, tail) =>
              let acc := acc ++ (if (r <? 128) || negb multibyte
                                 then str1 (chr r) else encodeRune r) in
              if Ascii.eqb quote squote && negb (String.eqb tail "")
              then inr ErrSyntax   (* a single-quoted string is one character *)
              else unquote_loop fuel' quote tail acc
          end
      end
  end.

Fixpoint without (c : ascii) (s : string) : string :=
  match s with
  | String d s' => if Ascii.eqb c d then without c s' else String d (without c s')
  | EmptyString => EmptyString
  end.

(** [strconv.Unquote] *)
Definition unquote (s : string) : string + string :=
  match s with
  | String quote (String _ _ as rest) =>
      if negb (match strings.last_byte rest with
               | Some c => Ascii.eqb c quote
               | None => false
               end)
      then inr ErrSyntax
      else
        let body := strings.init rest in
        if Ascii.eqb quote backquote then
          if strings.ContainsByte body backquote then inr ErrSyntax
          else inl (without cr body)
        else if Ascii.eqb quote dquote || Ascii.eqb quote squote then
          if strings.ContainsByte body newline then inr ErrSyntax
          else unquote_loop (String.length body) quote body EmptyString
        else inr ErrSyntax
  | _ => inr ErrSyntax
  end.

Definition hex_digit (n : Z) : ascii :=
  if n <? 10 then chr (48 + n) else chr (87 + n).

(** [strconv.Quote], which the verb %q prints *)
Fixpoint quote_body (s : string) : string :=
  match s with
  | EmptyString => EmptyString
  | String c s' =>
      let b := byte c in
      (if Ascii.eqb c dquote || Ascii.eqb c backslash then String backslash (str1 c)
       else if b =? 7 then String backslash "a"
       else if b =? 8 then String backslash "b"
       else if b =? 12 then String backslash "f"
       else if b =? 10 then String backslash "n"
       else if b =? 13 then String backslash "r"
       else if b =? 9 then String backslash "t"
       else if b =? 11 then String backslash "v"
       else if (b <? 32) || (b =? 127)
            then String backslash
                   (String "x" (String (hex_digit (b / 16)) (str1 (hex_digit (b mod 16)))))
            else str1 c)
      ++ quote_body s'
  end.

Definition quote (s : string) : string :=
  String dquote (quote_body s ++ str1 dquote).

End GoLib.

#[export] Instance GoStrconv : Strconv := {|
  float64 := GoLib.f64;
  float64_of_int64 := GoLib.of_int;
  float64_of_uint64 := GoLib.of_int;
  int64_of_float64 := GoLib.to_int64;
  uint64_of_float64 := GoLib.to_uint64;
  float64_eqb := SFeqb;
  ParseUint := GoLib.parseUint;
  ParseInt := GoLib.parseInt;
  ParseFloat := GoLib.parseFloat;
  UnquoteChar := fun s q =>
    match GoLib.unquoteChar s q with
    | inl (r, _, tail) => inl (r, tail)
    | inr e => inr e
    end;
  Unquote := GoLib.unquote;
  Sscan_complex128 := GoLib.sscanComplex;
  Quote := GoLib.quote
|}.

(** * Properties

    First the vocabulary of the statements, then the proofs. *)

(** Does [s] hold [sub]? *)
Definition contains (s sub : string) : bool := 0 <=? strings.Index s sub.


(** The document of one action that starts on the line after its left
    delimiter: a newline, [{{], a newline, [a], a newline, [b}}]. *)
Definition two_line_action : string := nl ++ "{{" ++ nl ++ "a" ++ nl ++ "b}}".

(** What the printer makes of it, and of that in turn. *)
Definition two_line_action_once : string :=
  nl ++ "{{ a" ++ nl ++ str1 tab ++ "b }}".
Definition two_line_action_twice : string :=
  nl ++ "{{ a" ++ nl ++ str1 tab ++ "b" ++ nl ++ "}}".

(** An action that opens twenty parentheses and closes none. *)
Definition open_parentheses : string := "{{((((((((((((((((((((}}".

Section Vocabulary.
Context {SC : Strconv}.

(** Does the command start with a non-executable operand: a bool, the dot,
    nil, a number or a string? *)
Definition starts_with_literal (c : CommandNode) : bool :=
  match Args c with
  | arg :: _ => is_literal (Type_ arg)
  | [] => false
  end.

(** A command that has a first operand, and it is no such literal. *)
Definition executable (c : CommandNode) : Prop :=
  exists arg args, Args c = arg :: args /\ is_literal (Type_ arg) = false.

(** A pipeline as [checkPipeline] lets it pass: it has a command, every
    command has an operand, and no command after the first starts with a
    literal. *)
Definition checked (pipe : PipeNode) : Prop :=
  Cmds pipe <> []
  /\ (forall c, In c (Cmds pipe) -> Args c <> [])
  /\ (forall c, In c (List.tl (Cmds pipe)) -> starts_with_literal c = false).

(** No list holds an else node or an end node. *)
Definition is_else_or_end (n : Node) : bool :=
  match n with
  | NElse _ | NEnd _ => true
  | _ => false
  end.

Section Below.
Variable below : Node -> bool.

Definition clean_list (l : ListNode) : bool :=
  forallb (fun n => negb (is_else_or_end n) && below n) (Nodes l).
Definition clean_command (c : CommandNode) : bool := forallb below (Args c).
Definition clean_pipe (p : PipeNode) : bool := forallb clean_command (Cmds p).
Definition clean_else (e : ElseNode) : bool :=
  match else_Pipe e with Some p => clean_pipe p | None => true end
  && match else_List e with Some l => clean_list l | None => true end.
Definition clean_branch (b : BranchNode) : bool :=
  clean_pipe (branch_Pipe b) && clean_list (branch_List b)
  && forallb clean_else (Elses b).
End Below.

(** [clean n]: no list in the tree under [n] has an else node or an end
    node among its children. *)
Fixpoint clean (n : Node) : bool :=
  match n with
  | NList l => clean_list clean l
  | NPipe p => clean_pipe clean p
  | NAction a => clean_pipe clean (action_Pipe a)
  | NCommand c => clean_command clean c
  | NChain c => clean (chain_Node c)
  | NElse e => clean_else clean e
  | NBranch b => clean_branch clean b
  | _ => true
  end.

Definition clean_opt (o : option Node) : Prop :=
  match o with
  | Some n => clean n = true
  | None => True
  end.

(** A number node with at least one of its four readings, and one whose
    integer readings come with the float reading. *)
Definition has_value (n : NumberNode) : bool :=
  IsInt n || IsUint n || IsFloat n || IsComplex n.
Definition integers_are_floats (n : NumberNode) : bool :=
  implb (IsInt n || IsUint n) (IsFloat n).

(** The shape the parser gives its trees.  A command has an operand; a
    pipeline has a command, only its first command starts with a literal,
    and it declares no more variables than its place allows; an else node
    in a branch has its list. *)
Section Shape.
Variable below : Node -> bool.

Definition formed_command (c : CommandNode) : bool :=
  negb (List.length (Args c) =? 0)%nat && forallb below (Args c).
Definition formed_pipe (limit : nat) (p : PipeNode) : bool :=
  negb (List.length (Cmds p) =? 0)%nat
  && forallb formed_command (Cmds p)
  && forallb (fun c => negb (starts_with_literal c)) (List.tl (Cmds p))
  && (List.length (Decl p) <=? limit)%nat.
Definition formed_list (l : ListNode) : bool := forallb below (Nodes l).
Definition formed_guard (o : option PipeNode) : bool :=
  match o with
  | Some p => formed_pipe 1 p
  | None => true
  end.
Definition formed_else (e : ElseNode) : bool :=
  formed_guard (else_Pipe e)
  && match else_List e with
     | Some l => formed_list l
     | None => false
     end.
(** How many variables the pipeline after [keyword] may declare. *)
Definition declarations (keyword : string) : nat :=
  if String.eqb keyword "range" then 2%nat else 1%nat.
Definition formed_branch (b : BranchNode) : bool :=
  formed_pipe (declarations (Keyword b)) (branch_Pipe b)
  && formed_list (branch_List b)
  && forallb formed_else (Elses b).
End Shape.

(** What a chain node can hold under its fields: no field and no variable,
    which take the fields themselves, and no literal. *)
Definition chain_base (n : Node) : bool :=
  match Type_ n with
  | NodeField | NodeVariable | NodeBool | NodeString | NodeNumber | NodeNil
  | NodeDot => false
  | _ => true
  end.

(** [wellformed n]: every node of the tree under [n] has that shape.  An
    else node that is not yet in a branch has no list. *)
Fixpoint wellformed (n : Node) : bool :=
  match n with
  | NList l => formed_list wellformed l
  | NPipe p => formed_pipe wellformed 1 p
  | NAction a => formed_pipe wellformed 1 (action_Pipe a)
  | NCommand c => formed_command wellformed c
  | NChain c => chain_base (chain_Node c) && wellformed (chain_Node c)
  | NElse e => formed_guard wellformed (else_Pipe e)
  | NBranch b => formed_branch wellformed b
  | _ => true
  end.

Definition wellformed_opt (o : option Node) : Prop :=
  match o with
  | Some n => wellformed n = true
  | None => True
  end.

(** The parser on a token stream [items] of a document [txt]. *)
Section On.
Variable txt : string.
Variable items : list item.

(** The items the parser can hold in [token[0]]: those of the stream, and
    the end-of-input item the lexer answers with once the stream is over. *)
Definition known_item (i : item) : Prop :=
  In i items \/ i = mk itemEOF (strings.len txt) "EOF" (1 + lines_in txt).

(** The parsing states that can be reached. *)
Definition reachable (t : Tree) : Prop :=
  text t = txt /\ known_item (token0 t) /\ (forall i, In i (lex_ t) -> In i items).

(** The errors of [errorf]: the line of a known item, then the message. *)
Definition located_error (e : string) : Prop :=
  exists i msg,
    known_item i /\ e = "template: " ++ itoa (line i) ++ ": " ++ msg.

(** [meets m Q]: from a reachable state, [m] ends in a reachable state
    with a value that satisfies [Q], or fails with a located error. *)
Definition meets {A : Type} (m : M A) (Q : A -> Prop) : Prop :=
  forall t, reachable t ->
    match m t with
    | Ok (a, t') => reachable t' /\ Q a
    | Failed e => located_error e
    | Crashed | OutOfFuel => True
    end.

(** With [fuel], the functions of the expression grammar give well-formed
    nodes. *)
Definition formed_expressions (fuel : nat) : Prop :=
  meets (term fuel) wellformed_opt
  /\ meets (operand fuel) wellformed_opt
  /\ (forall cmd, forallb wellformed (Args cmd) = true ->
                  meets (command_loop fuel cmd)
                       (fun c => forallb wellformed (Args c) = true))
  /\ meets (command fuel) (fun c => formed_command wellformed c = true)
  /\ (forall context end_ pipe,
        forallb (formed_command wellformed) (Cmds pipe) = true ->
        (List.length (Decl pipe) <= declarations context)%nat ->
        meets (pipeline_loop fuel context end_ pipe)
             (fun r => formed_pipe wellformed (declarations context) (fst r) = true))
  /\ (forall context end_,
        meets (pipeline fuel context end_)
             (fun r => formed_pipe wellformed (declarations context) (fst r) = true)).

(** With [fuel], the functions of the statement grammar give well-formed
    nodes. *)
Definition formed_statements (fuel : nat) : Prop :=
  meets (textOrAction fuel) (fun n => wellformed n = true)
  /\ (forall tr, meets (action fuel tr) (fun n => wellformed n = true))
  /\ (forall l, formed_list wellformed l = true ->
                meets (itemList_loop fuel l)
                     (fun r => formed_list wellformed (fst r) = true
                               /\ wellformed (snd r) = true))
  /\ meets (itemList fuel)
          (fun r => formed_list wellformed (fst r) = true
                    /\ wellformed (snd r) = true)
  /\ (forall nxt elses,
        wellformed nxt = true -> forallb (formed_else wellformed) elses = true ->
        meets (branch_elses fuel nxt elses)
             (fun r => forallb (formed_else wellformed) (fst r) = true))
  /\ (forall keyword tr,
        meets (branchControl fuel keyword tr) (fun n => wellformed n = true)).
End On.
End Vocabulary.

(** What is left for the parser to read, and runs that end. *)
Section Bounds.
Context {SC : Strconv}.

Definition is_eof (i : item) : bool := itemType_eqb (typ i) itemEOF.

(** A token in front of a run of tokens, where a run of end-of-input
    tokens counts as nothing. *)
Definition scons (x : item) (l : list item) : list item :=
  match l with
  | [] => if is_eof x then [] else [x]
  | _ => x :: l
  end.

Fixpoint strip (l : list item) : list item :=
  match l with
  | [] => []
  | x :: r => scons x (strip r)
  end.

(** The tokens backed up into the look-ahead array, next one first. *)
Definition buffered (t : Tree) : list item :=
  if peekCount t =? 1 then [token0 t]
  else if peekCount t =? 2 then [token1 t; token0 t]
  else if peekCount t =? 3 then [token2 t; token1 t; token0 t]
  else [].

Definition ahead (t : Tree) : list item := (buffered t ++ lex_ t)%list.

(** How many tokens [next] has yet to hand out before only end-of-input
    tokens are left. *)
Definition unread (t : Tree) : nat := List.length (strip (ahead t)).
(** The same, of [token[0]] followed by what the lexer has left. *)
Definition unread0 (t : Tree) : nat := List.length (strip (token0 t :: lex_ t)).
Definition upcoming (t : Tree) : item := List.hd (eofItem t) (ahead t).
Definition good (t : Tree) : Prop := 0 <= peekCount t <= 3.

(** [safe r Q]: the run [r] did not stop for want of fuel, and if it has a
    result, [Q] holds of it. *)
Definition safe {A : Type} (r : result (A * Tree)) (Q : A -> Tree -> Prop) : Prop :=
  match r with
  | Ok (a, t') => Q a t'
  | OutOfFuel => False
  | Failed _ | Crashed => True
  end.

(** A computation that leaves the state as it is. *)
Definition stateless {A : Type} (m : M A) : Prop :=
  forall t, safe (m t) (fun _ t' => t' = t).

Record next_post (t : Tree) (x : item) (t' : Tree) : Prop := {
  next_good : good t';
  next_pc : peekCount t' <= 2;
  next_last : token t' (peekCount t') = Some x;
  next_upcoming : x = upcoming t;
  next_text : text t' = text t;
  next_unread : unread t' = (unread t - 1)%nat;
  next_eof : unread t = 0%nat -> is_eof x = true;
  next_mid : is_eof x = true -> (1 <= unread t)%nat -> (1 <= unread t')%nat;
  next_unread0 : (unread0 t' <= unread t)%nat;
  next_pending0 : pending t = 0%nat -> is_eof x = true /\ pending t' = 0%nat;
  next_pending : (1 <= pending t)%nat -> pending t' = (pending t - 1)%nat;
  next_real : is_eof x = false -> (unread t' + 1 <= unread t)%nat;
  next_restore :
    (unread t' = 0%nat /\ is_eof x = true) \/ (unread t' + 1 <= unread t)%nat
}.

Record peek_post (t : Tree) (x : item) (t' : Tree) : Prop := {
  peek_good : good t';
  peek_pc : 1 <= peekCount t';
  peek_upcoming : upcoming t' = x;
  peek_text : text t' = text t;
  peek_unread : unread t' = unread t;
  peek_real : is_eof x = false -> (1 <= unread t)%nat;
  peek_unread0 : (unread0 t' <= unread t')%nat;
  peek_pending : is_eof x = false -> (1 <= pending t)%nat /\ pending t' = pending t
}.

Record backup_post (t : Tree) (x : item) (t' : Tree) : Prop := {
  backup_good : good t';
  backup_pc : 1 <= peekCount t';
  backup_upcoming : upcoming t' = x;
  backup_text : text t' = text t;
  backup_unread :
    unread t' = if ((unread t =? 0)%nat && is_eof x)%bool then 0%nat else S (unread t);
  backup_unread0 : (unread0 t' <= unread t')%nat;
  backup_same0 : unread0 t' = unread0 t;
  backup_le :
    forall n : nat,
      (unread t = 0%nat /\ is_eof x = true) \/ (unread t + 1 <= n)%nat ->
      (unread t' <= n)%nat
}.

Record backup2_post (t : Tree) (x : item) (t' : Tree) : Prop := {
  backup2_good : good t';
  backup2_pc : 1 <= peekCount t';
  backup2_upcoming : upcoming t' = x;
  backup2_text : text t' = text t;
  backup2_unread : (unread t' <= 1 + unread0 t)%nat;
  backup2_unread0 : (unread0 t' <= unread t')%nat
}.

Record backup3_post (t : Tree) (x : item) (t' : Tree) : Prop := {
  backup3_good : good t';
  backup3_pc : 1 <= peekCount t';
  backup3_upcoming : upcoming t' = x;
  backup3_text : text t' = text t;
  backup3_unread : (unread t' <= 2 + unread0 t)%nat;
  backup3_unread0 : (unread0 t' <= unread t')%nat
}.

Record nextNonSpace_post (t : Tree) (x : item) (t' : Tree) : Prop := {
  nns_good : good t';
  nns_pc : peekCount t' <= 2;
  nns_last : token t' (peekCount t') = Some x;
  nns_text : text t' = text t;
  nns_nonspace : is_space x = false;
  nns_unread : (unread t' <= unread t - 1)%nat;
  nns_restore : (unread t' = 0%nat /\ is_eof x = true) \/ (unread t' + 1 <= unread t)%nat;
  nns_unread0 : (unread0 t' <= unread t)%nat;
  nns_space : is_space (upcoming t) = true -> (unread0 t' + 1 <= unread t)%nat;
  nns_real : is_eof x = false -> (unread t' + 1 <= unread t)%nat
}.

Record peekNonSpace_post (t : Tree) (x : item) (t' : Tree) : Prop := {
  pns_good : good t';
  pns_pc : 1 <= peekCount t';
  pns_upcoming : upcoming t' = x;
  pns_text : text t' = text t;
  pns_nonspace : is_space x = false;
  pns_unread : (unread t' <= unread t)%nat;
  pns_real : is_eof x = false -> (1 <= unread t')%nat;
  pns_unread0 : (unread0 t' <= unread t')%nat;
  pns_space : is_space (upcoming t) = true -> (unread0 t' + 1 <= unread t)%nat
}.

(** With [u] tokens unread, [term] ends within fuel [6u + 1], and the
    functions that lead to it within one more each. *)
Definition expressions_end (F : nat) : Prop :=
  (forall t, good t -> (6 * unread t + 1 <= F)%nat ->
     safe (term F t)
          (fun r t' => good t' /\ (unread t' <= unread t)%nat
                       /\ (r <> None -> (unread t' < unread t)%nat)))
  /\ (forall t, good t -> (6 * unread t + 2 <= F)%nat ->
        safe (operand F t)
             (fun r t' => good t' /\ (unread t' <= unread t)%nat
                          /\ (r <> None -> (unread t' < unread t)%nat)))
  /\ (forall cmd t, good t -> (6 * unread t + 3 <= F)%nat ->
        safe (command_loop F cmd t)
             (fun r t' => good t' /\ (unread t' <= unread t)%nat
                          /\ (Args r = Args cmd \/ (unread t' < unread t)%nat)))
  /\ (forall t, good t -> (6 * unread t + 4 <= F)%nat ->
        safe (command F t) (fun _ t' => good t' /\ (unread t' < unread t)%nat))
  /\ (forall context end_ pipe t, good t -> (6 * unread t + 5 <= F)%nat ->
        safe (pipeline_loop F context end_ pipe t)
             (fun _ t' => good t' /\ (unread t' <= unread t)%nat))
  /\ (forall context end_ t, good t -> (6 * unread t + 6 <= F)%nat ->
        safe (pipeline F context end_ t)
             (fun _ t' => good t' /\ (unread t' <= unread t)%nat)).

Definition ends_list (n : Node) : Prop := Type_ n = nodeEnd \/ Type_ n = nodeElse.

(** With [u] tokens unread, [textOrAction] ends within fuel [6u + 2]. *)
Definition statements_end (F : nat) : Prop :=
  (forall t, good t -> (6 * unread t + 2 <= F)%nat ->
     safe (textOrAction F t) (fun _ t' => good t' /\ (unread t' < unread t)%nat))
  /\ (forall tr t, good t -> (6 * unread t + 7 <= F)%nat ->
        safe (action F tr t) (fun _ t' => good t' /\ (unread t' <= unread t)%nat))
  /\ (forall list t, good t -> (6 * unread t + 3 <= F)%nat ->
        safe (itemList_loop F list t)
             (fun r t' => good t' /\ (unread t' < unread t)%nat /\ ends_list (snd r)))
  /\ (forall t, good t -> (6 * unread t + 4 <= F)%nat ->
        safe (itemList F t)
             (fun r t' => good t' /\ (unread t' < unread t)%nat /\ ends_list (snd r)))
  /\ (forall nxt elses t, ends_list nxt -> good t -> (6 * unread t + 5 <= F)%nat ->
        safe (branch_elses F nxt elses t)
             (fun _ t' => good t' /\ (unread t' <= unread t)%nat))
  /\ (forall keyword tr t, good t -> (6 * unread t + 7 <= F)%nat ->
        safe (branchControl F keyword tr t)
             (fun _ t' => good t' /\ (unread t' <= unread t)%nat)).
End Bounds.

(** The stages [. | a | true], and the state of the parser on [{{}}] once
    the left delimiter is past. *)
Definition stage (arg : Node (SC := GoStrconv)) : CommandNode :=
  mkCommand 0 [arg] noTrim.
Definition three_stages : PipeNode :=
  mkPipe 0 1 false []
    [stage (NDot 0); stage (NIdentifier 4 "a"); stage (NBool 8 true)].

Definition at_right_delim : Tree :=
  mkTree "{{}}" [mk itemEOF 4 "EOF" 1]
    (mk itemRightDelim 2 "}}" 1) zeroItem zeroItem 1 1.

(** The state of the parser on [{{.|len}}] once the left delimiter is
    past. *)
Definition after_left_delim : Tree :=
  mkTree "{{.|len}}"
    [mk itemDot 2 "." 1; mk itemPipe 3 "|" 1; mk itemIdentifier 4 "len" 1;
     mk itemRightDelim 7 "}}" 1; mk itemEOF 9 "EOF" 1]
    (mk itemLeftDelim 0 "{{" 1) zeroItem zeroItem 0 1.

(** [settles m m']: wherever [m] ends without running out of fuel, [m']
    ends the same way. *)
Definition settles {A : Type} (m m' : M A) : Prop :=
  forall t, m t <> OutOfFuel -> m' t = m t.

(** [after r Q]: if the run [r] has a result, [Q] holds of it and of the
    state it ends in. *)
Definition after {A : Type} (r : result (A * Tree)) (Q : A -> Tree -> Prop) : Prop :=
  match r with
  | Ok (a, t') => Q a t'
  | _ => True
  end.

(** The token read last is [x]. *)
Definition last_read (x : item) (t : Tree) : Prop :=
  token t (peekCount t) = Some x.

(** The state of the parser at the start of [{{- end -}}]. *)
Definition at_trimmed_end : Tree :=
  mkTree "{{- end -}}"
    [mkItem itemLeftDelim 0 "{{" 1 (mkTrim true false);
     mk itemEnd 4 "end" 1;
     mkItem itemRightDelim 8 "}}" 1 (mkTrim false true);
     mk itemEOF 11 "EOF" 1]
    zeroItem zeroItem zeroItem 0 0.

Section Trimmed.
Context {SC : Strconv}.

(** The right delimiter [close] was read last, and [tr] has the left flag
    of [opening] and the right flag of [close]. *)
Definition delimited (opening tr : trim) (t : Tree) : Prop :=
  exists close,
    last_read close t /\ typ close = itemRightDelim
    /\ tr = mkTrim (trim_left opening) (trim_right (item_trim close)).

(** What [action] returns for the left delimiter's flags [opening]. *)
Definition action_node (opening : trim) (n : Node) (t : Tree) : Prop :=
  match n with
  | NAction a => delimited opening (action_Trim a) t
  | NElse e => delimited opening (else_Trim e) t
  | NEnd e => delimited opening (end_Trim e) t
  | NBranch b => trim_left (branch_Trim b) = trim_left opening
  | _ => False
  end.
End Trimmed.

(** *** Vocabulary of the printer *)

Section Everywhere.
Context {SC : Strconv}.
Variable P : Node -> Prop.

(** [P] holds of the nodes under a struct. *)
Definition all_command (c : CommandNode) : Prop := Forall P (Args c).
Definition all_pipe (p : PipeNode) : Prop := Forall all_command (Cmds p).
Definition all_list (l : ListNode) : Prop := Forall P (Nodes l).
Definition all_guard (o : option PipeNode) : Prop :=
  match o with Some p => all_pipe p | None => True end.
Definition all_body (o : option ListNode) : Prop :=
  match o with Some l => all_list l | None => True end.
Definition all_else (e : ElseNode) : Prop :=
  all_guard (else_Pipe e) /\ all_body (else_List e).
Definition all_branch (b : BranchNode) : Prop :=
  all_pipe (branch_Pipe b) /\ all_list (branch_List b) /\ Forall all_else (Elses b).

(** The nodes without nodes under them. *)
Definition is_leaf (n : Node) : bool :=
  match n with
  | NList _ | NPipe _ | NAction _ | NCommand _ | NChain _ | NElse _ | NBranch _ => false
  | _ => true
  end.
End Everywhere.

(** [appends w]: the write [w] leaves what is in the builder and adds to
    it. *)
Definition appends (w : W) : Prop :=
  forall sb sb', w sb = Some sb' -> exists out, buf sb' = buf sb ++ out.

(** The printer after [s] has been written. *)
Definition written (sb : printer) (s : string) : printer :=
  mkPrinter (buf sb ++ s) (prefix sb) (depth sb).

(** The elements after the first, each behind the separator. *)
Definition following (sep : string) (l : list string) : string :=
  String.concat "" (List.map (fun s => sep ++ s) l).

(** How an action ends after the pipeline text [s]: on a line of its own
    when [s] holds a newline and the prefix [w] of the action was found. *)
Definition closing (tr : trim) (w : string) (ok : bool) (s : string) : string :=
  if ok && negb (strings.Count s nl =? 0)
  then nl ++ w ++ rightDelimNoSpace tr
  else rightDelim tr.

Section Flat.
Context {SC : Strconv}.

(** What an operand that is no pipeline and no chain is written as. *)
Definition operand_text (n : Node) : option string :=
  match n with
  | NIdentifier _ ident => Some ident
  | NVariable v => Some (String.concat "." (var_Ident v))
  | NDot _ => Some "."
  | NNil _ => Some "nil"
  | NField _ ident => Some (String.concat "" (List.map (fun id => "." ++ id) ident))
  | NBool _ b => Some (if b then "true" else "false")
  | NNumber n => Some (num_Text n)
  | NString _ quoted _ => Some quoted
  | _ => None
  end.
Definition word (n : Node) : string :=
  match operand_text n with Some s => s | None => "" end.
Definition is_word (n : Node) : bool :=
  match operand_text n with Some _ => true | None => false end.

Definition command_text (c : CommandNode) : string :=
  String.concat " " (List.map word (Args c)).
Definition variable_text (v : VariableNode) : string :=
  String.concat "." (var_Ident v).
Definition declarations_text (p : PipeNode) : string :=
  match Decl p with
  | [] => ""
  | _ :: _ =>
      String.concat ", " (List.map variable_text (Decl p))
      ++ (if IsAssign p then " = " else " := ")
  end.
Definition pipe_text (p : PipeNode) : string :=
  declarations_text p ++ String.concat " | " (List.map command_text (Cmds p)).

Section In.
Variable text : string.

(** The operands are on one line of [text]. *)
Definition same_line (args : list Node) : bool :=
  match args with
  | [] => true
  | arg :: _ =>
      match lineno text arg with
      | Some k =>
          forallb (fun a => match lineno text a with
                            | Some k' => k' =? k
                            | None => false
                            end) args
      | None => false
      end
  end.

Definition flat_command (c : CommandNode) : bool :=
  forallb is_word (Args c) && same_line (Args c).
Definition flat_pipe (p : PipeNode) : bool := forallb flat_command (Cmds p).

(** The loop of [CommandNode.writeTo], from the argument of index [i]
    on. *)
Fixpoint write_args (i prevLine : Z) (l : list Node) {struct l} : W :=
  match l with
  | [] => skip
  | arg :: l' =>
      need (lineno text arg) (fun line =>
        seqW (if 0 <? i then
                if prevLine <? line
                then seqW (WriteString nl) WritePrefix
                else WriteByte " "
              else skip)
             (seqW (arg_writeTo (writeTo text) arg) (write_args (i + 1) line l')))
  end.
End In.
End Flat.

(** *** Trees the printer can write *)

Section Placed.
Context {SC : Strconv}.
Variable text : string.

(** A position of [text], its end included. *)
Definition in_text (p : Z) : bool := (0 <=? p) && (p <=? strings.len text).

(** The nodes of the expression grammar. *)
Definition is_expression (n : Node) : bool :=
  match n with
  | NList _ | NText _ _ | NComment _ _ | NAction _ | NEnd _ | NElse _ | NBranch _ =>
      false
  | _ => true
  end.

Section Under.
Variable below : Node -> bool.

Definition placed_command (c : CommandNode) : bool :=
  forallb (fun arg => in_text (Position arg) && is_expression arg && below arg)
          (Args c).
Definition placed_pipe (p : PipeNode) : bool := forallb placed_command (Cmds p).
Definition placed_list (l : ListNode) : bool := forallb below (Nodes l).
Definition placed_else (e : ElseNode) : bool :=
  match else_Pipe e with Some p => placed_pipe p | None => true end
  && match else_List e with Some l => placed_list l | None => true end.
Definition placed_branch (b : BranchNode) : bool :=
  placed_pipe (branch_Pipe b) && placed_list (branch_List b)
  && forallb placed_else (Elses b).
End Under.

(** [placed n]: in the tree under [n] the operands of the commands are
    expressions at positions of [text], and the actions are at positions of
    [text] past its first byte. *)
Fixpoint placed (n : Node) : bool :=
  match n with
  | NList l => placed_list placed l
  | NPipe p => placed_pipe placed p
  | NAction a =>
      (1 <=? action_Pos a) && (action_Pos a <=? strings.len text)
      && placed_pipe placed (action_Pipe a)
  | NCommand c => placed_command placed c
  | NChain c => is_expression (chain_Node c) && placed (chain_Node c)
  | NElse e => placed_else placed e
  | NBranch b => placed_branch placed b
  | _ => true
  end.
End Placed.

(** [total w]: from a printer of depth 0 or more the write [w] returns,
    and leaves such a printer.  [steady w]: it leaves the depth as it
    is. *)
Definition total (w : W) : Prop :=
  forall sb, 0 <= depth sb -> exists sb', w sb = Some sb' /\ 0 <= depth sb'.
Definition steady (w : W) : Prop :=
  forall sb, 0 <= depth sb -> exists sb', w sb = Some sb' /\ depth sb' = depth sb.

Section Steady.
Context {SC : Strconv}.
Variable text : string.
Variable wr : Node -> W.

(** What the writes of the operands of a command, and of the parts of an
    else, have to be for the command and the else to be written. *)
Definition steady_command (c : CommandNode) : Prop :=
  Forall (fun arg => in_text text (Position arg) = true /\ steady (wr arg)) (Args c).
Definition total_else (e : ElseNode) : Prop :=
  match else_Pipe e with Some p => Forall steady_command (Cmds p) | None => True end
  /\ match else_List e with
     | Some l => Forall (fun n => total (wr n)) (Nodes l)
     | None => True
     end.
End Steady.

(** What holds of the writes of a placed tree. *)
Definition writes {SC : Strconv} (text : string) (n : Node) : Prop :=
  placed text n = true ->
  total (writeTo text n)
  /\ (is_expression n = true -> steady (writeTo text n)).

(** *** Tokens that lie in the text *)

Section Sound.
Context {SC : Strconv}.
Variable txt : string.

(** A token at a position of [txt]; one that can start an operand is past
    the first byte, where the left delimiter before it is. *)
Definition sound (i : item) : bool :=
  in_text txt (pos i) && implb (starts_operand (typ i)) (1 <=? pos i).

(** The parser on [txt] with sound tokens in its look-ahead and to come. *)
Definition sound_state (t : Tree) : Prop :=
  text t = txt /\ sound (token0 t) = true /\ sound (token1 t) = true
  /\ sound (token2 t) = true /\ forallb sound (lex_ t) = true.

(** [fed m Q]: from such a state, a result of [m] satisfies [Q] and comes
    with such a state. *)
Definition fed {A : Type} (m : M A) (Q : A -> Prop) : Prop :=
  forall t, sound_state t -> after (m t) (fun a t' => sound_state t' /\ Q a).

Definition placed_operand (n : Node) : bool :=
  in_text txt (Position n) && is_expression n && placed txt n.
Definition placed_opt (o : option Node) : Prop :=
  match o with
  | Some n => placed_operand n = true
  | None => True
  end.
Definition placed_args (c : CommandNode) : bool := forallb placed_operand (Args c).
Definition placed_at (p : PipeNode) : bool :=
  in_text txt (pipe_Pos p) && forallb placed_args (Cmds p).

(** With [fuel], the functions of the expression grammar give placed
    nodes. *)
Definition placed_expressions (fuel : nat) : Prop :=
  fed (term fuel) placed_opt
  /\ fed (operand fuel) placed_opt
  /\ (forall cmd, placed_args cmd = true ->
                  fed (command_loop fuel cmd) (fun c => placed_args c = true))
  /\ fed (command fuel) (fun c => placed_args c = true)
  /\ (forall context end_ pipe,
        placed_at pipe = true ->
        fed (pipeline_loop fuel context end_ pipe)
            (fun r => placed_at (fst r) = true))
  /\ (forall context end_,
        fed (pipeline fuel context end_) (fun r => placed_at (fst r) = true)).

(** With [fuel], the functions of the statement grammar give placed
    nodes. *)
Definition placed_statements (fuel : nat) : Prop :=
  fed (textOrAction fuel) (fun n => placed txt n = true)
  /\ (forall tr, fed (action fuel tr) (fun n => placed txt n = true))
  /\ (forall l, placed_list (placed txt) l = true ->
                fed (itemList_loop fuel l)
                    (fun r => placed_list (placed txt) (fst r) = true
                              /\ placed txt (snd r) = true))
  /\ fed (itemList fuel)
         (fun r => placed_list (placed txt) (fst r) = true
                   /\ placed txt (snd r) = true)
  /\ (forall nxt elses,
        placed txt nxt = true ->
        forallb (placed_else txt (placed txt)) elses = true ->
        fed (branch_elses fuel nxt elses)
            (fun r => forallb (placed_else txt (placed txt)) (fst r) = true))
  /\ (forall keyword tr,
        fed (branchControl fuel keyword tr) (fun n => placed txt n = true)).
(** What the traversal alone gives of an action: its position is in the
    text. *)
Definition nearly_placed (n : Node) : Prop :=
  match n with
  | NAction a =>
      in_text txt (action_Pos a) = true
      /\ placed_pipe txt (placed txt) (action_Pipe a) = true
  | _ => placed txt n = true
  end.
End Sound.

(** The state after [backup]. *)
Definition backed (t : Tree) : Tree := set_peekCount (peekCount t + 1) t.

Definition is_action {SC : Strconv} (n : Node) : bool :=
  match n with NAction _ => true | _ => false end.

(** *** Runs without a panic *)

(** [calm P m Q]: from a state that satisfies [P], the run [m] does not
    panic, and a result of it satisfies [Q] with the state it ends in. *)
Definition calm {A : Type} (P : Tree -> Prop) (m : M A) (Q : A -> Tree -> Prop)
  : Prop :=
  forall t, P t ->
    match m t with
    | Ok (a, t') => Q a t'
    | Crashed => False
    | Failed _ | OutOfFuel => True
    end.

(** A token as the parser needs it: a field is a period and a name, a
    character constant is not empty. *)
Definition lexical (i : item) : bool :=
  match typ i with
  | itemField =>
      match val i with
      | String c rest => Ascii.eqb c "." && negb (String.eqb rest "")
      | EmptyString => false
      end
  | itemCharConstant => negb (String.eqb (val i) "")
  | _ => true
  end.

Section Ready.
Context {SC : Strconv}.
Variable txt : string.

Definition fit (i : item) : bool := sound txt i && lexical i.

(** The states of the parser on [txt]: at most three tokens backed up, and
    fit tokens in the look-ahead and to come. *)
Definition ready (t : Tree) : Prop :=
  good t /\ text t = txt /\ fit (token0 t) = true /\ fit (token1 t) = true
  /\ fit (token2 t) = true /\ forallb fit (lex_ t) = true.

(** The states after [next]: room for a [backup]. *)
Definition fresh (t : Tree) : Prop := ready t /\ peekCount t <= 2.

(** A field node has a name. *)
Definition named (n : Node) : Prop :=
  match n with
  | NField _ ids => ids <> []
  | _ => True
  end.
Definition named_opt (o : option Node) : Prop :=
  match o with
  | Some n => named n
  | None => True
  end.

(** The commands have operands. *)
Definition filled (p : PipeNode) : Prop := Forall (fun c => Args c <> []) (Cmds p).

(** With [fuel], the functions of the expression grammar do not panic. *)
Definition calm_expressions (fuel : nat) : Prop :=
  calm ready (term fuel) (fun o t' => ready t' /\ named_opt o)
  /\ calm ready (operand fuel) (fun o t' => ready t' /\ named_opt o)
  /\ (forall cmd, calm ready (command_loop fuel cmd) (fun _ t' => ready t'))
  /\ calm ready (command fuel) (fun c t' => ready t' /\ Args c <> [])
  /\ (forall context end_ pipe,
        filled pipe ->
        calm ready (pipeline_loop fuel context end_ pipe)
             (fun r t' => fresh t' /\ fit (snd r) = true))
  /\ (forall context end_,
        calm ready (pipeline fuel context end_)
             (fun r t' => fresh t' /\ fit (snd r) = true)).

(** With [fuel], the functions of the statement grammar do not panic. *)
Definition calm_statements (fuel : nat) : Prop :=
  calm ready (textOrAction fuel) (fun _ t' => ready t')
  /\ (forall tr, calm ready (action fuel tr) (fun _ t' => ready t'))
  /\ (forall l, calm ready (itemList_loop fuel l) (fun _ t' => ready t'))
  /\ calm ready (itemList fuel) (fun _ t' => ready t')
  /\ (forall nxt elses, calm ready (branch_elses fuel nxt elses) (fun _ t' => ready t'))
  /\ (forall keyword tr,
        calm ready (branchControl fuel keyword tr) (fun _ t' => ready t')).
End Ready.

(** The token [peek] has just returned. *)
Definition peeked (x : item) (t : Tree) : Prop :=
  1 <= peekCount t /\ token t (peekCount t - 1) = Some x.

(** *** Where the else and end nodes go *)

Section Absorbing.
Context {SC : Strconv}.



End Absorbing.


(** The document [{{ if .X -}}], a newline, a tab, [{{- . | a | b }}] and
    [{{- end }}], the action of its second line and its if, as the parser
    builds them. *)
Definition piped_text : string :=
  "{{ if .X -}}" ++ nl ++ str1 tab ++ "{{- . | a | b }}{{- end }}".
Definition piped_stages : PipeNode :=
  mkPipe 18 2 false []
    [mkCommand 18 [NDot (SC := GoStrconv) 18] noTrim;
     mkCommand 22 [NIdentifier 22 "a"] noTrim;
     mkCommand 26 [NIdentifier 26 "b"] noTrim].
Definition piped_action : ActionNode := mkAction 18 2 piped_stages (mkTrim true false).
Definition first_byte_action : ActionNode := mkAction 0 1 piped_stages noTrim.
(** The action of [x{{ . }}]. *)
Definition first_line_action : ActionNode :=
  mkAction 4 1 (mkPipe 4 1 false [] [mkCommand 4 [NDot (SC := GoStrconv) 4] noTrim])
    noTrim.
Definition piped_if : BranchNode :=
  mkBranch "if" 6 1 (mkPipe 6 1 false [] [mkCommand 6 [NField 6 ["X"]] noTrim])
    (mkList 12 [NText 12 (nl ++ str1 tab); NAction piped_action]) []
    (mkEnd 38 (mkTrim true false)) (mkTrim false true).

(** ** Runs of the formatter *)

Section Examples.
Context {SC : Strconv}.

(** C9.  Formatting [{{if .X}}a{{end}}] succeeds and gives exactly
    [{{ if .X }}a{{ end }}]: the spaced delimiter forms, one space between
    the keyword and the guard, the text between the branches unchanged. *)
Theorem format_if_end :
  Format "{{if .X}}a{{end}}" = Ok "{{ if .X }}a{{ end }}".
Proof. vm_compute. reflexivity. Qed.

(** C1.  Round-trip stability fails on [two_line_action]: the parse
    succeeds and serializes to [two_line_action_once]; parsing that again
    succeeds too, but the second tree serializes to
    [two_line_action_twice], with the right delimiter on a line of its
    own.  In the first document the first token of the action is on the
    line after [{{], so [whitespacePrefix] finds no left delimiter on that
    line and reports [ok = false]; in the output the token stands behind
    [{{ ], and [ok] is true. *)
Theorem roundtrip_unstable :
  exists root root2,
    Parse two_line_action = Ok root
    /\ root_String two_line_action root = Ok two_line_action_once
    /\ Parse two_line_action_once = Ok root2
    /\ root_String two_line_action_once root2 = Ok two_line_action_twice
    /\ two_line_action_twice <> two_line_action_once.
Proof.
  eexists. eexists.
  split; [vm_compute; reflexivity|].
  split; [vm_compute; reflexivity|].
  split; [vm_compute; reflexivity|].
  split; [vm_compute; reflexivity|].
  vm_compute. discriminate.
Qed.

(** C2.  [Format] is not idempotent on [two_line_action]: formatting the
    formatted document changes it once more. *)
Theorem format_not_idempotent :
  Format two_line_action = Ok two_line_action_once
  /\ Format two_line_action_once = Ok two_line_action_twice
  /\ Format two_line_action_once <> Format two_line_action.
Proof.
  split; [vm_compute; reflexivity|].
  split; [vm_compute; reflexivity|].
  vm_compute. discriminate.
Qed.

(** C3.  The trim markers of a comment are dropped: [{{- /* c */ -}}]
    comes out as [{{/* c */}}], while the markers of a branch and of its
    end are kept.  The comment token carries the flags, but [newComment]
    takes only its position and value, and [CommentNode.writeTo] writes
    the plain delimiters. *)
Theorem comment_trim_dropped :
  Format "{{- /* c */ -}}" = Ok "{{/* c */}}"
  /\ Format "{{- if .X -}}a{{- end -}}" = Ok "{{- if .X -}}a{{- end -}}".
Proof. split; vm_compute; reflexivity. Qed.

(** C8.  A numeric literal that is no unsigned and no signed integer but
    parses as a float is an "integer overflow" error when it holds none
    of the bytes [.eEpP], and otherwise the float, with the integer
    fields filled in when the float converts to an integer and back
    unchanged.  ([strconv.ParseFloat] accepts no text that ends in [i], so
    the last premise holds of every such literal.) *)
Theorem newNumber_float_or_overflow (pos : Z) (text : string) (f : float64) :
  ParseUint text = None ->
  ParseInt text = None ->
  ParseFloat text = Some f ->
  ends_in_i text = false ->
  newNumber pos text itemNumber =
    if strings.ContainsAny text ".eEpP" then
      let isInt := float64_eqb (float64_of_int64 (int64_of_float64 f)) f in
      let isUint := float64_eqb (float64_of_uint64 (uint64_of_float64 f)) f in
      Some (inl (mkNumber pos isInt isUint true false
                   (if isInt then int64_of_float64 f else 0)
                   (if isUint then uint64_of_float64 f else 0)
                   f (zero64, zero64) text))
    else Some (inr ("integer overflow: " ++ Quote text)).
Proof.
  intros Hu Hi Hf Himag.
  unfold newNumber. rewrite Himag, Hu, Hi, Hf. cbn.
  destruct (strings.ContainsAny text ".eEpP"); cbn; [|reflexivity].
  unfold extract_ints; cbn.
  destruct (float64_eqb (float64_of_int64 (int64_of_float64 f)) f);
    destruct (float64_eqb (float64_of_uint64 (uint64_of_float64 f)) f);
    reflexivity.
Qed.

(** A [range] with two declared variables: the declaration is written
    back comma-joined, followed by [:=] and the pipeline. *)
Theorem format_range_declaration :
  Format "{{range $k, $v := .M}}{{$k}}{{end}}"
  = Ok "{{ range $k, $v := .M }}{{ $k }}{{ end }}".
Proof. vm_compute. reflexivity. Qed.

(** [else if] is kept as one else node with a guard of its own: the
    branch of [{{if .X}}a{{else if .Y}}b{{else}}c{{end}}] has two else
    nodes, the first guarded, the second not, and one end. *)
Theorem parse_else_if_branches :
  exists b e1 e2 guard,
    Parse "{{if .X}}a{{else if .Y}}b{{else}}c{{end}}" = Ok (mkList 0 [NBranch b])
    /\ Keyword b = "if"
    /\ Elses b = [e1; e2]
    /\ else_Pipe e1 = Some guard
    /\ else_Pipe e2 = None
    /\ Format "{{if .X}}a{{else if .Y}}b{{else}}c{{end}}"
       = Ok "{{ if .X }}a{{ else if .Y }}b{{ else }}c{{ end }}".
Proof. do 4 eexists. vm_compute. repeat split; reflexivity. Qed.

(** A branch without its [{{end}}] does not parse: the end of the input
    is unexpected. *)
Theorem parse_unterminated_if :
  Parse "{{if .X}}a" = Failed "template: 1: unexpected EOF".
Proof. vm_compute. reflexivity. Qed.
(** Twenty parentheses that are left open: the parse ends with the error
    of the tokenizer. *)
Lemma format_open_parentheses :
  Format open_parentheses = Failed "template: 1: unclosed left paren".
Proof. vm_compute. reflexivity. Qed.
End Examples.

(** C8 on the literal [1.5]: no integer, the float 1.5, no integer value. *)
Lemma newNumber_float_or_overflow_witness :
  (ParseUint "1.5" = None /\ ParseInt "1.5" = None
   /\ ParseFloat "1.5" = Some (GoLib.decimal false 15 (-1))
   /\ ends_in_i "1.5" = false)
  /\ newNumber (SC := GoStrconv) 0 "1.5" itemNumber
     = Some (inl (mkNumber 0 false false true false 0 0
                    (GoLib.decimal false 15 (-1)) (zero64, zero64) "1.5")).
Proof.
  split.
  - repeat split; reflexivity.
  - exact (newNumber_float_or_overflow (SC := GoStrconv) 0 "1.5"
             (GoLib.decimal false 15 (-1)) eq_refl eq_refl eq_refl eq_refl).
Defined.

(** ** Documents without a left delimiter *)

Lemma HasPrefix_app (pre s : string) :
  strings.HasPrefix s pre = true -> exists rest, s = pre ++ rest.
Proof.
  revert s. induction pre as [|c pre IH]; intros s H.
  - exists s. reflexivity.
  - destruct s as [|d s]; [discriminate|].
    cbn in H. apply andb_true_iff in H. destruct H as [Hc Hs].
    apply Ascii.eqb_eq in Hc. subst d.
    destruct (IH s Hs) as [rest ->]. exists rest. reflexivity.
Qed.

Lemma index_from_absent (sub s : string) (i : Z) :
  (forall a b, s <> a ++ sub ++ b) -> strings.index_from i s sub = -1.
Proof.
  revert i. induction s as [|c s IH]; intros i H.
  - cbn [strings.index_from].
    destruct (strings.HasPrefix "" sub) eqn:E; [|reflexivity].
    destruct (HasPrefix_app _ _ E) as [rest Hrest].
    exfalso. apply (H "" rest). exact Hrest.
  - cbn [strings.index_from].
    destruct (strings.HasPrefix (String c s) sub) eqn:E.
    + destruct (HasPrefix_app _ _ E) as [rest Hrest].
      exfalso. apply (H "" rest). exact Hrest.
    + apply IH. intros a b Hab. apply (H (String c a) b).
      rewrite Hab. reflexivity.
Qed.

Lemma HasPrefix_refl (pre rest : string) :
  strings.HasPrefix (pre ++ rest) pre = true.
Proof.
  induction pre as [|c pre IH]; cbn.
  - destruct rest; reflexivity.
  - rewrite Ascii.eqb_refl. exact IH.
Qed.

Lemma index_from_present (sub a b : string) (i : Z) :
  0 <= i -> 0 <= strings.index_from i (a ++ sub ++ b) sub.
Proof.
  revert i. induction a as [|c a IH]; intros i Hi.
  - cbn [append]. destruct (sub ++ b) eqn:E; cbn [strings.index_from];
      rewrite <- E, HasPrefix_refl; exact Hi.
  - cbn [append strings.index_from].
    destruct (strings.HasPrefix (String c (a ++ sub ++ b)) sub); [exact Hi|].
    apply IH. lia.
Qed.

(** [contains] decides the absence of a substring. *)
Lemma absent_of_contains (s sub : string) :
  contains s sub = false -> forall a b, s <> a ++ sub ++ b.
Proof.
  unfold contains, strings.Index. intros H a b ->.
  apply Z.leb_gt in H.
  pose proof (index_from_present sub a b 0 (Z.le_refl 0)). lia.
Qed.

(** Without a left delimiter the whole document is one text token. *)
Lemma lex_text_only (input : string) :
  (forall a b, input <> a ++ "{{" ++ b) ->
  lex input =
    ((if String.eqb input "" then [] else [mk itemText 0 input 1])
     ++ [mk itemEOF (0 + strings.len input) "EOF" (1 + lines_in input)])%list.
Proof.
  intros H. unfold lex. cbn [lexText].
  unfold strings.Index. rewrite (index_from_absent _ _ 0 H). reflexivity.
Qed.

Section Text.
Context {SC : Strconv}.

(** C10.  A document that holds no left delimiter (the empty document is
    one) is formatted to itself: it is a single text node, and the printer
    writes a text node byte for byte. *)
Theorem format_text_unchanged (input : string) :
  (forall a b, input <> a ++ "{{" ++ b) ->
  Format input = Ok input.
Proof.
  intros H. unfold Format, Format_fuel, Parse_fuel, enough.
  rewrite (lex_text_only input H).
  destruct (String.eqb input "") eqn:E.
  - apply String.eqb_eq in E. subst input. vm_compute. reflexivity.
  - reflexivity.
Qed.
End Text.

(** C10 on the document [a }} b], which has no left delimiter. *)
Lemma format_text_unchanged_witness :
  (forall a b, "a }} b" <> a ++ "{{" ++ b)
  /\ Format (SC := GoStrconv) "a }} b" = Ok "a }} b".
Proof.
  split.
  - apply absent_of_contains. reflexivity.
  - apply (format_text_unchanged (SC := GoStrconv) "a }} b").
    apply absent_of_contains. reflexivity.
Defined.

(** ** The check of a complete pipeline *)

Section Pipelines.
Context {SC : Strconv}.

Lemma check_stages_pass (cmds : list CommandNode) (i : Z) (t : Tree) :
  (forall c, In c cmds -> executable c) ->
  check_stages i cmds t = Ok (tt, t).
Proof.
  revert i. induction cmds as [|c cmds IH]; intros i H; [reflexivity|].
  destruct (H c (or_introl eq_refl)) as (arg & args & Hargs & Hlit).
  cbn [check_stages]. unfold bind. rewrite Hargs.
  cbn [List.hd_error must ret]. rewrite Hlit.
  apply IH. intros c' Hc'. apply H. right. exact Hc'.
Qed.

Lemma check_stages_fail (before after : list CommandNode) (bad : CommandNode)
      (i : Z) (t : Tree) :
  (forall c, In c before -> executable c) ->
  starts_with_literal bad = true ->
  check_stages i (before ++ bad :: after)%list t =
    Failed (error_text t ("non executable command in pipeline stage "
                          ++ itoa (i + Z.of_nat (List.length before) + 2))).
Proof.
  revert i. induction before as [|c before IH]; intros i H Hbad.
  - replace (i + Z.of_nat (List.length (@nil CommandNode)) + 2) with (i + 2)
      by (cbn [List.length]; lia).
    cbn [app check_stages]. unfold bind.
    unfold starts_with_literal in Hbad.
    destruct (Args bad) as [|arg args]; [discriminate|].
    cbn [List.hd_error must ret]. rewrite Hbad. reflexivity.
  - replace (i + Z.of_nat (List.length (c :: before)) + 2)
      with (i + 1 + Z.of_nat (List.length before) + 2)
      by (cbn [List.length]; lia).
    destruct (H c (or_introl eq_refl)) as (arg & args & Hargs & Hlit).
    cbn [app check_stages]. unfold bind. rewrite Hargs.
    cbn [List.hd_error must ret]. rewrite Hlit.
    apply IH; [|exact Hbad].
    intros c' Hc'. apply H. right. exact Hc'.
Qed.

(** C6.  In a pipeline [first | rest...] only [first] may start with a
    non-executable literal.  When every later command is executable the
    check passes, whatever [first] starts with; when [bad] is the first
    later command that starts with such a literal, the check fails with an
    error that names its stage, counted from 1 (so 2 at the least). *)
Theorem checkPipeline_stages (pipe : PipeNode) (context : string) (t : Tree)
        (first : CommandNode) (rest : list CommandNode) :
  Cmds pipe = first :: rest ->
  ((forall c, In c rest -> executable c) ->
   checkPipeline pipe context t = Ok (tt, t))
  /\ (forall before bad after,
        rest = (before ++ bad :: after)%list ->
        (forall c, In c before -> executable c) ->
        starts_with_literal bad = true ->
        checkPipeline pipe context t =
          Failed (error_text t ("non executable command in pipeline stage "
                                ++ itoa (Z.of_nat (List.length before) + 2)))).
Proof.
  intros Hcmds. unfold checkPipeline. rewrite Hcmds. cbn [List.length Nat.eqb List.tl].
  split.
  - intros H. unfold bind at 1. cbn. apply check_stages_pass. exact H.
  - intros before bad after -> H Hbad. unfold bind at 1. cbn.
    rewrite (check_stages_fail before after bad 0 t H Hbad). reflexivity.
Qed.

(** C4, as the code has it.  A pipeline that comes to its closing token
    without a command is rejected with "missing value for" its context.
    The document [{{|}}] does not get that far: the pipe token is no
    operand, and the error is the one for an unexpected token. *)
Theorem pipeline_without_commands :
  Parse "{{|}}" = Failed ("template: 1: unexpected " ++ Quote "|" ++ " in command")
  /\ forall (fuel : nat) (context : string) (end_ : itemType) (pipe : PipeNode)
            (t t' : Tree) (tok : item),
       Cmds pipe = [] ->
       nextNonSpace t = Ok (tok, t') ->
       typ tok = end_ ->
       pipeline_loop (S fuel) context end_ pipe t =
         Failed (error_text t' ("missing value for " ++ context)).
Proof.
  split; [vm_compute; reflexivity|].
  intros fuel context end_ pipe t t' tok Hcmds Hnext Hend.
  change (pipeline_loop (S fuel) context end_ pipe)
    with (pipeline_loop_body (command fuel) (pipeline_loop fuel context end_)
            context end_ pipe).
  unfold pipeline_loop_body, bind at 1. rewrite Hnext.
  subst end_. unfold itemType_eqb at 1.
  destruct (itemType_eq_dec (typ tok) (typ tok)) as [_|n]; [|contradiction].
  unfold checkPipeline, bind. rewrite Hcmds. reflexivity.
Qed.

(** Three documents the witnesses below run the parser on. *)
Lemma parse_literal_stage :
  Parse "{{. | a | true}}" =
    Failed "template: 1: non executable command in pipeline stage 3".
Proof. vm_compute. reflexivity. Qed.

Lemma parse_empty_action :
  Parse "{{}}" = Failed "template: 1: missing value for command".
Proof. vm_compute. reflexivity. Qed.

Lemma parse_lone_pipe :
  Parse "{{|}}" = Failed ("template: 1: unexpected " ++ Quote "|" ++ " in command").
Proof. vm_compute. reflexivity. Qed.
End Pipelines.

(** C6 on the stages [. | a | true]: the dot may lead, [true] is stage 3. *)
Lemma checkPipeline_stages_witness :
  checkPipeline three_stages "command" (startTree "{{. | a | true}}" []) =
    Failed "template: 0: non executable command in pipeline stage 3"
  /\ Parse (SC := GoStrconv) "{{. | a | true}}" =
       Failed "template: 1: non executable command in pipeline stage 3".
Proof.
  split; [|exact parse_literal_stage].
  refine (proj2 (checkPipeline_stages (SC := GoStrconv) three_stages "command"
                   (startTree "{{. | a | true}}" []) (stage (NDot 0))
                   [stage (NIdentifier 4 "a"); stage (NBool 8 true)] eq_refl)
            [stage (NIdentifier 4 "a")] (stage (NBool 8 true)) [] eq_refl _ eq_refl).
  intros c [<-|[]]. exists (NIdentifier 4 "a"), []. split; reflexivity.
Defined.

(** C4 on [{{}}]: after the left delimiter the closing one comes next. *)
Lemma pipeline_without_commands_witness :
  Parse (SC := GoStrconv) "{{}}" = Failed "template: 1: missing value for command"
  /\ pipeline_loop (SC := GoStrconv) 1 "command" itemRightDelim
       (newPipeline 2 1 []) at_right_delim =
     Failed "template: 1: missing value for command".
Proof.
  split; [exact parse_empty_action|].
  exact (proj2 (pipeline_without_commands (SC := GoStrconv))
           0%nat "command" itemRightDelim (newPipeline 2 1 []) at_right_delim
           (set_peekCount 0 at_right_delim) (mk itemRightDelim 2 "}}" 1)
           eq_refl eq_refl eq_refl).
Defined.

(** C4: on [{{|}}] the error is no "missing value" error. *)
Lemma pipe_token_is_unexpected :
  exists msg,
    Parse (SC := GoStrconv) "{{|}}" = Failed msg
    /\ contains msg "missing value" = false
    /\ contains msg "unexpected" = true.
Proof.
  eexists. split; [exact parse_lone_pipe|].
  split; vm_compute; reflexivity.
Qed.

(** ** What the parser keeps: reachable states, located errors, clean trees *)

Section Spec.
Context {SC : Strconv}.
Variable txt : string.
Variable items : list item.

#[local] Abbreviation known := (known_item txt items).
#[local] Abbreviation inv := (reachable txt items).
#[local] Abbreviation located := (located_error txt items).
#[local] Abbreviation spec := (meets txt items).

Lemma spec_ret {A : Type} (a : A) (Q : A -> Prop) : Q a -> spec (ret a) Q.
Proof. intros H t Ht. cbn. auto. Qed.

Lemma spec_bind {A B : Type} (m : M A) (k : A -> M B) (Q1 : A -> Prop) (Q : B -> Prop) :
  spec m Q1 -> (forall a, Q1 a -> spec (k a) Q) -> spec (bind m k) Q.
Proof.
  intros Hm Hk t Ht. unfold bind. specialize (Hm t Ht).
  destruct (m t) as [[a t']|e| |]; auto.
  destruct Hm as [Ht' Ha]. exact (Hk a Ha t' Ht').
Qed.

Lemma spec_weaken {A : Type} (m : M A) (Q Q' : A -> Prop) :
  spec m Q -> (forall a, Q a -> Q' a) -> spec m Q'.
Proof.
  intros Hm HQ t Ht. specialize (Hm t Ht).
  destruct (m t) as [[a t']|e| |]; auto.
  destruct Hm; auto.
Qed.

Lemma spec_errorf {A : Type} (msg : string) (Q : A -> Prop) : spec (errorf msg) Q.
Proof.
  intros t (_ & Hk & _). cbn. exists (token0 t), msg. auto.
Qed.

Lemma spec_crash {A : Type} (Q : A -> Prop) : spec crash Q.
Proof. intros t _. exact I. Qed.

Lemma spec_out_of_fuel {A : Type} (Q : A -> Prop) : spec out_of_fuel Q.
Proof. intros t _. exact I. Qed.

Lemma spec_must {A : Type} (x : option A) : spec (must x) (fun a => x = Some a).
Proof. destruct x; [apply spec_ret; reflexivity | apply spec_crash]. Qed.

Lemma spec_get : spec get inv.
Proof. intros t Ht. cbn. auto. Qed.

Lemma spec_put (t' : Tree) : inv t' -> spec (put t') (fun _ => True).
Proof. intros H t _. cbn. auto. Qed.

Lemma inv_set_peekCount (n : Z) (t : Tree) : inv t -> inv (set_peekCount n t).
Proof. intros H. exact H. Qed.

Lemma inv_set_actionLine (n : Z) (t : Tree) : inv t -> inv (set_actionLine n t).
Proof. intros H. exact H. Qed.

Lemma inv_read_token0 (t : Tree) : inv t -> inv (read_token0 t).
Proof.
  intros (Htxt & Hk & Hl). unfold read_token0, nextItem, eofItem, inv.
  destruct (lex_ t) as [|i rest]; cbn [text token0 lex_].
  - split; [exact Htxt|]. split; [right; rewrite Htxt; reflexivity|].
    intros i [].
  - split; [exact Htxt|]. split.
    + left. apply Hl. left. reflexivity.
    + intros j Hj. apply Hl. right. exact Hj.
Qed.

Lemma spec_next : spec next (fun _ => True).
Proof.
  intros t Ht. unfold next.
  set (t1 := if 0 <? peekCount t then _ else _).
  assert (H1 : inv t1).
  { subst t1. destruct (0 <? peekCount t);
      [apply inv_set_peekCount | apply inv_read_token0]; exact Ht. }
  destruct (token t1 (peekCount t1)); cbn; auto.
Qed.

Lemma spec_peek : spec peek (fun _ => True).
Proof.
  intros t Ht. unfold peek. destruct (0 <? peekCount t).
  - destruct (token t (peekCount t - 1)); cbn; auto.
  - cbn. split; [|exact I]. apply inv_read_token0, inv_set_peekCount, Ht.
Qed.

Lemma spec_backup : spec backup (fun _ => True).
Proof. intros t Ht. cbn. split; [exact Ht | exact I]. Qed.

Lemma spec_backup2 (t1 : item) : spec (backup2 t1) (fun _ => True).
Proof. intros t Ht. cbn. split; [exact Ht | exact I]. Qed.

Lemma spec_backup3 (t2 t1 : item) : spec (backup3 t2 t1) (fun _ => True).
Proof. intros t Ht. cbn. split; [exact Ht | exact I]. Qed.

Lemma spec_nextNonSpace_loop (n : nat) : spec (nextNonSpace_loop n) (fun _ => True).
Proof.
  induction n as [|n IH]; cbn [nextNonSpace_loop];
    (eapply spec_bind; [apply spec_next|]); intros tok _;
    destruct (is_space tok); auto using spec_out_of_fuel, spec_ret.
Qed.

Lemma spec_nextNonSpace : spec nextNonSpace (fun _ => True).
Proof. intros t Ht. exact (spec_nextNonSpace_loop (pending t) t Ht). Qed.

Lemma spec_peekNonSpace : spec peekNonSpace (fun _ => True).
Proof.
  unfold peekNonSpace.
  eapply spec_bind; [apply spec_nextNonSpace|]. intros tok _.
  eapply spec_bind; [apply spec_backup|]. intros _ _.
  apply spec_ret. exact I.
Qed.

Lemma spec_node_String (n : Node) : spec (node_String n) (fun _ => True).
Proof.
  unfold node_String. eapply spec_bind; [apply spec_get|]. intros t _.
  eapply spec_weaken; [apply spec_must|]. auto.
Qed.

Lemma spec_unexpected {A : Type} (tok : item) (context : string) (Q : A -> Prop) :
  spec (unexpected tok context) Q.
Proof.
  unfold unexpected. destruct (itemType_eqb (typ tok) itemError).
  - eapply spec_bind; [apply spec_get|]. intros t _. apply spec_errorf.
  - apply spec_errorf.
Qed.

Lemma spec_expect (expected : itemType) (context : string) :
  spec (expect expected context) (fun _ => True).
Proof.
  unfold expect. eapply spec_bind; [apply spec_nextNonSpace|]. intros tok _.
  destruct (negb _); [apply spec_unexpected | apply spec_ret; exact I].
Qed.


(** *** The tree under the nodes the parser builds *)


Lemma clean_command_append (c : CommandNode) (arg : Node) :
  clean_command clean c = true -> clean arg = true ->
  clean_command clean (CommandNode_append c arg) = true.
Proof.
  intros Hc Ha. unfold clean_command in *.
  unfold CommandNode_append. cbn [Args].
  rewrite forallb_app. apply andb_true_intro. split; [exact Hc|].
  cbn [forallb]. rewrite Ha. reflexivity.
Qed.

Lemma clean_pipe_append (p : PipeNode) (c : CommandNode) :
  clean_pipe clean p = true -> clean_command clean c = true ->
  clean_pipe clean (PipeNode_append p c) = true.
Proof.
  intros Hp Hc. unfold clean_pipe in *.
  unfold PipeNode_append. cbn [Cmds].
  rewrite forallb_app. apply andb_true_intro. split; [exact Hp|].
  cbn [forallb]. rewrite Hc. reflexivity.
Qed.


(** One step of a proof of [spec]: the first action of a sequence by a
    lemma of the parser's primitives, or by an assumption on a callee. *)
Ltac prim :=
  lazymatch goal with
  | |- spec next _ => apply spec_next
  | |- spec peek _ => apply spec_peek
  | |- spec backup _ => apply spec_backup
  | |- spec (backup2 _) _ => apply spec_backup2
  | |- spec (backup3 _ _) _ => apply spec_backup3
  | |- spec nextNonSpace _ => apply spec_nextNonSpace
  | |- spec peekNonSpace _ => apply spec_peekNonSpace
  | |- spec (node_String _) _ => apply spec_node_String
  | |- spec (expect _ _) _ => apply spec_expect
  | |- spec get _ => apply spec_get
  | |- spec (must _) _ => apply spec_must
  end.
Ltac step := eapply spec_bind; [prim | intros ? ?].
Tactic Notation "step" "as" simple_intropattern(x) simple_intropattern(H) :=
  eapply spec_bind; [prim | intros x H].
Ltac fails := first [apply spec_errorf | apply spec_unexpected
                     | apply spec_crash | apply spec_out_of_fuel].

Lemma spec_check_stages (cmds : list CommandNode) (i : Z) :
  spec (check_stages i cmds) (fun _ => True).
Proof.
  revert i. induction cmds as [|c cmds IH]; intros i; cbn [check_stages].
  - apply spec_ret. exact I.
  - step. destruct (is_literal _); [fails | apply IH].
Qed.

Lemma spec_checkPipeline (pipe : PipeNode) (context : string) :
  spec (checkPipeline pipe context) (fun _ => True).
Proof.
  unfold checkPipeline.
  apply (spec_bind _ _ (fun _ => True)); [|intros ? ?; apply spec_check_stages].
  destruct (_ =? _)%nat; [fails | apply spec_ret; exact I].
Qed.

Lemma spec_chain_fields (n : nat) (chain : ChainNode) :
  spec (chain_fields n chain) (fun c => chain_Node c = chain_Node chain).
Proof.
  revert chain. induction n as [|n IH]; intros chain; cbn [chain_fields].
  - step. destruct (itemType_eqb _ _); [|apply spec_ret; reflexivity].
    step. step. fails.
  - step. destruct (itemType_eqb _ _); [|apply spec_ret; reflexivity].
    step as tok _. step as chain' Hadd.
    eapply spec_weaken; [apply IH|]. intros c Hc. rewrite Hc.
    unfold ChainNode_Add in Hadd.
    destruct (val tok) as [|d rest]; [discriminate|].
    destruct (negb _); [discriminate|]. destruct (String.eqb rest ""); [discriminate|].
    injection Hadd as <-. reflexivity.
Qed.

Lemma spec_pipeline_decls (fuel : nat) (context : string) (pipe : PipeNode) :
  clean_pipe clean pipe = true ->
  spec (pipeline_decls fuel context pipe) (fun p => clean_pipe clean p = true).
Proof.
  revert pipe. induction fuel as [|fuel IH]; intros pipe Hp; cbn [pipeline_decls];
    [fails|].
  unfold pipeline_decls_body.
  step as v _.
  destruct (itemType_eqb (typ v) itemVariable); [|apply spec_ret; exact Hp].
  step. step as tokenAfterVariable _. step as nxt _.
  destruct (_ || _).
  { step. apply spec_ret. exact Hp. }
  destruct (_ && _).
  { step. destruct (_ && _); [|fails].
    step as tok _. destruct (typ tok); try fails; apply IH; exact Hp. }
  destruct (is_space tokenAfterVariable); step; apply spec_ret; exact Hp.
Qed.

(** *** The bodies, given their callees *)

Section Expressions.
Variable pipeline_ : string -> itemType -> M (PipeNode * item).
Hypothesis pipeline_ok :
  forall context end_,
    spec (pipeline_ context end_) (fun r => clean_pipe clean (fst r) = true).

Lemma spec_term_body : spec (term_body pipeline_) clean_opt.
Proof.
  unfold term_body. step as tok _.
  destruct (typ tok); try (step; apply spec_ret; exact I);
    try (apply spec_ret; reflexivity).
  - (* a character constant *)
    step as r _. destruct r; [apply spec_ret; reflexivity | fails].
  - (* a complex number *)
    step as r _. destruct r; [apply spec_ret; reflexivity | fails].
  - (* a field *)
    step as n Hn. apply spec_ret. unfold newField in Hn.
    destruct (val tok); [discriminate|]. injection Hn as <-. reflexivity.
  - (* a parenthesized pipeline *)
    eapply spec_bind; [apply pipeline_ok|]. intros [p endtok] Hp.
    apply spec_ret. exact Hp.
  - (* a number *)
    step as r _. destruct r; [apply spec_ret; reflexivity | fails].
  - destruct (Unquote _); [apply spec_ret; reflexivity | fails].
  - destruct (Unquote _); [apply spec_ret; reflexivity | fails].
Qed.
End Expressions.

Section Operands.
Variable term_ : M (option Node).
Hypothesis term_ok : spec term_ clean_opt.

Lemma spec_operand_body : spec (operand_body term_) clean_opt.
Proof.
  unfold operand_body. eapply spec_bind; [apply term_ok|].
  intros [node|] Hnode; [|apply spec_ret; exact I].
  step. destruct (itemType_eqb _ _); [|apply spec_ret; exact Hnode].
  step. eapply spec_bind; [apply spec_chain_fields|]. intros chain Hchain.
  cbn [chain_Node newChain] in Hchain.
  destruct (Type_ node);
    try (apply spec_ret; cbn [clean_opt clean]; rewrite Hchain; exact Hnode);
    try (step; fails).
  - (* fields go on the field *)
    step as s _. step as n Hn. apply spec_ret. unfold newField in Hn.
    destruct s; [discriminate|]. injection Hn as <-. reflexivity.
  - (* fields go on the variable *)
    step. apply spec_ret. reflexivity.
Qed.
End Operands.

Section Commands.
Variable operand_ : M (option Node).
Hypothesis operand_ok : spec operand_ clean_opt.
Variable again : CommandNode -> M CommandNode.
Hypothesis again_ok :
  forall cmd, clean_command clean cmd = true ->
              spec (again cmd) (fun c => clean_command clean c = true).

Lemma spec_command_loop_body (cmd : CommandNode) :
  clean_command clean cmd = true ->
  spec (command_loop_body operand_ again cmd)
       (fun c => clean_command clean c = true).
Proof.
  intros Hcmd. unfold command_loop_body. step.
  eapply spec_bind; [apply operand_ok|]. intros arg Harg.
  assert (Hcmd' : clean_command clean
                    match arg with
                    | Some arg => CommandNode_append cmd arg
                    | None => cmd
                    end = true).
  { destruct arg as [arg|]; [|exact Hcmd].
    apply clean_command_append; [exact Hcmd | exact Harg]. }
  step as tok _. destruct (typ tok); try fails.
  - apply spec_ret. exact Hcmd'.
  - step. apply spec_ret. exact Hcmd'.
  - step. apply spec_ret. exact Hcmd'.
  - apply again_ok. exact Hcmd'.
Qed.

Lemma spec_command_body :
  spec (command_body again) (fun c => clean_command clean c = true).
Proof.
  unfold command_body. step.
  eapply spec_bind; [apply again_ok; reflexivity|]. intros cmd Hcmd.
  apply (spec_bind _ _ (fun _ => True)).
  - destruct (_ =? _)%nat; [fails | apply spec_ret; exact I].
  - intros _ _. apply spec_ret. exact Hcmd.
Qed.
End Commands.

Section PipelineLoop.
Variable command_ : M CommandNode.
Hypothesis command_ok : spec command_ (fun c => clean_command clean c = true).
Variable context : string.
Variable end_ : itemType.
Variable again : PipeNode -> M (PipeNode * item).
Hypothesis again_ok :
  forall pipe, clean_pipe clean pipe = true ->
               spec (again pipe) (fun r => clean_pipe clean (fst r) = true).

Lemma spec_pipeline_loop_body (pipe : PipeNode) :
  clean_pipe clean pipe = true ->
  spec (pipeline_loop_body command_ again context end_ pipe)
       (fun r => clean_pipe clean (fst r) = true).
Proof.
  intros Hpipe. unfold pipeline_loop_body. step.
  destruct (itemType_eqb _ _).
  { eapply spec_bind; [apply spec_checkPipeline|]. intros _ _.
    apply spec_ret. exact Hpipe. }
  destruct (starts_operand _); [|fails].
  step. eapply spec_bind; [apply command_ok|]. intros cmd Hcmd.
  apply again_ok. apply clean_pipe_append; assumption.
Qed.
End PipelineLoop.

Lemma spec_pipeline_body
      (decls : string -> PipeNode -> M PipeNode)
      (loop : string -> itemType -> PipeNode -> M (PipeNode * item))
      (context : string) (end_ : itemType) :
  (forall pipe, clean_pipe clean pipe = true ->
                spec (decls context pipe) (fun p => clean_pipe clean p = true)) ->
  (forall pipe, clean_pipe clean pipe = true ->
                spec (loop context end_ pipe)
                     (fun r => clean_pipe clean (fst r) = true)) ->
  spec (pipeline_body decls loop context end_)
       (fun r => clean_pipe clean (fst r) = true).
Proof.
  intros Hdecls Hloop. unfold pipeline_body. step.
  eapply spec_bind; [apply Hdecls; reflexivity|]. intros pipe Hpipe.
  apply Hloop. exact Hpipe.
Qed.

(** *** The expression grammar, by induction on the fuel *)

Lemma spec_expressions (fuel : nat) :
  spec (term fuel) clean_opt
  /\ spec (operand fuel) clean_opt
  /\ (forall cmd, clean_command clean cmd = true ->
                  spec (command_loop fuel cmd) (fun c => clean_command clean c = true))
  /\ spec (command fuel) (fun c => clean_command clean c = true)
  /\ (forall context end_ pipe,
        clean_pipe clean pipe = true ->
        spec (pipeline_loop fuel context end_ pipe)
             (fun r => clean_pipe clean (fst r) = true))
  /\ (forall context end_,
        spec (pipeline fuel context end_)
             (fun r => clean_pipe clean (fst r) = true)).
Proof.
  induction fuel as [|fuel (Hterm & Hoperand & Hloop & Hcommand & Hploop & Hpipeline)].
  - repeat split; intros; apply spec_out_of_fuel.
  - split; [exact (spec_term_body _ Hpipeline)|].
    split; [exact (spec_operand_body _ Hterm)|].
    split; [intros cmd Hcmd;
            exact (spec_command_loop_body _ Hoperand _ Hloop cmd Hcmd)|].
    split; [exact (spec_command_body _ Hloop)|].
    split; [intros context end_ pipe Hpipe;
            exact (spec_pipeline_loop_body _ Hcommand context end_ _
                     (Hploop context end_) pipe Hpipe)|].
    intros context end_.
    apply (spec_pipeline_body (pipeline_decls fuel) (pipeline_loop fuel)).
    + intros pipe Hpipe. apply spec_pipeline_decls. exact Hpipe.
    + intros pipe Hpipe. apply Hploop. exact Hpipe.
Qed.


(** *** What a complete pipeline looks like *)

Lemma itemType_eqb_eq (a b : itemType) : itemType_eqb a b = true -> a = b.
Proof. unfold itemType_eqb. destruct (itemType_eq_dec a b); [auto | discriminate]. Qed.

Lemma spec_check_stages_pass (cmds : list CommandNode) (i : Z) :
  spec (check_stages i cmds)
       (fun _ => forall c, In c cmds -> starts_with_literal c = false).
Proof.
  revert i. induction cmds as [|c cmds IH]; intros i; cbn [check_stages].
  - apply spec_ret. intros c [].
  - step as arg0 Harg0. destruct (is_literal (Type_ arg0)) eqn:Hlit; [fails|].
    eapply spec_weaken; [apply IH|]. intros ? Hcmds c' [Heq|Hc']; [subst c'|auto].
    unfold starts_with_literal. destruct (Args c); [reflexivity|].
    cbn in Harg0. injection Harg0 as <-. exact Hlit.
Qed.

Lemma spec_checkPipeline_pass (pipe : PipeNode) (context : string) :
  spec (checkPipeline pipe context)
       (fun _ => Cmds pipe <> []
                 /\ forall c, In c (List.tl (Cmds pipe)) -> starts_with_literal c = false).
Proof.
  unfold checkPipeline.
  apply (spec_bind _ _ (fun _ => Cmds pipe <> [])).
  - destruct (Cmds pipe); [fails | apply spec_ret; discriminate].
  - intros ? Hne. eapply spec_weaken; [apply spec_check_stages_pass|].
    intros ? H. split; assumption.
Qed.

Lemma spec_command_args (fuel : nat) :
  spec (command fuel) (fun c => Args c <> []).
Proof.
  destruct fuel as [|fuel]; [fails|]. cbn [command]. unfold command_body.
  step as tok _.
  apply (spec_bind _ _ (fun _ => True)).
  { eapply spec_weaken; [apply spec_expressions; reflexivity | auto]. }
  intros cmd ?.
  apply (spec_bind _ _ (fun _ => Args cmd <> [])).
  - destruct (Args cmd); [fails | apply spec_ret; discriminate].
  - intros ? Hargs. apply spec_ret. exact Hargs.
Qed.

Lemma spec_pipeline_decls_cmds (fuel : nat) (context : string) (pipe : PipeNode) :
  spec (pipeline_decls fuel context pipe) (fun p => Cmds p = Cmds pipe).
Proof.
  revert pipe. induction fuel as [|fuel IH]; intros pipe; cbn [pipeline_decls];
    [fails|].
  unfold pipeline_decls_body.
  step as v _.
  destruct (itemType_eqb (typ v) itemVariable); [|apply spec_ret; reflexivity].
  step. step as tokenAfterVariable _. step as nxt _.
  destruct (_ || _).
  { step. apply spec_ret. reflexivity. }
  destruct (_ && _).
  { step. destruct (_ && _); [|fails].
    step as tok _.
    destruct (typ tok); try fails;
      (eapply spec_weaken; [apply IH|]; intros p Hp; rewrite Hp; reflexivity). }
  destruct (is_space tokenAfterVariable); step; apply spec_ret; reflexivity.
Qed.

Lemma spec_pipeline_loop_checked (fuel : nat) (context : string) (end_ : itemType)
      (pipe : PipeNode) :
  (forall c, In c (Cmds pipe) -> Args c <> []) ->
  spec (pipeline_loop fuel context end_ pipe)
       (fun r => checked (fst r) /\ typ (snd r) = end_).
Proof.
  revert pipe. induction fuel as [|fuel IH]; intros pipe Hargs; cbn [pipeline_loop];
    [fails|].
  unfold pipeline_loop_body. step as tok _.
  destruct (itemType_eqb (typ tok) end_) eqn:Hend.
  { eapply spec_bind; [apply spec_checkPipeline_pass|]. intros ? [Hne Hlit].
    apply spec_ret. split; [|apply itemType_eqb_eq; exact Hend].
    split; [exact Hne|]. split; assumption. }
  destruct (starts_operand _); [|fails].
  step. eapply spec_bind; [apply spec_command_args|]. intros cmd Hcmd.
  apply IH. unfold PipeNode_append. cbn [Cmds]. intros c Hc.
  apply in_app_or in Hc. destruct Hc as [Hc|[<-|[]]]; [auto | exact Hcmd].
Qed.

Lemma spec_pipeline_checked (fuel : nat) (context : string) (end_ : itemType) :
  spec (pipeline fuel context end_)
       (fun r => checked (fst r) /\ typ (snd r) = end_).
Proof.
  destruct fuel as [|fuel]; [fails|]. cbn [pipeline]. unfold pipeline_body.
  step as tok _.
  eapply spec_bind; [apply spec_pipeline_decls_cmds|]. intros pipe Hpipe.
  apply spec_pipeline_loop_checked. rewrite Hpipe. intros c [].
Qed.

(** *** Actions and control structures *)






Section Lists.
Variable textOrAction_ : M Node.
Hypothesis textOrAction_ok : spec textOrAction_ (fun n => clean n = true).
Variable again : ListNode -> M (ListNode * Node).
Hypothesis again_ok :
  forall l, clean_list clean l = true ->
            spec (again l)
                 (fun r => clean_list clean (fst r) = true /\ clean (snd r) = true).


End Lists.

Section Branches.
Variable itemList_ : M (ListNode * Node).
Hypothesis itemList_ok :
  spec itemList_
       (fun r => clean_list clean (fst r) = true /\ clean (snd r) = true).
Variable again : Node -> list ElseNode -> M (list ElseNode * EndNode).
Hypothesis again_ok :
  forall nxt elses,
    clean nxt = true -> forallb (clean_else clean) elses = true ->
    spec (again nxt elses) (fun r => forallb (clean_else clean) (fst r) = true).


End Branches.

(** *** The statements, by induction on the fuel *)



(** *** The shape of the trees *)

Lemma spec_pipeline_decls_formed (fuel : nat) (context : string) (pipe : PipeNode) :
  (List.length (Decl pipe) < declarations context)%nat ->
  spec (pipeline_decls fuel context pipe)
       (fun p => Cmds p = Cmds pipe
                 /\ (List.length (Decl p) <= declarations context)%nat).
Proof.
  revert pipe. induction fuel as [|fuel IH]; intros pipe Hd; cbn [pipeline_decls];
    [fails|].
  unfold pipeline_decls_body.
  assert (Hsame : Cmds pipe = Cmds pipe
                  /\ (List.length (Decl pipe) <= declarations context)%nat)
    by (split; [reflexivity | lia]).
  step as v _.
  destruct (itemType_eqb (typ v) itemVariable); [|apply spec_ret; exact Hsame].
  step. step as tokenAfterVariable _. step as nxt _.
  destruct (_ || _).
  { step. apply spec_ret. unfold declare. cbn [Cmds Decl].
    rewrite length_app. cbn [List.length]. split; [reflexivity | lia]. }
  destruct (_ && _).
  { step.
    destruct (String.eqb context "range"
              && (List.length (Decl (declare pipe None (newVariable (pos v) (val v))))
                  <? 2)%nat) eqn:Hrange; [|fails].
    apply andb_true_iff in Hrange. destruct Hrange as [Hctx Hlen].
    apply Nat.ltb_lt in Hlen.
    step as tok _.
    destruct (typ tok); try fails;
      (eapply spec_weaken;
       [apply IH; unfold declarations; rewrite Hctx; exact Hlen|];
       intros p [Hp Hl]; split; [rewrite Hp; reflexivity | exact Hl]). }
  destruct (is_space tokenAfterVariable); step; apply spec_ret; exact Hsame.
Qed.

Lemma formed_args_append (cmd : CommandNode) (arg : Node) :
  forallb wellformed (Args cmd) = true -> wellformed arg = true ->
  forallb wellformed (Args (CommandNode_append cmd arg)) = true.
Proof.
  intros Hc Ha. unfold CommandNode_append. cbn [Args].
  rewrite forallb_app, Hc. cbn [forallb]. rewrite Ha. reflexivity.
Qed.

Lemma formed_list_append (l : ListNode) (n : Node) :
  formed_list wellformed l = true -> wellformed n = true ->
  formed_list wellformed (ListNode_append l n) = true.
Proof.
  intros Hl Hn. unfold formed_list, ListNode_append in *. cbn [Nodes].
  rewrite forallb_app, Hl. cbn [forallb]. rewrite Hn. reflexivity.
Qed.

Lemma formed_term (fuel : nat) :
  formed_expressions txt items fuel -> spec (term (S fuel)) wellformed_opt.
Proof.
  intros (_ & _ & _ & _ & _ & Hpipeline).
  cbn [term]. unfold term_body. step as tok _.
  destruct (typ tok); try (step; apply spec_ret; exact I);
    try (apply spec_ret; reflexivity);
    try (step as r _; destruct r; [apply spec_ret; reflexivity | fails]);
    try (destruct (Unquote _); [apply spec_ret; reflexivity | fails]).
  - (* a field *)
    step as n Hn. apply spec_ret. unfold newField in Hn.
    destruct (val tok); [discriminate|]. injection Hn as <-. reflexivity.
  - (* a parenthesized pipeline *)
    eapply spec_bind; [apply Hpipeline|]. intros [p endtok] Hp.
    apply spec_ret. exact Hp.
Qed.

Lemma formed_operand (fuel : nat) :
  formed_expressions txt items fuel -> spec (operand (S fuel)) wellformed_opt.
Proof.
  intros (Hterm & _).
  cbn [operand]. unfold operand_body. eapply spec_bind; [apply Hterm|].
  intros [node|] Hnode; [|apply spec_ret; exact I].
  step. destruct (itemType_eqb _ _); [|apply spec_ret; exact Hnode].
  step. eapply spec_bind; [apply spec_chain_fields|]. intros chain Hchain.
  cbn [chain_Node newChain] in Hchain.
  destruct (Type_ node) eqn:Ety;
    try (apply spec_ret; cbn [wellformed_opt wellformed]; rewrite Hchain;
         unfold chain_base; rewrite Ety; exact Hnode);
    try (step; fails).
  - (* fields go on the field *)
    step as s _. step as n Hn. apply spec_ret. unfold newField in Hn.
    destruct s; [discriminate|]. injection Hn as <-. reflexivity.
  - (* fields go on the variable *)
    step. apply spec_ret. reflexivity.
Qed.

Lemma formed_command_loop (fuel : nat) (cmd : CommandNode) :
  formed_expressions txt items fuel ->
  forallb wellformed (Args cmd) = true ->
  spec (command_loop (S fuel) cmd) (fun c => forallb wellformed (Args c) = true).
Proof.
  intros (_ & Hoperand & Hloop & _) Hcmd.
  cbn [command_loop]. unfold command_loop_body. step.
  eapply spec_bind; [apply Hoperand|]. intros arg Harg.
  assert (Hcmd' : forallb wellformed
                    (Args match arg with
                          | Some arg => CommandNode_append cmd arg
                          | None => cmd
                          end) = true).
  { destruct arg as [arg|]; [|exact Hcmd].
    apply formed_args_append; [exact Hcmd | exact Harg]. }
  step as tok _. destruct (typ tok); try fails.
  - apply spec_ret. exact Hcmd'.
  - step. apply spec_ret. exact Hcmd'.
  - step. apply spec_ret. exact Hcmd'.
  - apply Hloop. exact Hcmd'.
Qed.

Lemma formed_command_ (fuel : nat) :
  formed_expressions txt items fuel ->
  spec (command (S fuel)) (fun c => formed_command wellformed c = true).
Proof.
  intros (_ & _ & Hloop & _).
  cbn [command]. unfold command_body. step.
  eapply spec_bind; [apply Hloop; reflexivity|]. intros cmd Hcmd.
  destruct (List.length (Args cmd) =? 0)%nat eqn:Hlen.
  - apply (spec_bind _ _ (fun _ => False)); [fails | intros ? []].
  - apply (spec_bind _ _ (fun _ => True)); [apply spec_ret; exact I|].
    intros ? ?. apply spec_ret. unfold formed_command. rewrite Hlen, Hcmd. reflexivity.
Qed.

Lemma formed_pipeline_loop (fuel : nat) (context : string) (end_ : itemType)
      (pipe : PipeNode) :
  formed_expressions txt items fuel ->
  forallb (formed_command wellformed) (Cmds pipe) = true ->
  (List.length (Decl pipe) <= declarations context)%nat ->
  spec (pipeline_loop (S fuel) context end_ pipe)
       (fun r => formed_pipe wellformed (declarations context) (fst r) = true).
Proof.
  intros (_ & _ & _ & Hcommand & Hloop & _) Hcmds Hdecl.
  cbn [pipeline_loop]. unfold pipeline_loop_body. step.
  destruct (itemType_eqb _ _).
  { eapply spec_bind; [apply spec_checkPipeline_pass|]. intros ? [Hne Hlit].
    apply spec_ret. cbn [fst]. unfold formed_pipe.
    rewrite Hcmds.
    assert (H1 : negb (List.length (Cmds pipe) =? 0)%nat = true)
      by (destruct (Cmds pipe); [contradiction | reflexivity]).
    assert (H2 : forallb (fun c => negb (starts_with_literal c))
                   (List.tl (Cmds pipe)) = true).
    { apply forallb_forall. intros c Hc. rewrite (Hlit c Hc). reflexivity. }
    rewrite H1, H2. cbn [andb]. apply Nat.leb_le. exact Hdecl. }
  destruct (starts_operand _); [|fails].
  step. eapply spec_bind; [apply Hcommand|]. intros cmd Hcmd.
  apply Hloop; [|exact Hdecl].
  unfold PipeNode_append. cbn [Cmds].
  rewrite forallb_app. apply andb_true_intro. split; [exact Hcmds|].
  cbn [forallb]. apply andb_true_intro. split; [exact Hcmd | reflexivity].
Qed.

Lemma formed_pipeline (fuel : nat) (context : string) (end_ : itemType) :
  formed_expressions txt items fuel ->
  spec (pipeline (S fuel) context end_)
       (fun r => formed_pipe wellformed (declarations context) (fst r) = true).
Proof.
  intros (_ & _ & _ & _ & Hloop & _).
  cbn [pipeline]. unfold pipeline_body. step as tok _.
  eapply spec_bind.
  { apply spec_pipeline_decls_formed. cbn [newPipeline Decl List.length].
    unfold declarations. destruct (String.eqb context "range"); lia. }
  intros pipe [Hcmds Hdecl]. apply Hloop; [|exact Hdecl].
  rewrite Hcmds. reflexivity.
Qed.

Lemma formed_expressions_all (fuel : nat) : formed_expressions txt items fuel.
Proof.
  induction fuel as [|fuel IH].
  - repeat split; intros; apply spec_out_of_fuel.
  - split; [exact (formed_term fuel IH)|].
    split; [exact (formed_operand fuel IH)|].
    split; [intros cmd Hcmd; exact (formed_command_loop fuel cmd IH Hcmd)|].
    split; [exact (formed_command_ fuel IH)|].
    split; [intros context end_ pipe H1 H2;
            exact (formed_pipeline_loop fuel context end_ pipe IH H1 H2)|].
    intros context end_. exact (formed_pipeline fuel context end_ IH).
Qed.

Lemma formed_elseControl (fuel : nat) (tr : trim) :
  spec (elseControl fuel tr) (fun n => wellformed n = true).
Proof.
  unfold elseControl. step. destruct (itemType_eqb _ _).
  - step. eapply spec_bind; [apply (formed_expressions_all fuel)|].
    intros [pipe tok] Hpipe. apply spec_ret. exact Hpipe.
  - step. apply spec_ret. reflexivity.
Qed.

Lemma formed_textOrAction (fuel : nat) :
  formed_statements txt items fuel ->
  spec (textOrAction (S fuel)) (fun n => wellformed n = true).
Proof.
  intros (_ & Haction & _).
  cbn [textOrAction]. unfold textOrAction_body. step as tok _.
  destruct (typ tok); try fails; try (apply spec_ret; reflexivity).
  step as t Ht.
  eapply spec_bind; [apply spec_put, inv_set_actionLine; exact Ht|].
  intros ? ?. eapply spec_bind; [apply Haction|]. intros n Hn.
  step as t' Ht'.
  eapply spec_bind; [apply spec_put, inv_set_actionLine; exact Ht'|].
  intros ? ?. apply spec_ret. exact Hn.
Qed.

Lemma formed_action (fuel : nat) (tr : trim) :
  formed_statements txt items fuel ->
  spec (action (S fuel) tr) (fun n => wellformed n = true).
Proof.
  intros (_ & _ & _ & _ & _ & Hbranch).
  cbn [action]. unfold action_body. step as tok _.
  destruct (typ tok);
    try apply formed_elseControl;
    try (unfold endControl; step; apply spec_ret; reflexivity);
    try apply Hbranch;
    (step; step;
     eapply spec_bind; [apply (formed_expressions_all fuel)|];
     intros [pipe endtok] Hpipe; apply spec_ret; exact Hpipe).
Qed.

Lemma formed_itemList_loop (fuel : nat) (l : ListNode) :
  formed_statements txt items fuel ->
  formed_list wellformed l = true ->
  spec (itemList_loop (S fuel) l)
       (fun r => formed_list wellformed (fst r) = true /\ wellformed (snd r) = true).
Proof.
  intros (Htext & _ & Hloop & _) Hl.
  cbn [itemList_loop]. unfold itemList_loop_body. step.
  destruct (negb _); [|fails].
  eapply spec_bind; [apply Htext|]. intros n Hn.
  destruct (Type_ n);
    try (apply spec_ret; split; assumption);
    (apply Hloop; apply formed_list_append; assumption).
Qed.

Lemma formed_itemList (fuel : nat) :
  formed_statements txt items fuel ->
  spec (itemList (S fuel))
       (fun r => formed_list wellformed (fst r) = true /\ wellformed (snd r) = true).
Proof.
  intros (_ & _ & Hloop & _).
  cbn [itemList]. unfold itemList_body. step. apply Hloop. reflexivity.
Qed.

Lemma formed_branch_elses (fuel : nat) (nxt : Node) (elses : list ElseNode) :
  formed_statements txt items fuel ->
  wellformed nxt = true -> forallb (formed_else wellformed) elses = true ->
  spec (branch_elses (S fuel) nxt elses)
       (fun r => forallb (formed_else wellformed) (fst r) = true).
Proof.
  intros (_ & _ & _ & Hlist & Helses & _) Hnxt He.
  cbn [branch_elses]. unfold branch_elses_body.
  destruct nxt as [| | | | | | | | | | | | | | |e|e|];
    try (apply Helses; assumption).
  - apply spec_ret. exact He.
  - eapply spec_bind; [apply Hlist|]. intros [l nxt] [Hl Hn].
    apply Helses; [exact Hn|].
    rewrite forallb_app, He. cbn [forallb]. rewrite andb_true_r.
    cbn [wellformed] in Hnxt.
    unfold formed_else, ElseNode_set_List. cbn [else_Pipe else_List].
    cbn [fst] in Hl. rewrite Hnxt, Hl. reflexivity.
Qed.

Lemma formed_branchControl (fuel : nat) (keyword : string) (tr : trim) :
  formed_statements txt items fuel ->
  spec (branchControl (S fuel) keyword tr) (fun n => wellformed n = true).
Proof.
  intros (_ & _ & _ & Hlist & Helses & _).
  cbn [branchControl]. unfold branchControl_body.
  eapply spec_bind; [apply (formed_expressions_all fuel)|]. intros [pipe tok] Hpipe.
  eapply spec_bind; [apply Hlist|]. intros [l nxt] [Hl Hn].
  eapply spec_bind; [apply Helses; [exact Hn | reflexivity]|].
  intros [elses e] He. apply spec_ret.
  cbn [wellformed formed_branch Keyword branch_Pipe branch_List Elses].
  cbn [fst] in *.
  apply andb_true_intro. split; [|exact He].
  apply andb_true_intro. split; [exact Hpipe | exact Hl].
Qed.

Lemma formed_statements_all (fuel : nat) : formed_statements txt items fuel.
Proof.
  induction fuel as [|fuel IH].
  - repeat split; intros; apply spec_out_of_fuel.
  - split; [exact (formed_textOrAction fuel IH)|].
    split; [intros tr; exact (formed_action fuel tr IH)|].
    split; [intros l Hl; exact (formed_itemList_loop fuel l IH Hl)|].
    split; [exact (formed_itemList fuel IH)|].
    split; [intros nxt elses Hn He;
            exact (formed_branch_elses fuel nxt elses IH Hn He)|].
    intros keyword tr. exact (formed_branchControl fuel keyword tr IH).
Qed.

Lemma formed_parse_loop (fuel : nat) (root : ListNode) :
  formed_list wellformed root = true ->
  spec (parse_loop fuel root) (fun r => formed_list wellformed r = true).
Proof.
  revert root. induction fuel as [|fuel IH]; intros root Hroot; cbn [parse_loop];
    [fails|].
  unfold parse_loop_body. step.
  destruct (negb _); [|apply spec_ret; exact Hroot].
  step. apply (spec_bind _ _ (fun _ => True)).
  { destruct (itemType_eqb _ _); [|apply spec_ret; exact I].
    step. step. apply spec_backup2. }
  intros ? ?. eapply spec_bind; [apply (formed_statements_all fuel)|]. intros n Hn.
  destruct (Type_ n);
    try (step; fails);
    (apply IH; apply formed_list_append; assumption).
Qed.

End Spec.

Section Results.
Context {SC : Strconv}.









(** Whenever a parse succeeds, the tree is well formed: every command has
    an operand, every pipeline a command, only the first command of a
    pipeline starts with a literal, a pipeline declares at most one
    variable, or two after [range], every else node of a branch has its
    list, and no chain node holds a field, a variable or a literal. *)
Theorem parsed_tree_wellformed (fuel : nat) (txt : string) (items : list item)
        (root : ListNode) :
  Parse_items fuel txt items = Ok root -> wellformed (NList root) = true.
Proof.
  unfold Parse_items, parse, bind.
  destruct (peek (startTree txt items)) as [[tok t]|e| |] eqn:Hpeek;
    try discriminate.
  assert (Ht : reachable txt items t).
  { unfold peek, startTree in Hpeek. cbn in Hpeek.
    injection Hpeek as _ <-.
    unfold read_token0, nextItem, eofItem, set_peekCount, reachable, known_item.
    cbn [text lex_ token0 token1 token2 peekCount actionLine].
    destruct items as [|i rest]; cbn [text lex_ token0].
    - split; [reflexivity|]. split; [right; reflexivity|]. intros i [].
    - split; [reflexivity|]. split; [left; left; reflexivity|].
      intros j Hj. right. exact Hj. }
  pose proof (formed_parse_loop txt items fuel (newList (pos tok)) eq_refl t Ht) as H.
  destruct (parse_loop fuel (newList (pos tok)) t) as [[root' t']|e| |];
    try discriminate.
  intros E. injection E as <-. exact (proj2 H).
Qed.

(** Whenever [pipeline] returns, from whatever state, its pipeline is
    checked and the token returned with it is the closing one. *)
Theorem pipeline_checked (fuel : nat) (context : string) (end_ : itemType)
        (t t' : Tree) (pipe : PipeNode) (tok : item) :
  pipeline fuel context end_ t = Ok (pipe, tok, t') ->
  checked pipe /\ typ tok = end_.
Proof.
  intros H.
  assert (R : reachable (text t) (token0 t :: lex_ t) t).
  { split; [reflexivity|]. split; [left; left; reflexivity|].
    intros i Hi. right. exact Hi. }
  pose proof (spec_pipeline_checked (text t) (token0 t :: lex_ t)
                fuel context end_ t R) as S.
  rewrite H in S. exact (proj2 S).
Qed.

Lemma parse_items_range :
  exists root,
    Parse_items 40 "{{range $k, $v := .M}}{{$k}}{{end}}"
      (lex "{{range $k, $v := .M}}{{$k}}{{end}}") = Ok root.
Proof. eexists. vm_compute. reflexivity. Qed.



Lemma pipeline_dot_len :
  exists r, pipeline 8 "command" itemRightDelim after_left_delim = Ok r.
Proof. eexists. vm_compute. reflexivity. Qed.



Lemma parse_items_lone_end :
  Parse_items (enough "{{end}}") "{{end}}" (lex "{{end}}")
  = Failed "template: 1: unexpected {{ end }}".
Proof. vm_compute. reflexivity. Qed.
End Results.

(** The pipeline of [{{.|len}}] is checked and ends at the right delimiter. *)
Lemma pipeline_checked_witness :
  exists pipe tok t',
    pipeline (SC := GoStrconv) 8 "command" itemRightDelim after_left_delim
    = Ok (pipe, tok, t')
    /\ checked pipe /\ typ tok = itemRightDelim.
Proof.
  destruct (pipeline_dot_len (SC := GoStrconv)) as [[[pipe tok] t'] H].
  exists pipe, tok, t'. split; [exact H|].
  exact (pipeline_checked 8 "command" itemRightDelim after_left_delim t' pipe tok H).
Defined.




(** The tree of [{{range $k, $v := .M}}{{$k}}{{end}}] is well formed. *)
Lemma parsed_tree_wellformed_witness :
  exists root,
    Parse_items (SC := GoStrconv) 40 "{{range $k, $v := .M}}{{$k}}{{end}}"
      (lex "{{range $k, $v := .M}}{{$k}}{{end}}") = Ok root
    /\ wellformed (NList root) = true.
Proof.
  destruct (parse_items_range (SC := GoStrconv)) as [root H].
  exists root. split; [exact H|].
  exact (parsed_tree_wellformed 40 _ _ root H).
Defined.



(** ** More fuel changes no result *)

Section Fuel.
Context {SC : Strconv}.

Lemma settles_refl {A : Type} (m : M A) : settles m m.
Proof. intros t _. reflexivity. Qed.

Lemma settles_trans {A : Type} (m1 m2 m3 : M A) :
  settles m1 m2 -> settles m2 m3 -> settles m1 m3.
Proof.
  intros H12 H23 t H. rewrite <- (H12 t H). apply H23. rewrite (H12 t H). exact H.
Qed.

Lemma settles_out_of_fuel {A : Type} (m : M A) : settles out_of_fuel m.
Proof. intros t H. exfalso. apply H. reflexivity. Qed.

Lemma settles_bind {A B : Type} (m m' : M A) (k k' : A -> M B) :
  settles m m' -> (forall a, settles (k a) (k' a)) ->
  settles (bind m k) (bind m' k').
Proof.
  intros Hm Hk t H. unfold bind in *.
  destruct (m t) as [[a t1]|e| |] eqn:E.
  - rewrite (Hm t) by (rewrite E; discriminate). rewrite E. apply Hk. exact H.
  - rewrite (Hm t) by (rewrite E; discriminate). rewrite E. reflexivity.
  - rewrite (Hm t) by (rewrite E; discriminate). rewrite E. reflexivity.
  - exfalso. apply H. reflexivity.
Qed.

(** A sequence settles when its parts do; a choice settles case by case. *)
Ltac settle :=
  repeat first
    [ assumption
    | lazymatch goal with
      | |- settles ?m ?m => apply settles_refl
      | |- settles (bind _ _) (bind _ _) => apply settles_bind; [|intros ?]
      | |- settles (match ?x with _ => _ end) (match ?x with _ => _ end) =>
          destruct x
      end
    | match goal with
      | H : context [settles] |- settles _ _ => solve [apply H]
      end ].

Lemma pipeline_decls_settles (fuel : nat) (context : string) (pipe : PipeNode) :
  settles (pipeline_decls fuel context pipe) (pipeline_decls (S fuel) context pipe).
Proof.
  revert pipe. induction fuel as [|fuel IH]; intros pipe.
  - apply settles_out_of_fuel.
  - change (settles (pipeline_decls_body (pipeline_decls fuel context) context pipe)
              (pipeline_decls_body (pipeline_decls (S fuel) context) context pipe)).
    unfold pipeline_decls_body. settle.
Qed.

Lemma expressions_settle (fuel : nat) :
  settles (term fuel) (term (S fuel))
  /\ settles (operand fuel) (operand (S fuel))
  /\ (forall cmd, settles (command_loop fuel cmd) (command_loop (S fuel) cmd))
  /\ settles (command fuel) (command (S fuel))
  /\ (forall context end_ pipe,
        settles (pipeline_loop fuel context end_ pipe)
                (pipeline_loop (S fuel) context end_ pipe))
  /\ (forall context end_,
        settles (pipeline fuel context end_) (pipeline (S fuel) context end_)).
Proof.
  induction fuel as [|fuel (Hterm & Hoperand & Hloop & Hcommand & Hploop & Hpipeline)].
  - repeat split; intros; apply settles_out_of_fuel.
  - split.
    { change (settles (term_body (pipeline fuel)) (term_body (pipeline (S fuel)))).
      unfold term_body. settle. }
    split.
    { change (settles (operand_body (term fuel)) (operand_body (term (S fuel)))).
      unfold operand_body. settle. }
    split.
    { intros cmd.
      change (settles (command_loop_body (operand fuel) (command_loop fuel) cmd)
                (command_loop_body (operand (S fuel)) (command_loop (S fuel)) cmd)).
      unfold command_loop_body. settle. }
    split.
    { change (settles (command_body (command_loop fuel))
                (command_body (command_loop (S fuel)))).
      unfold command_body. settle. }
    split.
    { intros context end_ pipe.
      change (settles
                (pipeline_loop_body (command fuel) (pipeline_loop fuel context end_)
                   context end_ pipe)
                (pipeline_loop_body (command (S fuel))
                   (pipeline_loop (S fuel) context end_) context end_ pipe)).
      unfold pipeline_loop_body. settle. }
    intros context end_.
    change (settles
              (pipeline_body (pipeline_decls fuel) (pipeline_loop fuel) context end_)
              (pipeline_body (pipeline_decls (S fuel)) (pipeline_loop (S fuel))
                 context end_)).
    unfold pipeline_body. settle. apply pipeline_decls_settles.
Qed.

Lemma elseControl_settles (fuel : nat) (tr : trim) :
  settles (elseControl fuel tr) (elseControl (S fuel) tr).
Proof.
  unfold elseControl. settle. apply expressions_settle.
Qed.

Lemma statements_settle (fuel : nat) :
  settles (textOrAction fuel) (textOrAction (S fuel))
  /\ (forall tr, settles (action fuel tr) (action (S fuel) tr))
  /\ (forall l, settles (itemList_loop fuel l) (itemList_loop (S fuel) l))
  /\ settles (itemList fuel) (itemList (S fuel))
  /\ (forall nxt elses,
        settles (branch_elses fuel nxt elses) (branch_elses (S fuel) nxt elses))
  /\ (forall keyword tr,
        settles (branchControl fuel keyword tr) (branchControl (S fuel) keyword tr)).
Proof.
  induction fuel as [|fuel (Htext & Haction & Hloop & Hlist & Helses & Hbranch)].
  - repeat split; intros; apply settles_out_of_fuel.
  - pose proof (elseControl_settles fuel) as Helse.
    assert (Hpipeline : forall context end_,
               settles (pipeline fuel context end_) (pipeline (S fuel) context end_))
      by apply expressions_settle.
    split.
    { change (settles (textOrAction_body (action fuel))
                (textOrAction_body (action (S fuel)))).
      unfold textOrAction_body. settle. }
    split.
    { intros tr.
      change (settles
                (action_body (elseControl fuel) (branchControl fuel) (pipeline fuel) tr)
                (action_body (elseControl (S fuel)) (branchControl (S fuel))
                   (pipeline (S fuel)) tr)).
      unfold action_body. settle. }
    split.
    { intros l.
      change (settles
                (itemList_loop_body (textOrAction fuel) (itemList_loop fuel) l)
                (itemList_loop_body (textOrAction (S fuel)) (itemList_loop (S fuel)) l)).
      unfold itemList_loop_body. settle. }
    split.
    { change (settles (itemList_body (itemList_loop fuel))
                (itemList_body (itemList_loop (S fuel)))).
      unfold itemList_body. settle. }
    split.
    { intros nxt elses.
      change (settles
                (branch_elses_body (itemList fuel) (branch_elses fuel) nxt elses)
                (branch_elses_body (itemList (S fuel)) (branch_elses (S fuel))
                   nxt elses)).
      unfold branch_elses_body. settle. }
    intros keyword tr.
    change (settles
              (branchControl_body (pipeline fuel) (itemList fuel) (branch_elses fuel)
                 keyword tr)
              (branchControl_body (pipeline (S fuel)) (itemList (S fuel))
                 (branch_elses (S fuel)) keyword tr)).
    unfold branchControl_body. settle.
Qed.

Lemma parse_loop_settles (fuel : nat) (root : ListNode) :
  settles (parse_loop fuel root) (parse_loop (S fuel) root).
Proof.
  revert root. induction fuel as [|fuel IH]; intros root.
  - apply settles_out_of_fuel.
  - pose proof (proj1 (statements_settle fuel)) as Htext.
    change (settles (parse_loop_body (textOrAction fuel) (parse_loop fuel) root)
              (parse_loop_body (textOrAction (S fuel)) (parse_loop (S fuel)) root)).
    unfold parse_loop_body. settle.
Qed.

Lemma parse_settles (fuel fuel' : nat) :
  (fuel <= fuel')%nat -> settles (parse fuel) (parse fuel').
Proof.
  induction 1 as [|fuel' _ IH]; [apply settles_refl|].
  eapply settles_trans; [exact IH|].
  unfold parse. settle. apply parse_loop_settles.
Qed.

(** Once a parse ends within its fuel, it ends the same way with any
    larger fuel: the tree or the error does not depend on the bound. *)
Theorem Parse_items_fuel (fuel fuel' : nat) (txt : string) (items : list item) :
  (fuel <= fuel')%nat ->
  Parse_items fuel txt items <> OutOfFuel ->
  Parse_items fuel' txt items = Parse_items fuel txt items.
Proof.
  intros Hle H. unfold Parse_items in *.
  rewrite (parse_settles fuel fuel' Hle (startTree txt items)); [reflexivity|].
  intros E. rewrite E in H. apply H. reflexivity.
Qed.
End Fuel.

Lemma Parse_items_fuel_witness :
  (enough "{{end}}" <= 100)%nat
  /\ Parse_items (SC := GoStrconv) (enough "{{end}}") "{{end}}" (lex "{{end}}")
     <> OutOfFuel
  /\ Parse_items (SC := GoStrconv) 100 "{{end}}" (lex "{{end}}")
     = Parse_items (enough "{{end}}") "{{end}}" (lex "{{end}}").
Proof.
  assert (L : (enough "{{end}}" <= 100)%nat) by (vm_compute; lia).
  assert (H : Parse_items (SC := GoStrconv) (enough "{{end}}") "{{end}}"
                (lex "{{end}}") <> OutOfFuel).
  { rewrite (parse_items_lone_end (SC := GoStrconv)). discriminate. }
  split; [exact L|]. split; [exact H|].
  exact (Parse_items_fuel _ _ _ _ L H).
Defined.

(** ** The parser ends within a bound linear in the tokens *)

Section Adequacy.
Context {SC : Strconv}.

Lemma slen_scons (x : item) (l : list item) :
  List.length (scons x l) =
    if ((List.length l =? 0)%nat && is_eof x)%bool then 0%nat else S (List.length l).
Proof. destruct l; cbn; [destruct (is_eof x)|]; reflexivity. Qed.

Lemma slen_cons (x : item) (l : list item) :
  List.length (strip (x :: l)) =
    if ((List.length (strip l) =? 0)%nat && is_eof x)%bool then 0%nat
    else S (List.length (strip l)).
Proof. cbn [strip]. apply slen_scons. Qed.

Lemma slen_cons_le (x : item) (l : list item) :
  (List.length (strip l) <= List.length (strip (x :: l)) <= S (List.length (strip l)))%nat.
Proof.
  rewrite slen_cons.
  destruct (List.length (strip l)); cbn; [destruct (is_eof x)|]; cbn; lia.
Qed.

Lemma good_cases (t : Tree) :
  good t -> peekCount t = 0 \/ peekCount t = 1 \/ peekCount t = 2 \/ peekCount t = 3.
Proof. unfold good. lia. Qed.

Lemma is_eof_eofItem (t : Tree) : is_eof (eofItem t) = true.
Proof. reflexivity. Qed.

Ltac crush_state :=
  unfold good, unread, unread0, upcoming, ahead, buffered, pending, eofItem,
    next, peek, backup, backup2, backup3, read_token0, nextItem, set_peekCount,
    token, must, ret in *;
  cbn -[strip scons is_eof Nat.sub] in *.

Ltac facts lx :=
  split; crush_state; try reflexivity; try lia; auto;
  cbn [strip] in *; repeat rewrite slen_scons in *;
  destruct (List.length (strip lx));
  repeat match goal with
         | |- context [is_eof ?i] => destruct (is_eof i) eqn:?
         end;
  cbn in *; try lia; try discriminate; auto;
  try (intros ? [[? ?]|?]; try discriminate; lia).

Lemma next_facts (t : Tree) :
  good t -> exists x t', next t = Ok (x, t') /\ next_post t x t'.
Proof.
  intros G. destruct (good_cases t G) as [E|[E|[E|E]]];
    destruct t as [txt lx t0 t1 t2 pc al]; cbn in E; subst pc.
  - destruct lx as [|i lx].
    + eexists. eexists. split; [reflexivity|].
      split; crush_state; try reflexivity; try lia; auto; discriminate.
    + eexists. eexists. split; [reflexivity|]. facts lx.
  - eexists. eexists. split; [reflexivity|]. facts lx.
  - eexists. eexists. split; [reflexivity|]. facts lx.
  - eexists. eexists. split; [reflexivity|]. facts lx.
Qed.

Lemma peek_facts (t : Tree) :
  good t -> exists x t', peek t = Ok (x, t') /\ peek_post t x t'.
Proof.
  intros G. destruct (good_cases t G) as [E|[E|[E|E]]];
    destruct t as [txt lx t0 t1 t2 pc al]; cbn in E; subst pc.
  - destruct lx as [|i lx].
    + eexists; eexists; split; [reflexivity|].
      split; crush_state; try reflexivity; try lia; auto; discriminate.
    + eexists. eexists. split; [reflexivity|]. facts lx.
  - eexists. eexists. split; [reflexivity|]. facts lx.
  - eexists. eexists. split; [reflexivity|]. facts lx.
  - eexists. eexists. split; [reflexivity|]. facts lx.
Qed.

Lemma backup_facts (t : Tree) (x : item) :
  good t -> peekCount t <= 2 -> token t (peekCount t) = Some x ->
  exists t', backup t = Ok (tt, t') /\ backup_post t x t'.
Proof.
  intros G L H. destruct (good_cases t G) as [E|[E|[E|E]]];
    destruct t as [txt lx t0 t1 t2 pc al]; cbn in E; subst pc;
    try (cbn in L; lia);
    cbn in H; injection H as <-;
    (eexists; split; [reflexivity|]); facts lx.
Qed.

Lemma backup2_facts (t : Tree) (x : item) :
  exists t', backup2 x t = Ok (tt, t') /\ backup2_post t x t'.
Proof.
  destruct t as [txt lx t0 t1 t2 pc al].
  eexists; split; [reflexivity|]. facts lx.
Qed.

Lemma backup3_facts (t : Tree) (x y : item) :
  exists t', backup3 x y t = Ok (tt, t') /\ backup3_post t x t'.
Proof.
  destruct t as [txt lx t0 t1 t2 pc al].
  eexists; split; [reflexivity|]. facts lx.
Qed.

(** *** Running a computation step by step *)

Lemma safe_bind_ok {A B : Type} (m : M A) (k : A -> M B) (t t' : Tree) (a : A)
      (Q : B -> Tree -> Prop) :
  m t = Ok (a, t') -> safe (k a t') Q -> safe (bind m k t) Q.
Proof. intros E H. unfold bind. rewrite E. exact H. Qed.

Lemma safe_bind {A B : Type} (m : M A) (k : A -> M B) (t : Tree)
      (Q : B -> Tree -> Prop) :
  safe (m t) (fun a t' => safe (k a t') Q) -> safe (bind m k t) Q.
Proof. unfold bind, safe. destruct (m t) as [[a t']|e| |]; auto. Qed.

Lemma safe_weaken {A : Type} (r : result (A * Tree)) (Q Q' : A -> Tree -> Prop) :
  safe r Q -> (forall a t', Q a t' -> Q' a t') -> safe r Q'.
Proof. unfold safe. destruct r as [[a t']|e| |]; auto. Qed.

Lemma safe_ret {A : Type} (a : A) (t : Tree) (Q : A -> Tree -> Prop) :
  Q a t -> safe (ret a t) Q.
Proof. intros H. exact H. Qed.

Lemma safe_errorf {A : Type} (msg : string) (t : Tree) (Q : A -> Tree -> Prop) :
  safe (errorf msg t) Q.
Proof. exact I. Qed.

Lemma safe_crash {A : Type} (t : Tree) (Q : A -> Tree -> Prop) : safe (crash t) Q.
Proof. exact I. Qed.

Lemma safe_unexpected {A : Type} (tok : item) (context : string) (t : Tree)
      (Q : A -> Tree -> Prop) :
  safe (unexpected tok context t) Q.
Proof. unfold unexpected. destruct (itemType_eqb _ _); exact I. Qed.

Lemma safe_stateless {A B : Type} (m : M A) (k : A -> M B) (t : Tree)
      (Q : B -> Tree -> Prop) :
  stateless m -> (forall a, safe (k a t) Q) -> safe (bind m k t) Q.
Proof.
  intros Hm Hk. apply safe_bind. eapply safe_weaken; [apply Hm|].
  cbv beta. intros a t' ->. apply Hk.
Qed.

Lemma stateless_must {A : Type} (x : option A) : stateless (must x).
Proof. intros t. destruct x; cbn; auto. Qed.

Lemma stateless_ret {A : Type} (a : A) : stateless (ret a).
Proof. intros t. reflexivity. Qed.

Lemma stateless_errorf {A : Type} (msg : string) : stateless (errorf (A := A) msg).
Proof. intros t. exact I. Qed.

Lemma stateless_bind {A B : Type} (m : M A) (k : A -> M B) :
  stateless m -> (forall a, stateless (k a)) -> stateless (bind m k).
Proof. intros Hm Hk t. apply safe_stateless; [exact Hm|]. intros a. apply Hk. Qed.

Lemma stateless_node_String (n : Node) : stateless (node_String n).
Proof.
  intros t. unfold node_String, bind, get. destruct (String_ (text t) n); cbn; auto.
Qed.

Lemma stateless_check_stages (cmds : list CommandNode) (i : Z) :
  stateless (check_stages i cmds).
Proof.
  revert i. induction cmds as [|c cmds IH]; intros i; cbn [check_stages].
  - apply stateless_ret.
  - apply stateless_bind; [apply stateless_must|]. intros arg0.
    destruct (is_literal _); [apply stateless_errorf | apply IH].
Qed.

Lemma stateless_checkPipeline (pipe : PipeNode) (context : string) :
  stateless (checkPipeline pipe context).
Proof.
  unfold checkPipeline. apply stateless_bind.
  - destruct (_ =? _)%nat; [apply stateless_errorf | apply stateless_ret].
  - intros _. apply stateless_check_stages.
Qed.

Lemma space_not_eof (x : item) : is_space x = true -> is_eof x = false.
Proof.
  unfold is_space, is_eof. intros H. apply itemType_eqb_eq in H. rewrite H. reflexivity.
Qed.

Lemma typed_not_eof (x : item) (ty : itemType) :
  typ x = ty -> ty <> itemEOF -> is_eof x = false.
Proof.
  intros <- H. unfold is_eof, itemType_eqb.
  destruct (itemType_eq_dec (typ x) itemEOF); [contradiction | reflexivity].
Qed.

(** *** The look-ahead functions *)

Lemma nextNonSpace_loop_facts (n : nat) (t : Tree) :
  good t -> (pending t <= n)%nat ->
  exists x t', nextNonSpace_loop n t = Ok (x, t') /\ nextNonSpace_post t x t'.
Proof.
  revert t. induction n as [|n IH]; intros t G Hn;
    destruct (next_facts t G)
      as (x & t1 & E & [G1 Pc1 L1 Up1 Tx1 U1 Eof1 Mid1 U01 Pd0 Pd1 Re1 Rs1]);
    cbn [nextNonSpace_loop]; unfold bind; rewrite E;
    destruct (is_space x) eqn:Sp.
  - pose proof (space_not_eof x Sp) as Hx.
    destruct (Pd0 ltac:(lia)) as [Hx' _]. congruence.
  - exists x, t1. split; [reflexivity|].
    split; auto; try lia;
      try (intros H; rewrite <- Up1 in H; congruence);
      try (destruct (unread t) eqn:U; [left; split; [lia | auto] | right; lia]).
  - pose proof (space_not_eof x Sp) as Hx.
    assert (1 <= pending t)%nat.
    { destruct (pending t) eqn:Pd; [|lia].
      destruct (Pd0 eq_refl) as [Hx' _]. congruence. }
    assert (1 <= unread t)%nat.
    { destruct (unread t) eqn:U; [|lia]. rewrite Eof1 in Hx; [discriminate | reflexivity]. }
    destruct (IH t1 G1 ltac:(lia)) as (x' & t' & E' & [G2 Pc2 L2 Tx2 Ns2 U2 R2 U02 Sp2 Re2]).
    exists x', t'. split; [exact E'|].
    split; auto; try lia; try congruence.
  - exists x, t1. split; [reflexivity|].
    split; auto; try lia;
      try (intros H; rewrite <- Up1 in H; congruence);
      try (destruct (unread t) eqn:U; [left; split; [lia | auto] | right; lia]).
Qed.

Lemma nextNonSpace_facts (t : Tree) :
  good t -> exists x t', nextNonSpace t = Ok (x, t') /\ nextNonSpace_post t x t'.
Proof. intros G. apply nextNonSpace_loop_facts; [exact G | lia]. Qed.

Lemma peekNonSpace_facts (t : Tree) :
  good t -> exists x t', peekNonSpace t = Ok (x, t') /\ peekNonSpace_post t x t'.
Proof.
  intros G.
  destruct (nextNonSpace_facts t G)
    as (x & t1 & E & [G1 Pc1 L1 Tx1 Ns1 U1 R1 U01 Sp1 Re1]).
  destruct (backup_facts t1 x G1 Pc1 L1) as (t' & E' & [G2 Pc2 Up2 Tx2 U2 U02 S02 Le2]).
  exists x, t'. split.
  - unfold peekNonSpace, bind. rewrite E, E'. reflexivity.
  - split; auto; try congruence;
      try (apply Le2; exact R1);
      try (intros Hx; rewrite U2, Hx, andb_false_r; lia);
      try (intros H; rewrite S02; auto).
Qed.

Ltac step :=
  lazymatch goal with
  | |- safe (bind next _ ?t) _ =>
      let x := fresh "tok" in let t' := fresh "t" in let E := fresh "E" in
      destruct (next_facts t ltac:(assumption)) as (x & t' & E & []);
      apply (safe_bind_ok _ _ _ _ _ _ E); clear E; cbv beta zeta
  | |- safe (bind peek _ ?t) _ =>
      let x := fresh "tok" in let t' := fresh "t" in let E := fresh "E" in
      destruct (peek_facts t ltac:(assumption)) as (x & t' & E & []);
      apply (safe_bind_ok _ _ _ _ _ _ E); clear E; cbv beta zeta
  | |- safe (bind nextNonSpace _ ?t) _ =>
      let x := fresh "tok" in let t' := fresh "t" in let E := fresh "E" in
      destruct (nextNonSpace_facts t ltac:(assumption)) as (x & t' & E & []);
      apply (safe_bind_ok _ _ _ _ _ _ E); clear E; cbv beta zeta
  | |- safe (bind peekNonSpace _ ?t) _ =>
      let x := fresh "tok" in let t' := fresh "t" in let E := fresh "E" in
      destruct (peekNonSpace_facts t ltac:(assumption)) as (x & t' & E & []);
      apply (safe_bind_ok _ _ _ _ _ _ E); clear E; cbv beta zeta
  | |- safe (bind backup _ ?t) _ =>
      let t' := fresh "t" in let E := fresh "E" in
      edestruct (backup_facts t) as (t' & E & []);
      [eassumption | eassumption | eassumption |];
      apply (safe_bind_ok _ _ _ _ _ _ E); clear E; cbv beta zeta;
      try match goal with
          | Hle : forall n : nat, _ \/ _ -> (unread t' <= n)%nat,
            Hr : (unread t = 0%nat /\ _) \/ _ |- _ => pose proof (Hle _ Hr)
          end
  | |- safe (bind (backup2 ?x) _ ?t) _ =>
      let t' := fresh "t" in let E := fresh "E" in
      destruct (backup2_facts t x) as (t' & E & []);
      apply (safe_bind_ok _ _ _ _ _ _ E); clear E; cbv beta zeta
  | |- safe (bind (backup3 ?x ?y) _ ?t) _ =>
      let t' := fresh "t" in let E := fresh "E" in
      destruct (backup3_facts t x y) as (t' & E & []);
      apply (safe_bind_ok _ _ _ _ _ _ E); clear E; cbv beta zeta
  | |- safe (bind (must _) _ _) _ =>
      apply safe_stateless; [apply stateless_must | intros ?]
  | |- safe (bind (node_String _) _ _) _ =>
      apply safe_stateless; [apply stateless_node_String | intros ?]
  | |- safe (bind (checkPipeline _ _) _ _) _ =>
      apply safe_stateless; [apply stateless_checkPipeline | intros ?]
  | |- safe (bind (ret ?a) _ ?t) _ =>
      apply (safe_bind_ok (ret a) _ t t a); [reflexivity|]; cbv beta zeta
  | |- safe (bind get _ ?t) _ =>
      apply (safe_bind_ok get _ t t t); [reflexivity|]; cbv beta zeta
  | |- safe (bind (put ?t') _ ?t) _ =>
      apply (safe_bind_ok (put t') _ t t' tt); [reflexivity|]; cbv beta zeta
  end.

Ltac stop :=
  lazymatch goal with
  | |- safe (errorf _ _) _ => exact I
  | |- safe (unexpected _ _ _) _ => apply safe_unexpected
  | |- safe (bind (errorf _) _ _) _ => exact I
  | |- safe (crash _) _ => exact I
  end.

Ltac forward :=
  repeat match goal with
         | H : is_eof ?x = false -> _, H' : is_eof ?x = false |- _ => specialize (H H')
         | H : is_space ?x = true -> _, H' : is_space ?x = true |- _ => specialize (H H')
         end.

Ltac case_if :=
  lazymatch goal with
  | |- safe ((if ?c then _ else _) _) _ => destruct c eqn:?
  | |- safe (bind (if ?c then _ else _) _ _) _ => destruct c eqn:?
  end.

Ltac case_typ :=
  lazymatch goal with
  | |- safe ((match typ ?x with _ => _ end) _) _ => destruct (typ x) eqn:?
  end.

Ltac not_eof x :=
  match goal with
  | H : typ x = _ |- _ =>
      assert (is_eof x = false) by (apply (typed_not_eof x _ H); discriminate)
  | H : itemType_eqb (typ x) _ = true |- _ =>
      let H' := fresh in
      pose proof (itemType_eqb_eq _ _ H) as H';
      assert (is_eof x = false) by (apply (typed_not_eof x _ H'); discriminate)
  end.

Lemma expect_safe {B : Type} (ty : itemType) (context : string) (k : item -> M B)
      (t : Tree) (Q : B -> Tree -> Prop) :
  good t ->
  (forall x t', nextNonSpace_post t x t' -> typ x = ty -> safe (k x t') Q) ->
  safe (bind (expect ty context) k t) Q.
Proof.
  intros G H. apply safe_bind. unfold expect.
  destruct (nextNonSpace_facts t G) as (x & t' & E & P).
  apply (safe_bind_ok _ _ _ _ _ _ E). cbv beta.
  destruct (itemType_eqb (typ x) ty) eqn:Ety; cbn [negb].
  - apply safe_ret. apply H; [exact P|]. apply itemType_eqb_eq. exact Ety.
  - apply safe_unexpected.
Qed.

Ltac step_expect :=
  lazymatch goal with
  | |- safe (bind (expect _ _) _ ?t) _ =>
      let x := fresh "tok" in let t' := fresh "t" in
      apply expect_safe; [assumption | intros x t' [] ?]; cbv beta zeta
  end.

(** *** The loops over fields and declarations *)

Lemma chain_fields_safe (n : nat) (chain : ChainNode) (t : Tree) :
  good t -> (pending t <= n)%nat ->
  safe (chain_fields n chain t) (fun _ t' => good t' /\ (unread t' <= unread t)%nat).
Proof.
  revert chain t. induction n as [|n IH]; intros chain t G Hn;
    cbn [chain_fields]; step;
    (destruct (itemType_eqb (typ tok) itemField) eqn:Ety;
     [|apply safe_ret; split; [assumption | lia]]);
    not_eof tok; step; step.
  - exfalso. forward. lia.
  - forward.
    eapply safe_weaken; [apply IH; [assumption | lia]|].
    cbv beta. intros _ t' [G' U']. split; [assumption | lia].
Qed.

Lemma pipeline_decls_safe (fuel : nat) (context : string) (pipe : PipeNode) (t : Tree) :
  good t -> (unread t + 1 <= fuel)%nat ->
  safe (pipeline_decls fuel context pipe t)
       (fun _ t' => good t' /\ (unread t' <= unread t)%nat).
Proof.
  revert pipe t. induction fuel as [|fuel IH]; intros pipe t G Hf; [lia|].
  cbn [pipeline_decls]. unfold pipeline_decls_body.
  step. case_if; [|apply safe_ret; split; [assumption | lia]].
  not_eof tok. forward.
  step. step. step.
  case_if.
  { step. apply safe_ret. split; [assumption | lia]. }
  case_if.
  { step. case_if; [|stop].
    step.
    case_typ; try stop;
      (eapply safe_weaken; [apply IH; [assumption | lia]|];
       cbv beta; intros _ t' [G' U']; split; [assumption | lia]). }
  case_if.
  - step. apply safe_ret. split; [assumption|].
    match goal with
    | H : upcoming _ = ?x, H' : is_space ?x = true |- _ => rewrite <- H in H'
    end.
    forward. lia.
  - step. apply safe_ret. split; [assumption | lia].
Qed.

Ltac call H :=
  apply safe_bind; eapply safe_weaken; [apply H; [assumption | try lia] |];
  cbv beta zeta.

Ltac fin :=
  forward; repeat match goal with |- _ /\ _ => split end;
  try assumption; try lia;
  try (intros; forward; try discriminate; try congruence; lia);
  try (intros Hn; exfalso; apply Hn; reflexivity).

Ltac run :=
  repeat (cbv beta zeta;
    first
    [ stop
    | step
    | lazymatch goal with
      | |- safe (ret _ _) _ => apply safe_ret
      | |- safe ((if ?c then _ else _) _) _ => destruct c eqn:?
      | |- safe (bind (if ?c then _ else _) _ _) _ => destruct c eqn:?
      | |- safe ((match ?x with inl _ => _ | inr _ => _ end) _) _ => destruct x
      end ]).

(** *** Expressions *)

Lemma term_ends (F : nat) : expressions_end F -> 
  forall t, good t -> (6 * unread t + 1 <= S F)%nat ->
     safe (term (S F) t)
          (fun r t' => good t' /\ (unread t' <= unread t)%nat
                       /\ (r <> None -> (unread t' < unread t)%nat)).
Proof.
  intros (_ & _ & _ & _ & _ & IHpipeline) t G Hf.
  cbn [term]. unfold term_body. step.
  case_typ; try not_eof tok; forward;
    try (run; fin; fail).
  call IHpipeline. intros [pipe tok'] t' [G' U']. run. fin.
Qed.

Lemma operand_ends (F : nat) : expressions_end F ->
  forall t, good t -> (6 * unread t + 2 <= S F)%nat ->
     safe (operand (S F) t)
          (fun r t' => good t' /\ (unread t' <= unread t)%nat
                       /\ (r <> None -> (unread t' < unread t)%nat)).
Proof.
  intros (IHterm & _) t G Hf.
  cbn [operand]. unfold operand_body.
  call IHterm. intros [node|] t1 (G1 & U1 & P1); [|run; fin].
  specialize (P1 ltac:(discriminate)).
  step. case_if; [|run; fin].
  step.
  apply safe_bind. eapply safe_weaken;
    [apply chain_fields_safe; [assumption | apply Nat.le_refl]|].
  cbv beta. intros chain t3 [G3 U3].
  destruct (Type_ node); run; fin.
Qed.

Lemma command_loop_ends (F : nat) : expressions_end F ->
  forall cmd t, good t -> (6 * unread t + 3 <= S F)%nat ->
     safe (command_loop (S F) cmd t)
          (fun r t' => good t' /\ (unread t' <= unread t)%nat
                       /\ (Args r = Args cmd \/ (unread t' < unread t)%nat)).
Proof.
  intros (_ & IHoperand & IHloop & _) cmd t G Hf.
  cbn [command_loop]. unfold command_loop_body.
  step. call IHoperand. intros arg t1 (G1 & U1 & P1).
  step.
  case_typ; try not_eof tok0; forward; try stop;
    lazymatch goal with
    | |- safe (ret _ _) _ =>
        (* a pipe *)
        apply safe_ret; fin; right; lia
    | |- safe (bind backup _ _) _ =>
        (* a right delimiter or parenthesis: backed up *)
        step; apply safe_ret;
        destruct arg as [arg|]; [specialize (P1 ltac:(discriminate))|]; fin;
        solve [right; lia | left; reflexivity]
    | |- _ =>
        (* a space: the next round *)
        eapply safe_weaken; [apply IHloop; [assumption | lia]|];
        cbv beta; intros r t' (G' & U' & _); fin; right; lia
    end.
Qed.

Lemma command_ends (F : nat) : expressions_end F ->
  forall t, good t -> (6 * unread t + 4 <= S F)%nat ->
     safe (command (S F) t) (fun _ t' => good t' /\ (unread t' < unread t)%nat).
Proof.
  intros (_ & _ & IHloop & _) t G Hf.
  cbn [command]. unfold command_body.
  step. call IHloop. intros cmd t1 (G1 & U1 & P1).
  case_if; [stop|]. step. apply safe_ret.
  destruct P1 as [P1|P1].
  - cbn in P1. rewrite P1 in *. discriminate.
  - fin.
Qed.

Lemma pipeline_loop_ends (F : nat) : expressions_end F ->
  forall context end_ pipe t, good t -> (6 * unread t + 5 <= S F)%nat ->
     safe (pipeline_loop (S F) context end_ pipe t)
          (fun _ t' => good t' /\ (unread t' <= unread t)%nat).
Proof.
  intros (_ & _ & _ & IHcommand & IHloop & _) context end_ pipe t G Hf.
  cbn [pipeline_loop]. unfold pipeline_loop_body.
  step. case_if; [run; fin|].
  case_if; [|stop].
  step. call IHcommand. intros cmd t2 (G2 & U2).
  eapply safe_weaken; [apply IHloop; [assumption | lia]|].
  cbv beta. intros r t' (G' & U'). fin.
Qed.

Lemma pipeline_ends (F : nat) : expressions_end F ->
  forall context end_ t, good t -> (6 * unread t + 6 <= S F)%nat ->
     safe (pipeline (S F) context end_ t)
          (fun _ t' => good t' /\ (unread t' <= unread t)%nat).
Proof.
  intros (_ & _ & _ & _ & IHloop & _) context end_ t G Hf.
  cbn [pipeline]. unfold pipeline_body.
  step.
  apply safe_bind. eapply safe_weaken;
    [apply pipeline_decls_safe; [assumption | lia]|].
  cbv beta. intros pipe t1 (G1 & U1).
  eapply safe_weaken; [apply IHloop; [assumption | lia]|].
  cbv beta. intros r t' (G' & U'). fin.
Qed.

Lemma expressions_end_all (F : nat) : expressions_end F.
Proof.
  induction F as [|F IH].
  - repeat split; intros; lia.
  - split; [exact (term_ends F IH)|].
    split; [exact (operand_ends F IH)|].
    split; [exact (command_loop_ends F IH)|].
    split; [exact (command_ends F IH)|].
    split; [exact (pipeline_loop_ends F IH)|].
    exact (pipeline_ends F IH).
Qed.

(** *** Actions and control structures *)

Lemma good_set_actionLine (n : Z) (t : Tree) : good t -> good (set_actionLine n t).
Proof. intros H. exact H. Qed.

Lemma unread_set_actionLine (n : Z) (t : Tree) :
  unread (set_actionLine n t) = unread t.
Proof. reflexivity. Qed.

Lemma endControl_ends (tr : trim) (t : Tree) :
  good t ->
  safe (endControl tr t) (fun _ t' => good t' /\ (unread t' <= unread t)%nat).
Proof.
  intros G. unfold endControl. step_expect. apply safe_ret. fin.
Qed.

Lemma elseControl_ends (fuel : nat) (tr : trim) (t : Tree) :
  good t -> (6 * unread t <= fuel)%nat ->
  safe (elseControl fuel tr t) (fun _ t' => good t' /\ (unread t' <= unread t)%nat).
Proof.
  intros G Hf. unfold elseControl. step. case_if.
  - not_eof tok. forward. step. forward.
    destruct (expressions_end_all fuel) as (_ & _ & _ & _ & _ & IHpipeline).
    call IHpipeline. intros [pipe eoptok] t' [G' U']. run. fin.
  - step_expect. apply safe_ret. fin.
Qed.

Lemma textOrAction_ends (F : nat) : statements_end F ->
  forall t, good t -> (6 * unread t + 2 <= S F)%nat ->
    safe (textOrAction (S F) t) (fun _ t' => good t' /\ (unread t' < unread t)%nat).
Proof.
  intros (_ & IHaction & _) t G Hf.
  cbn [textOrAction]. unfold textOrAction_body. step.
  case_typ; try not_eof tok; forward; try stop; try (run; fin; fail).
  step. step.
  apply safe_bind. eapply safe_weaken;
    [apply IHaction; [apply good_set_actionLine; assumption
                     | rewrite unread_set_actionLine; lia]|].
  cbv beta. intros n t' (G' & U'). rewrite unread_set_actionLine in U'.
  step. step. apply safe_ret.
  split; [apply good_set_actionLine; assumption|].
  rewrite unread_set_actionLine. lia.
Qed.

Lemma action_ends (F : nat) : statements_end F ->
  forall tr t, good t -> (6 * unread t + 7 <= S F)%nat ->
    safe (action (S F) tr t) (fun _ t' => good t' /\ (unread t' <= unread t)%nat).
Proof.
  intros (_ & _ & _ & _ & _ & IHbranch) tr t G Hf.
  destruct (expressions_end_all F) as (_ & _ & _ & _ & _ & IHpipeline).
  cbn [action]. unfold action_body. step.
  case_typ; try not_eof tok; forward;
    lazymatch goal with
    | |- safe (elseControl _ _ _) _ =>
        eapply safe_weaken; [apply elseControl_ends; [assumption | lia]|];
        cbv beta; intros r t' (G' & U'); fin
    | |- safe (endControl _ _) _ =>
        eapply safe_weaken; [apply endControl_ends; assumption|];
        cbv beta; intros r t' (G' & U'); fin
    | |- safe (branchControl _ _ _ _) _ =>
        eapply safe_weaken; [apply IHbranch; [assumption | lia]|];
        cbv beta; intros r t' (G' & U'); fin
    | |- _ =>
        step; step; call IHpipeline; intros [pipe endtok] t' [G' U'];
        apply safe_ret; fin
    end.
Qed.

Lemma itemList_loop_ends (F : nat) : statements_end F ->
  forall list t, good t -> (6 * unread t + 3 <= S F)%nat ->
    safe (itemList_loop (S F) list t)
         (fun r t' => good t' /\ (unread t' < unread t)%nat /\ ends_list (snd r)).
Proof.
  intros (IHtext & _ & IHloop & _) list t G Hf.
  cbn [itemList_loop]. unfold itemList_loop_body. step.
  case_if; [|stop].
  call IHtext. intros n t1 (G1 & U1).
  destruct (Type_ n) eqn:Ety;
    lazymatch goal with
    | |- safe (ret _ _) _ =>
        apply safe_ret; fin; unfold ends_list; cbn [snd]; auto
    | |- _ =>
        eapply safe_weaken; [apply IHloop; [assumption | lia]|];
        cbv beta; intros r t' (G' & U' & E'); fin
    end.
Qed.

Lemma itemList_ends (F : nat) : statements_end F ->
  forall t, good t -> (6 * unread t + 4 <= S F)%nat ->
    safe (itemList (S F) t)
         (fun r t' => good t' /\ (unread t' < unread t)%nat /\ ends_list (snd r)).
Proof.
  intros (_ & _ & IHloop & _) t G Hf.
  cbn [itemList]. unfold itemList_body. step.
  eapply safe_weaken; [apply IHloop; [assumption | lia]|].
  cbv beta. intros r t' (G' & U' & E'). fin.
Qed.

Lemma branch_elses_ends (F : nat) : statements_end F ->
  forall nxt elses t, ends_list nxt -> good t -> (6 * unread t + 5 <= S F)%nat ->
    safe (branch_elses (S F) nxt elses t)
         (fun _ t' => good t' /\ (unread t' <= unread t)%nat).
Proof.
  intros (_ & _ & _ & IHlist & IHelses & _) nxt elses t E G Hf.
  cbn [branch_elses]. unfold branch_elses_body.
  destruct nxt; try (destruct E as [E|E]; discriminate E).
  - apply safe_ret. fin.
  - call IHlist. intros [l nxt] t1 (G1 & U1 & E1). cbn [snd] in E1.
    eapply safe_weaken; [apply IHelses; [assumption | assumption | lia]|].
    cbv beta. intros r t' (G' & U'). fin.
Qed.

Lemma branchControl_ends (F : nat) : statements_end F ->
  forall keyword tr t, good t -> (6 * unread t + 7 <= S F)%nat ->
    safe (branchControl (S F) keyword tr t)
         (fun _ t' => good t' /\ (unread t' <= unread t)%nat).
Proof.
  intros (_ & _ & _ & IHlist & IHelses & _) keyword tr t G Hf.
  destruct (expressions_end_all F) as (_ & _ & _ & _ & _ & IHpipeline).
  cbn [branchControl]. unfold branchControl_body.
  call IHpipeline. intros [pipe tok] t1 (G1 & U1).
  call IHlist. intros [l nxt] t2 (G2 & U2 & E2). cbn [snd] in E2.
  apply safe_bind. eapply safe_weaken;
    [apply IHelses; [assumption | assumption | lia]|].
  cbv beta. intros [elses e] t' (G' & U'). apply safe_ret. fin.
Qed.

Lemma statements_end_all (F : nat) : statements_end F.
Proof.
  induction F as [|F IH].
  - repeat split; intros; lia.
  - split; [exact (textOrAction_ends F IH)|].
    split; [exact (action_ends F IH)|].
    split; [exact (itemList_loop_ends F IH)|].
    split; [exact (itemList_ends F IH)|].
    split; [exact (branch_elses_ends F IH)|].
    exact (branchControl_ends F IH).
Qed.

(** *** The top level *)

Lemma parse_loop_ends (F : nat) (root : ListNode) (t : Tree) :
  good t -> (6 * unread t + 3 <= F)%nat ->
  safe (parse_loop F root t) (fun _ _ => True).
Proof.
  revert root t. induction F as [|F IH]; intros root t G Hf; [lia|].
  destruct (statements_end_all F) as (IHtext & _).
  cbn [parse_loop]. unfold parse_loop_body. step.
  case_if; [|apply safe_ret; exact I].
  step.
  assert (Hblock : forall (k : unit -> M ListNode),
            (forall t', good t' -> (unread t' <= unread t)%nat ->
                        safe (k tt t') (fun _ _ => True)) ->
            safe (bind (if itemType_eqb (typ tok0) itemLeftDelim
                        then delim <- next ;; nextNonSpace ;; backup2 delim
                        else ret tt) k t1) (fun _ _ => True)).
  { intros k Hk. case_if.
    - apply safe_bind. not_eof tok0. forward.
      step.
      assert (is_eof tok1 = false).
      { match goal with
        | H : tok1 = upcoming _, H' : upcoming _ = tok0 |- _ =>
            rewrite H, H'; assumption
        end. }
      forward. step.
      lazymatch goal with
      | |- safe (backup2 ?x ?t) _ =>
          destruct (backup2_facts t x) as (t4 & E4 & []); rewrite E4; cbn [safe]
      end.
      apply Hk; [assumption | lia].
    - step. apply Hk; [assumption | lia]. }
  apply Hblock. intros t' G' U'.
  call IHtext. intros n t2 (G2 & U2).
  destruct (Type_ n); try (run; fail);
    (eapply safe_weaken; [apply IH; [assumption | lia]|]; auto).
Qed.

Lemma parse_ends (F : nat) (t : Tree) :
  good t -> (6 * unread t + 3 <= F)%nat -> safe (parse F t) (fun _ _ => True).
Proof.
  intros G Hf. unfold parse. step.
  apply parse_loop_ends; [assumption | lia].
Qed.

Lemma strip_length (l : list item) : (List.length (strip l) <= List.length l)%nat.
Proof.
  induction l as [|x l IH]; [apply Nat.le_refl|].
  pose proof (slen_cons_le x l). cbn [List.length]. lia.
Qed.

(** [Tree.Parse] ends, with a tree or with an error, on every token
    stream: six units of fuel per token and three more are enough. *)
Theorem Parse_items_ends (fuel : nat) (txt : string) (items : list item) :
  (6 * List.length items + 3 <= fuel)%nat ->
  Parse_items fuel txt items <> OutOfFuel.
Proof.
  intros Hf.
  assert (G : good (startTree txt items)) by (unfold good; cbn; lia).
  assert (U : (unread (startTree txt items) <= List.length items)%nat)
    by apply strip_length.
  pose proof (parse_ends fuel (startTree txt items) G ltac:(lia)) as H.
  unfold Parse_items. unfold safe in H.
  destruct (parse fuel (startTree txt items)) as [[root t']|e| |];
    [discriminate | discriminate | discriminate | contradiction].
Qed.

(** [Parse] and [Format] run with fuel enough: they end with a tree, an
    error or a panic, as the code does. *)
Lemma Parse_ends (text : string) : Parse text <> OutOfFuel.
Proof.
  unfold Parse, Parse_fuel, Parse_items, enough.
  assert (G : good (startTree text (lex text))) by (unfold good; cbn; lia).
  assert (U : (unread (startTree text (lex text)) <= List.length (lex text))%nat)
    by apply strip_length.
  pose proof (parse_ends (6 * List.length (lex text) + 8) (startTree text (lex text))
                G ltac:(lia)) as H.
  unfold safe in H.
  destruct (parse (6 * List.length (lex text) + 8) (startTree text (lex text)))
    as [[root t']|e| |];
    [discriminate | discriminate | discriminate | contradiction].
Qed.

Lemma Format_ends (text : string) : Format text <> OutOfFuel.
Proof.
  pose proof (Parse_ends text) as H. unfold Format, Format_fuel, Parse in *.
  destruct (Parse_fuel (enough text) text) as [root|e| |];
    [|discriminate | discriminate | contradiction].
  unfold root_String. destruct (String_ text (NList root)); discriminate.
Qed.
End Adequacy.

(** On [open_parentheses], 200 units of fuel are within the bound. *)
Lemma Parse_items_ends_witness :
  (6 * List.length (lex open_parentheses) + 3 <= 200)%nat
  /\ Parse_items (SC := GoStrconv) 200 open_parentheses (lex open_parentheses)
     <> OutOfFuel.
Proof.
  assert (L : (6 * List.length (lex open_parentheses) + 3 <= 200)%nat)
    by (vm_compute; lia).
  split; [exact L|].
  exact (Parse_items_ends 200 open_parentheses (lex open_parentheses) L).
Defined.



(** ** The look-ahead *)

Section Lookahead.

Ltac by_cases t G :=
  destruct (good_cases t G) as [E|[E|[E|E]]];
  destruct t as [txt lx k0 k1 k2 pc al]; cbn in E; subst pc.

(** Peeking changes nothing for [next]: after [peek] has returned a token,
    [next] returns that token, and leaves the parser in the state it would
    have left it in without the peek. *)
Theorem peek_then_next (t t' : Tree) (x : item) :
  good t -> peek t = Ok (x, t') ->
  next t' = next t /\ exists t'', next t = Ok (x, t'').
Proof.
  intros G H. by_cases t G.
  - destruct lx as [|i lx]; cbn in H; injection H as <- <-;
      (split; [reflexivity | eexists; reflexivity]).
  - cbn in H; injection H as <- <-; (split; [reflexivity | eexists; reflexivity]).
  - cbn in H; injection H as <- <-; (split; [reflexivity | eexists; reflexivity]).
  - cbn in H; injection H as <- <-; (split; [reflexivity | eexists; reflexivity]).
Qed.

(** [backup] undoes [next]: the token comes again, and the state after it
    is the state [next] had left. *)
Theorem backup_undoes_next (t t1 t2 : Tree) (x : item) :
  good t -> next t = Ok (x, t1) -> backup t1 = Ok (tt, t2) ->
  next t2 = Ok (x, t1).
Proof.
  intros G H B. by_cases t G.
  - destruct lx as [|i lx]; cbn in H; injection H as <- <-;
      cbn in B; injection B as <-; reflexivity.
  - cbn in H; injection H as <- <-; cbn in B; injection B as <-; reflexivity.
  - cbn in H; injection H as <- <-; cbn in B; injection B as <-; reflexivity.
  - cbn in H; injection H as <- <-; cbn in B; injection B as <-; reflexivity.
Qed.

(** After [backup3 t2 t1] the next three tokens are [t2], [t1] and
    [token[0]], whatever the look-ahead held before; after [backup2 t1]
    the next two are [t1] and [token[0]].  After them the lexer is read
    again, at the place it was. *)
Theorem backups_replay (t : Tree) (x2 x1 : item) :
  (exists ta tb tc td,
      backup3 x2 x1 t = Ok (tt, ta)
      /\ next ta = Ok (x2, tb)
      /\ next tb = Ok (x1, tc)
      /\ next tc = Ok (token0 t, td)
      /\ peekCount td = 0 /\ lex_ td = lex_ t)
  /\ (exists ta tb tc,
        backup2 x1 t = Ok (tt, ta)
        /\ next ta = Ok (x1, tb)
        /\ next tb = Ok (token0 t, tc)
        /\ peekCount tc = 0 /\ lex_ tc = lex_ t).
Proof.
  destruct t as [txt lx k0 k1 k2 pc al]. split.
  - do 4 eexists. repeat split; reflexivity.
  - do 3 eexists. repeat split; reflexivity.
Qed.
End Lookahead.

(** The two laws on the state of [{{}}] past its left delimiter, where the
    right delimiter is backed up. *)
Lemma peek_then_next_witness :
  good at_right_delim
  /\ peek at_right_delim = Ok (mk itemRightDelim 2 "}}" 1, at_right_delim)
  /\ next at_right_delim = next at_right_delim
  /\ exists t'', next at_right_delim = Ok (mk itemRightDelim 2 "}}" 1, t'').
Proof.
  assert (G : good at_right_delim) by (unfold good; cbn; lia).
  split; [exact G|]. split; [reflexivity|].
  exact (peek_then_next at_right_delim at_right_delim (mk itemRightDelim 2 "}}" 1)
           G eq_refl).
Defined.

Lemma backup_undoes_next_witness :
  good at_right_delim
  /\ next at_right_delim
     = Ok (mk itemRightDelim 2 "}}" 1, set_peekCount 0 at_right_delim)
  /\ backup (set_peekCount 0 at_right_delim) = Ok (tt, at_right_delim)
  /\ next at_right_delim
     = Ok (mk itemRightDelim 2 "}}" 1, set_peekCount 0 at_right_delim).
Proof.
  assert (G : good at_right_delim) by (unfold good; cbn; lia).
  split; [exact G|]. split; [reflexivity|]. split; [reflexivity|].
  exact (backup_undoes_next at_right_delim (set_peekCount 0 at_right_delim)
           at_right_delim (mk itemRightDelim 2 "}}" 1) G eq_refl eq_refl).
Defined.





(** ** Numbers *)

Section Numbers.
Context {SC : Strconv}.

Lemma simplifyComplex_flags (n : NumberNode) :
  IsInt n = false -> IsUint n = false -> IsComplex n = true ->
  let n' := simplifyComplex n in
  num_Text n' = num_Text n /\ num_Pos n' = num_Pos n
  /\ integers_are_floats n' = true /\ has_value n' = true.
Proof.
  intros Hi Hu Hc. unfold simplifyComplex, integers_are_floats, has_value.
  destruct (float64_eqb (snd (Complex128 n)) zero64); cbn; rewrite ?Hi, ?Hu, ?Hc;
    repeat split; try reflexivity;
    repeat match goal with |- context [float64_eqb ?a ?b] => destruct (float64_eqb a b) end;
    reflexivity.
Qed.

(** Whatever [newNumber] returns as a number keeps the text and the
    position it was given, has at least one of the four interpretations, and
    is a float whenever it is an integer. *)
Theorem newNumber_flags (pos : Z) (text : string) (ty : itemType) (n : NumberNode) :
  newNumber pos text ty = Some (inl n) ->
  num_Text n = text /\ num_Pos n = pos
  /\ integers_are_floats n = true /\ has_value n = true.
Proof.
  unfold newNumber.
  set (n0 := mkNumber pos false false false false 0 0 zero64 (zero64, zero64) text).
  assert (Hc : forall c,
             Some (@inl NumberNode string (simplifyComplex (set_complex n0 c)))
             = Some (inl n) ->
             num_Text n = text /\ num_Pos n = pos
             /\ integers_are_floats n = true /\ has_value n = true).
  { intros c H. injection H as <-.
    apply (simplifyComplex_flags (set_complex n0 c)); reflexivity. }
  destruct ty;
    try (destruct (if ends_in_i text then ParseFloat (strings.init text) else None);
         [apply Hc|];
         cbv zeta;
         destruct (ParseUint text) as [u|]; destruct (ParseInt text) as [i|];
         try destruct (i =? 0); cbn;
         try (intros H; injection H as <-; repeat split; reflexivity);
         (destruct (ParseFloat text) as [f|]; [|discriminate]);
         (destruct (negb _); [discriminate|]);
         intros H; injection H as <-;
         unfold extract_ints, integers_are_floats, has_value; cbn;
         repeat match goal with
                | |- context [float64_eqb ?a ?b] => destruct (float64_eqb a b)
                end;
         cbn; repeat split; reflexivity).
  - (* a character constant *)
    destruct text as [|quote rest]; [discriminate|].
    destruct (UnquoteChar rest quote) as [[rune tail]|err]; [|discriminate].
    destruct (negb _); [discriminate|].
    intros H; injection H as <-. repeat split; reflexivity.
  - (* a complex number *)
    destruct (Sscan_complex128 text) as [c|err]; [apply Hc | discriminate].
Qed.
End Numbers.

(** The number [12] is an integer of both kinds and a float. *)
Lemma newNumber_flags_witness :
  newNumber (SC := GoStrconv) 0 "12" itemNumber
  = Some (inl (mkNumber 0 true true true false 12 12
                 (float64_of_int64 12) (zero64, zero64) "12"))
  /\ integers_are_floats
       (mkNumber (SC := GoStrconv) 0 true true true false 12 12
          (float64_of_int64 12) (zero64, zero64) "12") = true
  /\ has_value
       (mkNumber (SC := GoStrconv) 0 true true true false 12 12
          (float64_of_int64 12) (zero64, zero64) "12") = true.
Proof.
  split; [reflexivity|].
  exact (proj2 (proj2 (newNumber_flags (SC := GoStrconv) 0 "12" itemNumber _ eq_refl))).
Defined.

(** ** The trim flags of the nodes *)

Section Trims.
Context {SC : Strconv}.

Lemma after_bind {A B : Type} (m : M A) (k : A -> M B) (t : Tree)
      (Q : B -> Tree -> Prop) :
  after (m t) (fun a t' => after (k a t') Q) -> after (bind m k t) Q.
Proof. unfold bind, after. destruct (m t) as [[a t']|e| |]; auto. Qed.

Lemma after_weaken {A : Type} (r : result (A * Tree)) (Q Q' : A -> Tree -> Prop) :
  after r Q -> (forall a t', Q a t' -> Q' a t') -> after r Q'.
Proof. unfold after. destruct r as [[a t']|e| |]; auto. Qed.

Lemma after_any {A : Type} (r : result (A * Tree)) : after r (fun _ _ => True).
Proof. destruct r as [[a t']|e| |]; exact I. Qed.

Lemma after_next (t : Tree) : after (next t) last_read.
Proof.
  unfold next, after, last_read.
  set (t1 := if 0 <? peekCount t then _ else _).
  destruct (token t1 (peekCount t1)) eqn:E; cbn; auto.
Qed.

Lemma after_nextNonSpace_loop (n : nat) (t : Tree) :
  after (nextNonSpace_loop n t) last_read.
Proof.
  revert t. induction n as [|n IH]; intros t; cbn [nextNonSpace_loop];
    apply after_bind; (eapply after_weaken; [apply after_next|]);
    cbv beta; intros x t' H; destruct (is_space x); try exact H; try exact I.
  apply IH.
Qed.

Lemma after_nextNonSpace (t : Tree) : after (nextNonSpace t) last_read.
Proof. apply after_nextNonSpace_loop. Qed.

Lemma after_unexpected {A : Type} (tok : item) (context : string) (t : Tree)
      (Q : A -> Tree -> Prop) :
  after (unexpected tok context t) Q.
Proof. unfold unexpected. destruct (itemType_eqb _ _); exact I. Qed.

Lemma after_expect (ty : itemType) (context : string) (t : Tree) :
  after (expect ty context t) (fun x t' => last_read x t' /\ typ x = ty).
Proof.
  unfold expect. apply after_bind.
  eapply after_weaken; [apply after_nextNonSpace|]. cbv beta. intros x t' H.
  destruct (itemType_eqb (typ x) ty) eqn:E; cbn [negb].
  - split; [exact H | apply itemType_eqb_eq; exact E].
  - apply after_unexpected.
Qed.

Lemma after_stateless {A B : Type} (m : M A) (k : A -> M B) (t : Tree)
      (Q : B -> Tree -> Prop) :
  stateless m -> (forall a, after (k a t) Q) -> after (bind m k t) Q.
Proof.
  intros Hm Hk. apply after_bind. specialize (Hm t). unfold safe in Hm.
  unfold after at 1. destruct (m t) as [[a t']|e| |]; auto. subst t'. apply Hk.
Qed.

(** [pipeline] returns the token it read last, and it has the type asked
    for. *)
Lemma after_pipeline_loop (fuel : nat) (context : string) (end_ : itemType)
      (pipe : PipeNode) (t : Tree) :
  after (pipeline_loop fuel context end_ pipe t)
        (fun r t' => last_read (snd r) t' /\ typ (snd r) = end_).
Proof.
  revert pipe t. induction fuel as [|fuel IH]; intros pipe t; [exact I|].
  cbn [pipeline_loop]. unfold pipeline_loop_body.
  apply after_bind. eapply after_weaken; [apply after_nextNonSpace|].
  cbv beta. intros tok t1 H1.
  destruct (itemType_eqb (typ tok) end_) eqn:E.
  - apply after_stateless; [apply stateless_checkPipeline|]. intros _.
    split; [exact H1 | apply itemType_eqb_eq; exact E].
  - destruct (starts_operand _); [|apply after_unexpected].
    apply after_bind. cbn. apply after_bind.
    eapply after_weaken; [apply after_any|]. cbv beta. intros cmd t2 _.
    apply IH.
Qed.

Lemma after_pipeline (fuel : nat) (context : string) (end_ : itemType) (t : Tree) :
  after (pipeline fuel context end_ t)
        (fun r t' => last_read (snd r) t' /\ typ (snd r) = end_).
Proof.
  destruct fuel as [|fuel]; [exact I|].
  cbn [pipeline]. unfold pipeline_body.
  apply after_bind. eapply after_weaken; [apply after_any|]. cbv beta. intros tok t1 _.
  apply after_bind. eapply after_weaken; [apply after_any|]. cbv beta. intros p t2 _.
  apply after_pipeline_loop.
Qed.

Lemma after_branchControl (fuel : nat) (keyword : string) (tr : trim) (t : Tree) :
  after (branchControl fuel keyword tr t)
        (fun n _ => match n with
                    | NBranch b => trim_left (branch_Trim b) = trim_left tr
                    | _ => False
                    end).
Proof.
  destruct fuel as [|fuel]; [exact I|].
  cbn [branchControl]. unfold branchControl_body.
  apply after_bind. eapply after_weaken; [apply after_any|].
  cbv beta. intros [pipe tok] t1 _.
  apply after_bind. eapply after_weaken; [apply after_any|].
  cbv beta. intros [l nxt] t2 _.
  apply after_bind. eapply after_weaken; [apply after_any|].
  cbv beta. intros [elses e] t3 _. reflexivity.
Qed.

(** The nodes of [action]: an action, an else, an end or a branch, with the
    left flag of the left delimiter; the first three with the right flag of
    the right delimiter, which is the token read last. *)
Lemma action_keeps_trim (fuel : nat) (tr : trim) (t t' : Tree) (n : Node) :
  action fuel tr t = Ok (n, t') -> action_node tr n t'.
Proof.
  intros H.
  assert (A : after (action fuel tr t) (action_node tr)); [|rewrite H in A; exact A].
  clear H. destruct fuel as [|fuel]; [exact I|].
  cbn [action]. unfold action_body.
  apply after_bind. eapply after_weaken; [apply after_any|]. cbv beta. intros tok t1 _.
  assert (Hdefault :
    after ((backup ;;
            tok <- peek ;;
            '(pipe, endtok) <- pipeline fuel "command" itemRightDelim ;;
            ret (newAction (pos tok) (line tok) pipe
                   (set_right tr (trim_right (item_trim endtok))))) t1)
          (action_node tr)).
  { apply after_bind. cbn. apply after_bind.
    eapply after_weaken; [apply after_any|]. cbv beta. intros tok0 t3 _.
    apply after_bind. eapply after_weaken; [apply after_pipeline|].
    cbv beta. intros [pipe endtok] t4 [Hl Ht]. cbn [snd] in *.
    exists endtok. split; [exact Hl|]. split; [exact Ht | reflexivity]. }
  destruct (typ tok); try exact Hdefault;
    lazymatch goal with
    | |- after (elseControl _ _ _) _ =>
        unfold elseControl; apply after_bind;
        (eapply after_weaken; [apply after_any|]); cbv beta; intros pk t2 _;
        destruct (itemType_eqb _ _);
        [ apply after_bind; (eapply after_weaken; [apply after_any|]);
          cbv beta; intros tok1 t3 _;
          apply after_bind; (eapply after_weaken; [apply after_pipeline|]);
          cbv beta; intros [pipe eoptok] t4 [Hl Ht]; cbn [snd] in *;
          exists eoptok; split; [exact Hl|]; split; [exact Ht | reflexivity]
        | apply after_bind; (eapply after_weaken; [apply after_expect|]);
          cbv beta; intros tok1 t3 [Hl Ht];
          exists tok1; split; [exact Hl|]; split; [exact Ht | reflexivity] ]
    | |- after (endControl _ _) _ =>
        unfold endControl; apply after_bind;
        (eapply after_weaken; [apply after_expect|]);
        cbv beta; intros tok1 t3 [Hl Ht];
        exists tok1; split; [exact Hl|]; split; [exact Ht | reflexivity]
    | |- after (branchControl _ _ _ _) _ =>
        eapply after_weaken; [apply after_branchControl|];
        cbv beta; intros n' t2 Hn; destruct n'; try contradiction; exact Hn
    end.
Qed.

Lemma action_node_set_actionLine (opening : trim) (n : Node) (k : Z) (t : Tree) :
  action_node opening n t -> action_node opening n (set_actionLine k t).
Proof. intros H. exact H. Qed.

(** What [textOrAction] makes of its first token [first], the next token
    that is no space.  A text or a comment gives a node with the position
    and the value of the token, and nothing else of it.  A left delimiter
    gives an action, an else, an end or a branch that has the left trim flag
    of that delimiter; the first three have the right trim flag of the right
    delimiter, which is the token read last.  No other token gives a
    node. *)
Theorem textOrAction_node (fuel : nat) (t t' : Tree) (n : Node) :
  textOrAction fuel t = Ok (n, t') ->
  exists first t1,
    nextNonSpace t = Ok (first, t1)
    /\ match typ first with
       | itemText => n = NText (pos first) (val first)
       | itemComment => n = NComment (pos first) (val first)
       | itemLeftDelim => action_node (item_trim first) n t'
       | _ => False
       end.
Proof.
  destruct fuel as [|fuel]; [discriminate|].
  cbn [textOrAction]. unfold textOrAction_body, bind at 1.
  destruct (nextNonSpace t) as [[first t1]|e| |]; try discriminate.
  intros H. exists first, t1. split; [reflexivity|].
  destruct (typ first);
    try (cbn in H; injection H as <- <-; reflexivity);
    try (exfalso; revert H; unfold unexpected;
         destruct (itemType_eqb _ _); discriminate).
  (* a left delimiter *)
  cbn [bind get put] in H. unfold bind, get, put in H.
  destruct (action fuel (item_trim first) (set_actionLine (line first) t1))
    as [[n1 t2]|e| |] eqn:E; try discriminate.
  injection H as <- <-.
  apply action_node_set_actionLine.
  exact (action_keeps_trim fuel (item_trim first) _ t2 n1 E).
Qed.
End Trims.

(** ** The printer *)

Section Induction.
Context {SC : Strconv}.
Variable P : Node -> Prop.
Hypothesis on_leaf : forall n, is_leaf n = true -> P n.
Hypothesis on_list : forall l, all_list P l -> P (NList l).
Hypothesis on_pipe : forall p, all_pipe P p -> P (NPipe p).
Hypothesis on_action : forall a, all_pipe P (action_Pipe a) -> P (NAction a).
Hypothesis on_command : forall c, all_command P c -> P (NCommand c).
Hypothesis on_chain : forall c, P (chain_Node c) -> P (NChain c).
Hypothesis on_else : forall e, all_else P e -> P (NElse e).
Hypothesis on_branch : forall b, all_branch P b -> P (NBranch b).

Lemma Forall_all {A : Type} (Q : A -> Prop) (f : forall x, Q x) (l : list A) :
  Forall Q l.
Proof. induction l; constructor; auto. Defined.

(** Induction on nodes, through the lists and structs that hold them. *)
Lemma Node_induction (n : Node) : P n.
Proof.
  revert n. fix IH 1. intros n.
  assert (Hpipe : forall p : PipeNode, all_pipe P p) by
    (intros p; apply Forall_all; intros c; apply Forall_all; exact IH).
  assert (Hlist : forall l : ListNode, all_list P l) by
    (intros l; apply Forall_all; exact IH).
  assert (Helse : forall e : ElseNode, all_else P e).
  { intros e. split.
    - unfold all_guard. destruct (else_Pipe e); [apply Hpipe | exact I].
    - unfold all_body. destruct (else_List e); [apply Hlist | exact I]. }
  destruct n;
    try (apply on_leaf; reflexivity).
  - apply on_list, Hlist.
  - apply on_pipe, Hpipe.
  - apply on_action, Hpipe.
  - apply on_command. apply Forall_all. exact IH.
  - apply on_chain, IH.
  - apply on_else, Helse.
  - apply on_branch. split; [apply Hpipe|]. split; [apply Hlist|].
    apply Forall_all. exact Helse.
Qed.
End Induction.

(** *** What is written is appended *)

Section Appends.
Context {SC : Strconv}.

Lemma append_assoc (a b c : string) : (a ++ b) ++ c = a ++ (b ++ c).
Proof. induction a as [|x a IH]; cbn; [reflexivity | rewrite IH; reflexivity]. Qed.

Lemma append_nil_r (a : string) : a ++ "" = a.
Proof. induction a as [|x a IH]; cbn; [reflexivity | rewrite IH; reflexivity]. Qed.

Lemma appends_WriteString (s : string) : appends (WriteString s).
Proof. intros sb sb' H. injection H as <-. exists s. reflexivity. Qed.

Lemma appends_WriteByte (c : ascii) : appends (WriteByte c).
Proof. apply appends_WriteString. Qed.

Lemma appends_skip : appends skip.
Proof. intros sb sb' H. injection H as <-. exists "". symmetry. apply append_nil_r. Qed.

Lemma appends_set_prefix (w : string) : appends (set_prefix w).
Proof. intros sb sb' H. injection H as <-. exists "". symmetry. apply append_nil_r. Qed.

Lemma appends_set_depth (d : Z) : appends (set_depth d).
Proof. intros sb sb' H. injection H as <-. exists "". symmetry. apply append_nil_r. Qed.

Lemma appends_seq (a b : W) : appends a -> appends b -> appends (seqW a b).
Proof.
  intros Ha Hb sb sb' H. unfold seqW in H.
  destruct (a sb) as [sb1|] eqn:E; [|discriminate].
  destruct (Ha sb sb1 E) as [o1 H1]. destruct (Hb sb1 sb' H) as [o2 H2].
  exists (o1 ++ o2). rewrite H2, H1. apply append_assoc.
Qed.

Lemma appends_reading (f : printer -> W) :
  (forall sb, appends (f sb)) -> appends (reading f).
Proof. intros Hf sb sb' H. exact (Hf sb sb sb' H). Qed.

Lemma appends_need {A : Type} (x : option A) (f : A -> W) :
  (forall a, x = Some a -> appends (f a)) -> appends (need x f).
Proof.
  intros Hf sb sb' H. unfold need in H. destruct x as [a|]; [|discriminate].
  exact (Hf a eq_refl sb sb' H).
Qed.

Lemma appends_rangeW {A : Type} (f : Z -> A -> W) (l : list A) (i : Z) :
  Forall (fun x => forall i, appends (f i x)) l -> appends (rangeW f i l).
Proof.
  intros H. revert i. induction H as [|x l Hx Hl IH]; intros i; cbn [rangeW].
  - apply appends_skip.
  - apply appends_seq; [apply Hx | apply IH].
Qed.

Lemma appends_WritePrefix : appends WritePrefix.
Proof.
  unfold WritePrefix. apply appends_reading. intros sb.
  apply appends_need. intros tabs _.
  apply appends_seq; apply appends_WriteString.
Qed.

Lemma appends_VariableNode (v : VariableNode) : appends (VariableNode_writeTo v).
Proof.
  unfold VariableNode_writeTo. apply appends_rangeW.
  apply Forall_forall. intros id _ i.
  apply appends_seq; [|apply appends_WriteString].
  destruct (0 <? i); [apply appends_WriteByte | apply appends_skip].
Qed.

Lemma appends_EndNode (e : EndNode) : appends (EndNode_writeTo e).
Proof.
  unfold EndNode_writeTo.
  repeat apply appends_seq; apply appends_WriteString.
Qed.

Section Children.
Variable text : string.
Variable wr : Node -> W.

Lemma appends_ListNode (l : ListNode) :
  all_list (fun n => appends (wr n)) l -> appends (ListNode_writeTo wr l).
Proof.
  intros H. unfold ListNode_writeTo. apply appends_rangeW.
  eapply Forall_impl; [|exact H]. cbv beta. intros n Hn _. exact Hn.
Qed.

Lemma appends_arg (arg : Node) : appends (wr arg) -> appends (arg_writeTo wr arg).
Proof.
  intros H. unfold arg_writeTo. destruct arg; try exact H.
  apply appends_seq; [apply appends_WriteByte|].
  apply appends_seq; [|apply appends_WriteByte].
  apply appends_reading. intros sb.
  apply appends_seq; [apply appends_set_depth|].
  apply appends_seq; [exact H|].
  apply appends_seq; [apply appends_reading; intros sb1; apply appends_set_depth|].
  apply appends_reading. intros sb1.
  destruct (negb _); [|apply appends_skip].
  apply appends_seq; [apply appends_WriteString | apply appends_WritePrefix].
Qed.

Lemma appends_CommandNode (c : CommandNode) :
  all_command (fun n => appends (wr n)) c -> appends (CommandNode_writeTo text wr c).
Proof.
  unfold all_command, CommandNode_writeTo.
  generalize 0 at 2. generalize 0 at 2.
  induction (Args c) as [|arg l IH]; intros prevLine i H.
  - apply appends_skip.
  - inversion H as [|? ? Harg Hl]; subst.
    cbv beta iota fix.
    apply appends_need. intros line _.
    apply appends_seq.
    { destruct (0 <? i); [|apply appends_skip].
      destruct (prevLine <? line); [|apply appends_WriteByte].
      apply appends_seq; [apply appends_WriteString | apply appends_WritePrefix]. }
    apply appends_seq; [apply appends_arg; exact Harg|].
    apply IH. exact Hl.
Qed.

Lemma appends_PipeNode (p : PipeNode) :
  all_pipe (fun n => appends (wr n)) p -> appends (PipeNode_writeTo text wr p).
Proof.
  intros H. unfold PipeNode_writeTo. apply appends_seq.
  - destruct (Decl p) as [|v vs]; [apply appends_skip|].
    apply appends_seq.
    + apply appends_rangeW. apply Forall_forall. intros x _ i.
      apply appends_seq; [|apply appends_VariableNode].
      destruct (0 <? i); [apply appends_WriteString | apply appends_skip].
    + destruct (IsAssign p); apply appends_WriteString.
  - apply appends_rangeW.
    eapply Forall_impl; [|exact H]. cbv beta. intros c Hc i.
    apply appends_seq; [|apply appends_CommandNode; exact Hc].
    destruct (0 <? i); [apply appends_WriteString | apply appends_skip].
Qed.

Lemma appends_ActionNode (a : ActionNode) :
  all_pipe (fun n => appends (wr n)) (action_Pipe a) ->
  appends (ActionNode_writeTo text wr a).
Proof.
  intros H. unfold ActionNode_writeTo. apply appends_need. intros [w ok] _.
  apply appends_seq; [apply appends_set_prefix|].
  apply appends_seq; [apply appends_WriteString|].
  apply appends_reading. intros sb.
  apply appends_seq; [apply appends_set_depth|].
  apply appends_seq; [apply appends_PipeNode; exact H|].
  apply appends_seq; [apply appends_set_depth|].
  apply appends_reading. intros sb1.
  destruct (ok && _); [|apply appends_WriteString].
  apply appends_seq; [apply appends_WriteString|].
  apply appends_seq; [apply appends_WritePrefix | apply appends_WriteString].
Qed.

Lemma appends_ChainNode (c : ChainNode) :
  appends (wr (chain_Node c)) -> appends (ChainNode_writeTo wr c).
Proof.
  intros H. unfold ChainNode_writeTo. apply appends_seq.
  - destruct (chain_Node c); try exact H.
    apply appends_seq; [apply appends_WriteByte|].
    apply appends_seq; [exact H | apply appends_WriteByte].
  - apply appends_rangeW. apply Forall_forall. intros f _ i.
    apply appends_seq; [apply appends_WriteByte | apply appends_WriteString].
Qed.

Lemma appends_ElseNode (e : ElseNode) :
  all_else (fun n => appends (wr n)) e -> appends (ElseNode_writeTo text wr e).
Proof.
  intros [Hp Hl]. unfold ElseNode_writeTo.
  apply appends_seq; [apply appends_WriteString|].
  apply appends_seq; [apply appends_WriteString|].
  apply appends_seq.
  { unfold all_guard in Hp. destruct (else_Pipe e); [|apply appends_skip].
    apply appends_seq; [apply appends_WriteString | apply appends_PipeNode; exact Hp]. }
  apply appends_seq; [apply appends_WriteString|].
  unfold all_body in Hl. destruct (else_List e); [|apply appends_skip].
  apply appends_ListNode. exact Hl.
Qed.

Lemma appends_BranchNode (b : BranchNode) :
  all_branch (fun n => appends (wr n)) b -> appends (BranchNode_writeTo text wr b).
Proof.
  intros (Hp & Hl & He). unfold BranchNode_writeTo.
  apply appends_seq; [apply appends_WriteString|].
  apply appends_seq; [apply appends_WriteString|].
  apply appends_seq; [apply appends_WriteByte|].
  apply appends_seq; [apply appends_PipeNode; exact Hp|].
  apply appends_seq; [apply appends_WriteString|].
  apply appends_seq; [apply appends_ListNode; exact Hl|].
  apply appends_seq; [|apply appends_EndNode].
  apply appends_rangeW.
  eapply Forall_impl; [|exact He]. cbv beta. intros e H _.
  apply appends_ElseNode. exact H.
Qed.
End Children.

Lemma appends_writeTo (text : string) (n : Node) : appends (writeTo text n).
Proof.
  induction n using Node_induction.
  - destruct n; try discriminate; cbn [writeTo];
      try apply appends_WriteString.
    + repeat apply appends_seq; apply appends_WriteString.
    + apply appends_VariableNode.
    + apply appends_rangeW. apply Forall_forall. intros f _ i.
      apply appends_seq; [apply appends_WriteByte | apply appends_WriteString].
    + apply appends_EndNode.
  - apply appends_ListNode. assumption.
  - apply appends_PipeNode. assumption.
  - apply appends_ActionNode. assumption.
  - apply appends_CommandNode. assumption.
  - apply appends_ChainNode. assumption.
  - apply appends_ElseNode. assumption.
  - apply appends_BranchNode. assumption.
Qed.

(** Whatever node is written, and in whatever state the printer is, what
    the builder held stays, and the output of the node comes after it. *)
Theorem writeTo_appends (text : string) (n : Node) (sb sb' : printer) :
  writeTo text n sb = Some sb' -> exists out, buf sb' = buf sb ++ out.
Proof. apply appends_writeTo. Qed.
End Appends.

(** *** Actions on one line *)

Section Written.
Context {SC : Strconv}.

Lemma written_written (sb : printer) (a b : string) :
  written (written sb a) b = written sb (a ++ b).
Proof. unfold written. cbn. rewrite append_assoc. reflexivity. Qed.

Lemma written_nil (sb : printer) : written sb "" = sb.
Proof. unfold written. rewrite append_nil_r. destruct sb; reflexivity. Qed.


Lemma concat_empty_cons (a : string) (l : list string) :
  String.concat "" (a :: l) = a ++ String.concat "" l.
Proof.
  destruct l as [|b l]; cbn [String.concat].
  - rewrite append_nil_r. reflexivity.
  - reflexivity.
Qed.

Lemma following_cons (sep x : string) (l : list string) :
  following sep (x :: l) = sep ++ x ++ following sep l.
Proof.
  unfold following. cbn [List.map]. rewrite concat_empty_cons.
  apply append_assoc.
Qed.

Lemma concat_cons (sep x : string) (l : list string) :
  String.concat sep (x :: l) = x ++ following sep l.
Proof.
  revert x. induction l as [|y l IH]; intros x.
  - cbn. rewrite append_nil_r. reflexivity.
  - change (String.concat sep (x :: y :: l)) with (x ++ sep ++ String.concat sep (y :: l)).
    rewrite IH, following_cons. reflexivity.
Qed.

(** A loop that writes [g x] for each element, behind [sep] from the second
    element on, writes the elements joined by [sep]. *)
Lemma rangeW_following {A : Type} (f : Z -> A -> W) (sep : string) (g : A -> string)
      (l : list A) (i : Z) (sb : printer) :
  (forall j x sb, In x l -> i <= j -> f j x sb = Some (written sb (sep ++ g x))) ->
  rangeW f i l sb = Some (written sb (following sep (List.map g l))).
Proof.
  revert i sb. induction l as [|x l IH]; intros i sb Hf; cbn [rangeW List.map].
  - unfold skip. rewrite written_nil. reflexivity.
  - unfold seqW. rewrite (Hf i x sb (or_introl eq_refl) (Z.le_refl i)).
    rewrite IH; [|intros j y sb' Hy Hj; apply Hf; [right; exact Hy | lia]].
    rewrite written_written, following_cons, append_assoc. reflexivity.
Qed.

Lemma rangeW_joined {A : Type} (f : Z -> A -> W) (sep : string) (g : A -> string)
      (l : list A) (sb : printer) :
  (forall x sb, In x l -> f 0 x sb = Some (written sb (g x))) ->
  (forall j x sb, In x l -> 0 < j -> f j x sb = Some (written sb (sep ++ g x))) ->
  rangeW f 0 l sb = Some (written sb (String.concat sep (List.map g l))).
Proof.
  intros H0 Hf. destruct l as [|x l]; cbn [rangeW List.map].
  - unfold skip. rewrite written_nil. reflexivity.
  - unfold seqW. rewrite (H0 x sb (or_introl eq_refl)).
    rewrite (rangeW_following f sep g l (0 + 1));
      [|intros j y sb' Hy Hj; apply Hf; [right; exact Hy | lia]].
    rewrite written_written, concat_cons. reflexivity.
Qed.

Lemma VariableNode_written (v : VariableNode) (sb : printer) :
  VariableNode_writeTo v sb = Some (written sb (variable_text v)).
Proof.
  unfold VariableNode_writeTo, variable_text.
  rewrite <- (map_id (var_Ident v)) at 2.
  apply rangeW_joined.
  - intros x sb' _. reflexivity.
  - intros j x sb' _ Hj. apply Z.ltb_lt in Hj. rewrite Hj.
    unfold seqW, WriteByte, WriteString, written. cbn.
    rewrite append_assoc. reflexivity.
Qed.

Section Document.
Variable text : string.

Lemma word_written (n : Node) (sb : printer) :
  is_word n = true ->
  arg_writeTo (writeTo text) n sb = Some (written sb (word n)).
Proof.
  unfold is_word, word. destruct n; cbn [operand_text]; try discriminate; intros _;
    cbn [arg_writeTo writeTo]; try reflexivity.
  - apply VariableNode_written.
  - (* a field *)
    pose proof (rangeW_following
                  (fun (_ : Z) (id : string) => seqW (WriteByte ".") (WriteString id))
                  "." (fun id => id) Ident 0 sb) as R.
    rewrite map_id in R. apply R.
    intros j x sb' _ _. unfold seqW, WriteByte, WriteString, written. cbn.
    rewrite append_assoc. reflexivity.
Qed.

Lemma CommandNode_write_args (c : CommandNode) :
  CommandNode_writeTo text (writeTo text) c = write_args text 0 0 (Args c).
Proof. reflexivity. Qed.

Lemma write_args_following (l : list Node) (i k : Z) (sb : printer) :
  0 < i ->
  forallb is_word l = true ->
  forallb (fun a => match lineno text a with
                    | Some k' => k' =? k
                    | None => false
                    end) l = true ->
  write_args text i k l sb = Some (written sb (following " " (List.map word l))).
Proof.
  revert i sb. induction l as [|arg l IH]; intros i sb Hi Hw Hl;
    cbn [write_args List.map].
  - unfold skip. rewrite written_nil. reflexivity.
  - cbn [forallb] in Hw, Hl.
    apply andb_true_iff in Hw. destruct Hw as [Hw Hws].
    apply andb_true_iff in Hl. destruct Hl as [Hk Hls].
    destruct (lineno text arg) as [k'|]; [|discriminate].
    apply Z.eqb_eq in Hk. subst k'.
    unfold need, seqW.
    apply Z.ltb_lt in Hi. rewrite Hi, Z.ltb_irrefl.
    unfold WriteByte at 1, WriteString at 1.
    rewrite (word_written arg _ Hw).
    rewrite IH; [|apply Z.ltb_lt in Hi; lia|exact Hws|exact Hls].
    rewrite written_written.
    change (mkPrinter (buf sb ++ str1 " ") (prefix sb) (depth sb))
      with (written sb " ").
    rewrite written_written, following_cons. reflexivity.
Qed.

Lemma command_written (c : CommandNode) (sb : printer) :
  flat_command text c = true ->
  CommandNode_writeTo text (writeTo text) c sb = Some (written sb (command_text c)).
Proof.
  unfold flat_command, command_text. rewrite CommandNode_write_args.
  intros H. apply andb_true_iff in H. destruct H as [Hw Hl].
  destruct (Args c) as [|arg l]; cbn [write_args List.map].
  - unfold skip. rewrite written_nil. reflexivity.
  - unfold same_line in Hl.
    destruct (lineno text arg) as [k|] eqn:Ek; [|discriminate].
    cbn [forallb] in Hw, Hl. rewrite Ek in Hl.
    apply andb_true_iff in Hw. destruct Hw as [Hw Hws].
    apply andb_true_iff in Hl. destruct Hl as [_ Hls].
    unfold need, seqW. cbn [Z.ltb Z.compare]. unfold skip.
    rewrite (word_written arg _ Hw).
    rewrite (write_args_following l (0 + 1) k); [|lia|exact Hws|exact Hls].
    rewrite written_written, concat_cons. reflexivity.
Qed.

Lemma seqW_some (a b : W) (sb sb1 : printer) (r : option printer) :
  a sb = Some sb1 -> b sb1 = r -> seqW a b sb = r.
Proof. intros Ha Hb. unfold seqW. rewrite Ha. exact Hb. Qed.

Lemma pipe_written (p : PipeNode) (sb : printer) :
  flat_pipe text p = true ->
  PipeNode_writeTo text (writeTo text) p sb = Some (written sb (pipe_text p)).
Proof.
  intros H. unfold PipeNode_writeTo, pipe_text.
  apply (seqW_some _ _ sb (written sb (declarations_text p))).
  - unfold declarations_text. destruct (Decl p) as [|v vs] eqn:Ed.
    + unfold skip. rewrite written_nil. reflexivity.
    + apply (seqW_some _ _ sb
               (written sb (String.concat ", " (List.map variable_text (v :: vs))))).
      * apply rangeW_joined.
        -- intros x sb' _. cbn [Z.ltb Z.compare].
           apply (seqW_some _ _ sb' sb'); [reflexivity|].
           apply VariableNode_written.
        -- intros j x sb' _ Hj. apply Z.ltb_lt in Hj. rewrite Hj.
           apply (seqW_some _ _ sb' (written sb' ", ")); [reflexivity|].
           rewrite VariableNode_written, written_written. reflexivity.
      * destruct (IsAssign p); unfold WriteString; rewrite <- written_written;
          reflexivity.
  - rewrite (rangeW_joined _ " | " command_text).
    + rewrite written_written. reflexivity.
    + intros c sb' Hc. cbn [Z.ltb Z.compare].
      apply (seqW_some _ _ sb' sb'); [reflexivity|].
      apply command_written. unfold flat_pipe in H.
      rewrite forallb_forall in H. apply H. exact Hc.
    + intros j c sb' Hc Hj. apply Z.ltb_lt in Hj. rewrite Hj.
      apply (seqW_some _ _ sb' (written sb' " | ")); [reflexivity|].
      rewrite command_written;
        [|unfold flat_pipe in H; rewrite forallb_forall in H; apply H; exact Hc].
      rewrite written_written. reflexivity.
Qed.

Lemma Count_nl_app (a b : string) :
  strings.Count (a ++ b) nl = strings.Count a nl + strings.Count b nl.
Proof.
  unfold strings.Count. induction a as [|c a IH]; [reflexivity|].
  cbn [append strings.count_from nl str1 strings.HasPrefix String.length Nat.sub].
  assert (E : forall s, strings.HasPrefix s "" = true) by (intros []; reflexivity).
  rewrite !E, andb_true_r, IH. destruct (Ascii.eqb newline c); lia.
Qed.

Lemma eqb_add_self (x c : Z) : (x =? x + c) = (c =? 0).
Proof.
  destruct (c =? 0) eqn:E.
  - apply Z.eqb_eq in E. apply Z.eqb_eq. lia.
  - apply Z.eqb_neq in E. apply Z.eqb_neq. lia.
Qed.

(** An action whose pipeline has only plain operands, those of a command
    on one line, is written as its left delimiter, the variables it
    declares, the commands joined by [" | "] with their operands joined by
    single spaces, and its right delimiter; whatever the printer held
    before stays, and the printer is left with the prefix of the action and
    depth 0.  The delimiters are those of the action's trim flags. *)
Theorem flat_action_written (a : ActionNode) (sb : printer) (w : string) (ok : bool) :
  whitespacePrefix text (NAction a) "{{" = Some (w, ok) ->
  flat_pipe text (action_Pipe a) = true ->
  writeTo text (NAction a) sb
  = Some (mkPrinter
            (buf sb ++ leftDelim (action_Trim a) ++ pipe_text (action_Pipe a)
             ++ closing (action_Trim a) w ok (pipe_text (action_Pipe a)))
            w 0).
Proof.
  intros Hw Hflat. cbn [writeTo]. unfold ActionNode_writeTo, need. rewrite Hw.
  apply (seqW_some _ _ sb (mkPrinter (buf sb) w (depth sb))); [reflexivity|].
  apply (seqW_some _ _ _
           (mkPrinter (buf sb ++ leftDelim (action_Trim a)) w (depth sb)));
    [reflexivity|].
  unfold reading at 1.
  apply (seqW_some _ _ _ (mkPrinter (buf sb ++ leftDelim (action_Trim a)) w 1));
    [reflexivity|].
  apply (seqW_some _ _ _
           (written (mkPrinter (buf sb ++ leftDelim (action_Trim a)) w 1)
              (pipe_text (action_Pipe a))));
    [apply pipe_written; exact Hflat|].
  apply (seqW_some _ _ _
           (mkPrinter ((buf sb ++ leftDelim (action_Trim a))
                       ++ pipe_text (action_Pipe a)) w 0));
    [reflexivity|].
  unfold reading, newlines. cbn [buf].
  rewrite (Count_nl_app (buf sb ++ leftDelim (action_Trim a))
             (pipe_text (action_Pipe a))).
  rewrite eqb_add_self. unfold closing.
  destruct (ok && negb (strings.Count (pipe_text (action_Pipe a)) nl =? 0)).
  - unfold WriteString, WritePrefix, reading, need, seqW. cbn.
    rewrite append_nil_r, !append_assoc. reflexivity.
  - unfold WriteString. cbn. rewrite !append_assoc. reflexivity.
Qed.
End Document.
End Written.

(** *** The delimiters of a branch *)

Section Delimiters.
Context {SC : Strconv}.
Variable text : string.

Lemma seqW_inv (a b : W) (sb sb' : printer) :
  seqW a b sb = Some sb' -> exists sb1, a sb = Some sb1 /\ b sb1 = Some sb'.
Proof.
  unfold seqW. destruct (a sb) as [sb1|]; [|discriminate].
  intros H. exists sb1. split; [reflexivity | exact H].
Qed.

Lemma all_pipe_appends (p : PipeNode) : all_pipe (fun n => appends (writeTo text n)) p.
Proof.
  apply Forall_forall. intros c _. apply Forall_forall. intros n _. apply appends_writeTo.
Qed.

Lemma all_list_appends (l : ListNode) : all_list (fun n => appends (writeTo text n)) l.
Proof. apply Forall_forall. intros n _. apply appends_writeTo. Qed.

Lemma all_else_appends (e : ElseNode) : all_else (fun n => appends (writeTo text n)) e.
Proof.
  split.
  - unfold all_guard. destruct (else_Pipe e); [apply all_pipe_appends | exact I].
  - unfold all_body. destruct (else_List e); [apply all_list_appends | exact I].
Qed.

(** A branch that is written is written in this order: its left
    delimiter, its keyword and a space; what its guard pipeline writes
    next; its right delimiter; what its list writes; what its else parts
    write, one after the other; and the end, between the delimiters of the
    end.  Each part is written by the part's own [writeTo], on the
    printer the parts before it have left.  The delimiters are those of
    the trim flags of the nodes. *)
Theorem branch_written (b : BranchNode) (sb sb' : printer) :
  writeTo text (NBranch b) sb = Some sb' ->
  exists sb1 sb2 sb3 guard body elses,
    writeTo text (NPipe (branch_Pipe b))
      (written sb (leftDelim (branch_Trim b) ++ Keyword b ++ " ")) = Some sb1
    /\ buf sb1 = buf sb ++ leftDelim (branch_Trim b) ++ Keyword b ++ " " ++ guard
    /\ writeTo text (NList (branch_List b))
         (written sb1 (rightDelim (branch_Trim b))) = Some sb2
    /\ buf sb2 = buf sb1 ++ rightDelim (branch_Trim b) ++ body
    /\ rangeW (fun _ e => writeTo text (NElse e)) 0 (Elses b) sb2 = Some sb3
    /\ buf sb3 = buf sb2 ++ elses
    /\ sb' = written sb3 (leftDelim (end_Trim (End b)) ++ "end"
                          ++ rightDelim (end_Trim (End b)))
    /\ buf sb' = buf sb ++ leftDelim (branch_Trim b) ++ Keyword b ++ " " ++ guard
                 ++ rightDelim (branch_Trim b) ++ body ++ elses
                 ++ leftDelim (end_Trim (End b)) ++ "end"
                 ++ rightDelim (end_Trim (End b)).
Proof.
  cbn [writeTo]. unfold BranchNode_writeTo. intros H.
  apply seqW_inv in H. destruct H as (s1 & H1 & H).
  apply seqW_inv in H. destruct H as (s2 & H2 & H).
  apply seqW_inv in H. destruct H as (s3 & H3 & H).
  apply seqW_inv in H. destruct H as (s4 & H4 & H).
  apply seqW_inv in H. destruct H as (s5 & H5 & H).
  apply seqW_inv in H. destruct H as (s6 & H6 & H).
  apply seqW_inv in H. destruct H as (s7 & H7 & H).
  injection H1 as <-. injection H2 as <-. injection H3 as <-.
  match type of H4 with
  | PipeNode_writeTo _ _ _ ?p = _ =>
      replace p with (written sb (leftDelim (branch_Trim b) ++ Keyword b ++ " "))
        in H4
        by (unfold written, WriteByte, WriteString, str1; cbn [buf prefix depth];
            rewrite !append_assoc; reflexivity)
  end.
  destruct (appends_PipeNode text _ _ (all_pipe_appends (branch_Pipe b)) _ _ H4)
    as [guard Hg].
  injection H5 as <-. fold (written s4 (rightDelim (branch_Trim b))) in H6.
  destruct (appends_ListNode _ _ (all_list_appends (branch_List b)) _ _ H6)
    as [body Hb].
  assert (He : appends (rangeW (fun _ e => ElseNode_writeTo text (writeTo text) e)
                          0 (Elses b))).
  { apply appends_rangeW. apply Forall_forall. intros e _ _.
    apply appends_ElseNode, all_else_appends. }
  destruct (He _ _ H7) as [elses Hel].
  unfold EndNode_writeTo, seqW, WriteString in H. injection H as <-.
  cbn [buf prefix depth] in *.
  exists s4, s6, s7, guard, body, elses.
  unfold written in Hg, Hb. cbn [buf] in Hg, Hb.
  split; [exact H4|].
  split; [rewrite Hg, !append_assoc; reflexivity|].
  split; [exact H6|].
  split; [rewrite Hb, !append_assoc; reflexivity|].
  split; [exact H7|].
  split; [exact Hel|].
  split; [unfold written; rewrite !append_assoc; reflexivity|].
  rewrite Hel, Hb, Hg, !append_assoc. reflexivity.
Qed.
End Delimiters.


(** ** The printer on the trees of the parser *)

Section Total.
Context {SC : Strconv}.

Lemma steady_total (w : W) : steady w -> total w.
Proof.
  intros H sb Hd. destruct (H sb Hd) as (sb' & E & D).
  exists sb'. split; [exact E | lia].
Qed.

Lemma steady_WriteString (s : string) : steady (WriteString s).
Proof. intros sb _. eexists. split; reflexivity. Qed.

Lemma steady_WriteByte (c : ascii) : steady (WriteByte c).
Proof. apply steady_WriteString. Qed.

Lemma steady_skip : steady skip.
Proof. intros sb _. eexists. split; reflexivity. Qed.

Lemma steady_seq (a b : W) : steady a -> steady b -> steady (seqW a b).
Proof.
  intros Ha Hb sb Hd. unfold seqW.
  destruct (Ha sb Hd) as (sb1 & E1 & D1). rewrite E1.
  destruct (Hb sb1) as (sb2 & E2 & D2); [lia|].
  exists sb2. split; [exact E2 | lia].
Qed.

Lemma total_seq (a b : W) : total a -> total b -> total (seqW a b).
Proof.
  intros Ha Hb sb Hd. unfold seqW.
  destruct (Ha sb Hd) as (sb1 & E1 & D1). rewrite E1.
  exact (Hb sb1 D1).
Qed.

Lemma steady_rangeW {A : Type} (f : Z -> A -> W) (l : list A) (i : Z) :
  Forall (fun x => forall i, steady (f i x)) l -> steady (rangeW f i l).
Proof.
  intros H. revert i. induction H as [|x l Hx Hl IH]; intros i; cbn [rangeW].
  - apply steady_skip.
  - apply steady_seq; [apply Hx | apply IH].
Qed.

Lemma total_rangeW {A : Type} (f : Z -> A -> W) (l : list A) (i : Z) :
  Forall (fun x => forall i, total (f i x)) l -> total (rangeW f i l).
Proof.
  intros H. revert i. induction H as [|x l Hx Hl IH]; intros i; cbn [rangeW].
  - apply steady_total, steady_skip.
  - apply total_seq; [apply Hx | apply IH].
Qed.

Lemma steady_WritePrefix : steady WritePrefix.
Proof.
  intros sb Hd. unfold WritePrefix, reading, need, strings.Repeat.
  destruct (depth sb <? 0) eqn:E; [apply Z.ltb_lt in E; lia|].
  eexists. split; reflexivity.
Qed.

Lemma steady_VariableNode (v : VariableNode) : steady (VariableNode_writeTo v).
Proof.
  unfold VariableNode_writeTo. apply steady_rangeW.
  apply Forall_forall. intros id _ i.
  apply steady_seq; [|apply steady_WriteString].
  destruct (0 <? i); [apply steady_WriteByte | apply steady_skip].
Qed.

Lemma steady_EndNode (e : EndNode) : steady (EndNode_writeTo e).
Proof.
  unfold EndNode_writeTo. repeat apply steady_seq; apply steady_WriteString.
Qed.

(** *** Slices that are in range *)

Lemma length_drop (n : nat) (s : string) :
  String.length (strings.drop n s) = (String.length s - n)%nat.
Proof.
  revert s. induction n as [|n IH]; intros s; cbn [strings.drop].
  - lia.
  - destruct s as [|c s]; cbn [String.length]; [reflexivity | apply IH].
Qed.

Lemma length_take (n : nat) (s : string) :
  String.length (strings.take n s) = Nat.min n (String.length s).
Proof.
  revert s. induction n as [|n IH]; intros s; cbn [strings.take].
  - reflexivity.
  - destruct s as [|c s]; cbn [String.length]; [reflexivity | rewrite IH; reflexivity].
Qed.

Lemma slice_in_range (s : string) (lo hi : Z) :
  0 <= lo -> lo <= hi -> hi <= strings.len s ->
  exists r, strings.slice s lo hi = Some r /\ strings.len r = hi - lo.
Proof.
  intros H0 H1 H2. unfold strings.slice.
  apply Z.leb_le in H0 as E0. apply Z.leb_le in H1 as E1. apply Z.leb_le in H2 as E2.
  rewrite E0, E1, E2. cbn [andb]. eexists. split; [reflexivity|].
  unfold strings.len in *. rewrite length_take, length_drop. lia.
Qed.

(** The last index of a newline is before the end. *)
Lemma last_index_from_nl (s : string) (i found : Z) :
  let r := strings.last_index_from i found s nl in
  r = found \/ (i <= r /\ r < i + strings.len s).
Proof.
  revert i found. induction s as [|c s IH]; intros i found; cbn zeta.
  - left. reflexivity.
  - cbn [strings.last_index_from].
    set (f := if strings.HasPrefix (String c s) nl then i else found).
    specialize (IH (i + 1) f). cbn zeta in IH.
    unfold strings.len in *. cbn [String.length].
    destruct IH as [IH|IH].
    + rewrite IH. unfold f.
      destruct (strings.HasPrefix (String c s) nl); [right; lia | left; reflexivity].
    + right. lia.
Qed.

Lemma LastIndex_nl (s : string) :
  -1 <= strings.LastIndex s nl /\ strings.LastIndex s nl < strings.len s.
Proof.
  unfold strings.LastIndex.
  pose proof (last_index_from_nl s 0 (-1)) as H. cbn zeta in H.
  unfold strings.len in *. lia.
Qed.

(** The last index of any string is at most the length. *)
Lemma last_index_from_le (s sub : string) (i found : Z) :
  let r := strings.last_index_from i found s sub in
  r = found \/ (i <= r /\ r <= i + strings.len s).
Proof.
  revert i found. induction s as [|c s IH]; intros i found; cbn zeta.
  - cbn [strings.last_index_from]. unfold strings.len. cbn [String.length].
    destruct (strings.HasPrefix "" sub); [right; lia | left; reflexivity].
  - cbn [strings.last_index_from].
    set (f := if strings.HasPrefix (String c s) sub then i else found).
    specialize (IH (i + 1) f). cbn zeta in IH.
    unfold strings.len in *. cbn [String.length].
    destruct IH as [IH|IH].
    + rewrite IH. unfold f.
      destruct (strings.HasPrefix (String c s) sub); [right; lia | left; reflexivity].
    + right. lia.
Qed.

Lemma LastIndex_le (s sub : string) :
  -1 <= strings.LastIndex s sub /\ strings.LastIndex s sub <= strings.len s.
Proof.
  unfold strings.LastIndex.
  pose proof (last_index_from_le s sub 0 (-1)) as H. cbn zeta in H.
  unfold strings.len in *. lia.
Qed.

Section Within.
Variable text : string.

Lemma lineno_in_text (n : Node) :
  in_text text (Position n) = true -> exists k, lineno text n = Some k.
Proof.
  unfold in_text, lineno. intros H. apply andb_true_iff in H. destruct H as [H0 H1].
  apply Z.leb_le in H0. apply Z.leb_le in H1.
  destruct (slice_in_range text 0 (Position n)) as (r & E & _); try lia.
  rewrite E. eexists. reflexivity.
Qed.

(** Past the first byte of the text, the white space in front of a node
    can be looked for. *)
Lemma whitespacePrefix_in_text (n : Node) (ltok : string) :
  1 <= Position n -> Position n <= strings.len text ->
  exists r, whitespacePrefix text n ltok = Some r.
Proof.
  intros H1 H2. unfold whitespacePrefix. cbv zeta.
  destruct (slice_in_range text 0 (Position n)) as (before & E & L); try lia.
  rewrite E.
  pose proof (LastIndex_nl before) as [B0 B1].
  set (start := if strings.LastIndex before nl <? 0 then 0
                else strings.LastIndex before nl).
  assert (S0 : 0 <= start /\ start + 1 <= Position n).
  { unfold start. destruct (strings.LastIndex before nl <? 0) eqn:El.
    - lia.
    - apply Z.ltb_ge in El. lia. }
  destruct (slice_in_range text (start + 1) (Position n)) as (line & E1 & L1);
    try lia.
  rewrite E1.
  destruct (strings.LastIndex line ltok <? 0) eqn:Et; [eexists; reflexivity|].
  apply Z.ltb_ge in Et.
  pose proof (LastIndex_le line ltok) as [T0 T1].
  destruct (slice_in_range line 0 (strings.LastIndex line ltok)) as (w & E2 & L2);
    try lia.
  rewrite E2. destruct (negb _); eexists; reflexivity.
Qed.

Section Parts.
Variable wr : Node -> W.

Lemma total_ListNode (l : ListNode) :
  Forall (fun n => total (wr n)) (Nodes l) -> total (ListNode_writeTo wr l).
Proof.
  intros H. unfold ListNode_writeTo. apply total_rangeW.
  eapply Forall_impl; [|exact H]. cbv beta. intros n Hn _. exact Hn.
Qed.

Lemma steady_arg (arg : Node) : steady (wr arg) -> steady (arg_writeTo wr arg).
Proof.
  intros H. unfold arg_writeTo. destruct arg; try exact H.
  apply steady_seq; [apply steady_WriteByte|].
  apply steady_seq; [|apply steady_WriteByte].
  intros sb Hd. unfold reading at 1, seqW at 1, set_depth at 1.
  destruct (H (mkPrinter (buf sb) (prefix sb) (depth sb + 1))) as (sb1 & E1 & D1);
    [cbn; lia|].
  cbn [depth] in D1. unfold seqW at 1. rewrite E1.
  unfold seqW at 1, reading at 1, set_depth. unfold reading.
  destruct (negb _).
  - destruct (steady_seq _ _ (steady_WriteString nl) steady_WritePrefix
                (mkPrinter (buf sb1) (prefix sb1) (depth sb1 - 1)))
      as (sb2 & E2 & D2); [cbn; lia|].
    exists sb2. split; [exact E2|]. cbn [depth] in D2. lia.
  - eexists. split; [reflexivity|]. cbn [depth]. lia.
Qed.

Lemma steady_CommandNode (c : CommandNode) :
  Forall (fun arg => in_text text (Position arg) = true /\ steady (wr arg)) (Args c) ->
  steady (CommandNode_writeTo text wr c).
Proof.
  unfold CommandNode_writeTo.
  generalize 0 at 2. generalize 0 at 2.
  induction (Args c) as [|arg l IH]; intros prevLine i H.
  - apply steady_skip.
  - inversion H as [|? ? [Hpos Harg] Hl]; subst.
    cbv beta iota fix.
    destruct (lineno_in_text arg Hpos) as [k Ek]. rewrite Ek. unfold need.
    apply steady_seq.
    { destruct (0 <? i); [|apply steady_skip].
      destruct (prevLine <? k); [|apply steady_WriteByte].
      apply steady_seq; [apply steady_WriteString | apply steady_WritePrefix]. }
    apply steady_seq; [apply steady_arg; exact Harg|].
    apply IH. exact Hl.
Qed.

Lemma steady_PipeNode (p : PipeNode) :
  Forall (steady_command text wr) (Cmds p) -> steady (PipeNode_writeTo text wr p).
Proof.
  intros H. unfold PipeNode_writeTo. apply steady_seq.
  - destruct (Decl p) as [|v vs]; [apply steady_skip|].
    apply steady_seq.
    + apply steady_rangeW. apply Forall_forall. intros x _ i.
      apply steady_seq; [|apply steady_VariableNode].
      destruct (0 <? i); [apply steady_WriteString | apply steady_skip].
    + destruct (IsAssign p); apply steady_WriteString.
  - apply steady_rangeW.
    eapply Forall_impl; [|exact H]. cbv beta. intros c Hc i.
    apply steady_seq; [|apply steady_CommandNode; exact Hc].
    destruct (0 <? i); [apply steady_WriteString | apply steady_skip].
Qed.

Lemma total_ActionNode (a : ActionNode) :
  1 <= action_Pos a -> action_Pos a <= strings.len text ->
  Forall (steady_command text wr) (Cmds (action_Pipe a)) ->
  total (ActionNode_writeTo text wr a).
Proof.
  intros H1 H2 H sb Hd. unfold ActionNode_writeTo.
  destruct (whitespacePrefix_in_text (NAction a) "{{" H1 H2) as [[w ok] E].
  rewrite E. unfold need.
  unfold seqW at 1, set_prefix at 1. unfold seqW at 1, WriteString at 1.
  unfold reading at 1. unfold seqW at 1, set_depth at 1.
  destruct (steady_PipeNode (action_Pipe a) H
              (mkPrinter (buf sb ++ leftDelim (action_Trim a)) w 1))
    as (sb1 & E1 & D1); [cbn; lia|].
  cbn [buf prefix depth] in *. unfold seqW at 1. rewrite E1.
  unfold seqW at 1, set_depth at 1. unfold reading.
  destruct (ok && _).
  - destruct (steady_seq _ _ (steady_WriteString nl)
                (steady_seq _ _ steady_WritePrefix
                   (steady_WriteString (rightDelimNoSpace (action_Trim a))))
                (mkPrinter (buf sb1) (prefix sb1) 0))
      as (sb2 & E2 & D2); [cbn; lia|].
    exists sb2. split; [exact E2|]. cbn [depth] in D2. lia.
  - eexists. split; [reflexivity|]. cbn. lia.
Qed.

Lemma steady_ChainNode (c : ChainNode) :
  steady (wr (chain_Node c)) -> steady (ChainNode_writeTo wr c).
Proof.
  intros H. unfold ChainNode_writeTo. apply steady_seq.
  - destruct (chain_Node c); try exact H.
    apply steady_seq; [apply steady_WriteByte|].
    apply steady_seq; [exact H | apply steady_WriteByte].
  - apply steady_rangeW. apply Forall_forall. intros f _ i.
    apply steady_seq; [apply steady_WriteByte | apply steady_WriteString].
Qed.

Lemma total_ElseNode (e : ElseNode) :
  total_else text wr e -> total (ElseNode_writeTo text wr e).
Proof.
  intros [Hp Hl]. unfold ElseNode_writeTo.
  apply total_seq; [apply steady_total, steady_WriteString|].
  apply total_seq; [apply steady_total, steady_WriteString|].
  apply total_seq.
  { apply steady_total. destruct (else_Pipe e); [|apply steady_skip].
    apply steady_seq; [apply steady_WriteString | apply steady_PipeNode; exact Hp]. }
  apply total_seq; [apply steady_total, steady_WriteString|].
  destruct (else_List e); [|apply steady_total, steady_skip].
  apply total_ListNode. exact Hl.
Qed.

Lemma total_BranchNode (b : BranchNode) :
  Forall (steady_command text wr) (Cmds (branch_Pipe b)) ->
  Forall (fun n => total (wr n)) (Nodes (branch_List b)) ->
  Forall (total_else text wr) (Elses b) ->
  total (BranchNode_writeTo text wr b).
Proof.
  intros Hp Hl He. unfold BranchNode_writeTo.
  apply total_seq; [apply steady_total, steady_WriteString|].
  apply total_seq; [apply steady_total, steady_WriteString|].
  apply total_seq; [apply steady_total, steady_WriteByte|].
  apply total_seq; [apply steady_total, steady_PipeNode; exact Hp|].
  apply total_seq; [apply steady_total, steady_WriteString|].
  apply total_seq; [apply total_ListNode; exact Hl|].
  apply total_seq; [|apply steady_total, steady_EndNode].
  apply total_rangeW.
  eapply Forall_impl; [|exact He]. cbv beta. intros e H _.
  apply total_ElseNode. exact H.
Qed.
End Parts.

Lemma writes_command (c : CommandNode) :
  all_command (writes text) c -> placed_command text (placed text) c = true ->
  steady_command text (writeTo text) c.
Proof.
  unfold all_command, placed_command, steady_command. intros H Hp.
  rewrite forallb_forall in Hp. rewrite Forall_forall in H.
  apply Forall_forall. intros arg Hin.
  specialize (Hp arg Hin). apply andb_true_iff in Hp. destruct Hp as [Hp Hb].
  apply andb_true_iff in Hp. destruct Hp as [Hpos He].
  split; [exact Hpos|]. exact (proj2 (H arg Hin Hb) He).
Qed.

Lemma writes_pipe (p : PipeNode) :
  all_pipe (writes text) p -> placed_pipe text (placed text) p = true ->
  Forall (steady_command text (writeTo text)) (Cmds p).
Proof.
  unfold all_pipe, placed_pipe. intros H Hp.
  rewrite forallb_forall in Hp. rewrite Forall_forall in H.
  apply Forall_forall. intros c Hin.
  apply writes_command; [apply H; exact Hin | apply Hp; exact Hin].
Qed.

Lemma writes_list (l : ListNode) :
  all_list (writes text) l -> placed_list (placed text) l = true ->
  Forall (fun n => total (writeTo text n)) (Nodes l).
Proof.
  unfold all_list, placed_list. intros H Hp.
  rewrite forallb_forall in Hp. rewrite Forall_forall in H.
  apply Forall_forall. intros n Hin. exact (proj1 (H n Hin (Hp n Hin))).
Qed.

Lemma writes_else (e : ElseNode) :
  all_else (writes text) e -> placed_else text (placed text) e = true ->
  total_else text (writeTo text) e.
Proof.
  unfold all_else, all_guard, all_body, placed_else, total_else.
  intros [Hg Hb] Hp. apply andb_true_iff in Hp. destruct Hp as [Hp1 Hp2]. split.
  - destruct (else_Pipe e); [apply writes_pipe; assumption | exact I].
  - destruct (else_List e); [apply writes_list; assumption | exact I].
Qed.

Lemma writes_all (n : Node) : writes text n.
Proof.
  induction n using Node_induction; unfold writes.
  - (* the leaves *)
    intros _.
    assert (S : steady (writeTo text n)).
    { destruct n; try discriminate; cbn [writeTo];
        try apply steady_WriteString.
      + repeat apply steady_seq; apply steady_WriteString.
      + apply steady_VariableNode.
      + apply steady_rangeW. apply Forall_forall. intros f _ i.
        apply steady_seq; [apply steady_WriteByte | apply steady_WriteString].
      + apply steady_EndNode. }
    split; [apply steady_total; exact S | intros _; exact S].
  - cbn [placed writeTo is_expression]. intros Hp.
    split; [|discriminate]. apply total_ListNode, writes_list; assumption.
  - cbn [placed writeTo is_expression]. intros Hp.
    assert (S : steady (PipeNode_writeTo text (writeTo text) p))
      by (apply steady_PipeNode, writes_pipe; assumption).
    split; [apply steady_total; exact S | intros _; exact S].
  - cbn [placed writeTo is_expression]. intros Hp.
    apply andb_true_iff in Hp. destruct Hp as [Hp Hpipe].
    apply andb_true_iff in Hp. destruct Hp as [H1 H2].
    apply Z.leb_le in H1. apply Z.leb_le in H2.
    split; [|discriminate].
    apply total_ActionNode; [exact H1 | exact H2 | apply writes_pipe; assumption].
  - cbn [placed writeTo is_expression]. intros Hp.
    assert (S : steady (CommandNode_writeTo text (writeTo text) c))
      by (apply steady_CommandNode, writes_command; assumption).
    split; [apply steady_total; exact S | intros _; exact S].
  - cbn [placed writeTo is_expression]. intros Hp.
    apply andb_true_iff in Hp. destruct Hp as [He Hp].
    assert (S : steady (ChainNode_writeTo (writeTo text) c))
      by (apply steady_ChainNode; exact (proj2 (IHn Hp) He)).
    split; [apply steady_total; exact S | intros _; exact S].
  - cbn [placed writeTo is_expression]. intros Hp.
    split; [|discriminate]. apply total_ElseNode, writes_else; assumption.
  - cbn [placed writeTo is_expression]. intros Hp.
    destruct H as (Hpipe & Hlist & Helses).
    unfold placed_branch in Hp.
    apply andb_true_iff in Hp. destruct Hp as [Hp Hp3].
    apply andb_true_iff in Hp. destruct Hp as [Hp1 Hp2].
    split; [|discriminate].
    apply total_BranchNode.
    + apply writes_pipe; assumption.
    + apply writes_list; assumption.
    + rewrite forallb_forall in Hp3. rewrite Forall_forall in Helses.
      apply Forall_forall. intros e Hin.
      apply writes_else; [apply Helses; exact Hin | apply Hp3; exact Hin].
Qed.

(** At the first byte of the text the white space in front of a node is
    looked for in [txt[1:0]], which is a panic; so is the writing of an
    action there. *)
Theorem action_at_start_panics (a : ActionNode) (sb : printer) :
  action_Pos a = 0 -> writeTo text (NAction a) sb = None.
Proof.
  intros H. cbn [writeTo]. unfold ActionNode_writeTo, need, whitespacePrefix.
  cbn [Position]. rewrite H. cbv zeta.
  destruct (slice_in_range text 0 0) as (before & E & L);
    [lia | lia | unfold strings.len; lia |].
  rewrite E.
  assert (Hb : before = "").
  { destruct before; [reflexivity|]. unfold strings.len in L. cbn in L. lia. }
  subst before. cbn [strings.LastIndex strings.last_index_from strings.HasPrefix nl str1].
  reflexivity.
Qed.

(** The printer does not panic on a placed tree: from a printer of depth
    0 or more every write of it returns.  So does [String], which starts
    from depth 0. *)
Theorem placed_tree_written (n : Node) (sb : printer) :
  placed text n = true -> 0 <= depth sb ->
  (exists sb', writeTo text n sb = Some sb')
  /\ exists s, String_ text n = Some s.
Proof.
  intros Hp Hd. destruct (writes_all n Hp) as [T _]. split.
  - destruct (T sb Hd) as (sb' & E & _). exists sb'. exact E.
  - unfold String_. destruct (T newPrinter) as (sb' & E & _); [cbn; lia|].
    rewrite E. eexists. reflexivity.
Qed.
End Within.
End Total.

(** *** The parser on tokens that lie in the text *)

Section Fed.
Context {SC : Strconv}.
Variable txt : string.

#[local] Abbreviation ok := (sound_state txt).
#[local] Abbreviation feeds := (fed txt).

Lemma fed_ret {A : Type} (a : A) (Q : A -> Prop) : Q a -> feeds (ret a) Q.
Proof. intros H t Ht. cbn. auto. Qed.

Lemma fed_bind {A B : Type} (m : M A) (k : A -> M B) (Q1 : A -> Prop) (Q : B -> Prop) :
  feeds m Q1 -> (forall a, Q1 a -> feeds (k a) Q) -> feeds (bind m k) Q.
Proof.
  intros Hm Hk t Ht. apply after_bind. eapply after_weaken; [apply Hm; exact Ht|].
  cbv beta. intros a t' [Ht' Ha]. exact (Hk a Ha t' Ht').
Qed.

Lemma fed_weaken {A : Type} (m : M A) (Q Q' : A -> Prop) :
  feeds m Q -> (forall a, Q a -> Q' a) -> feeds m Q'.
Proof.
  intros Hm HQ t Ht. eapply after_weaken; [apply Hm; exact Ht|].
  cbv beta. intros a t' [Ht' Ha]. auto.
Qed.

Lemma fed_errorf {A : Type} (msg : string) (Q : A -> Prop) : feeds (errorf msg) Q.
Proof. intros t _. exact I. Qed.

Lemma fed_crash {A : Type} (Q : A -> Prop) : feeds crash Q.
Proof. intros t _. exact I. Qed.

Lemma fed_out_of_fuel {A : Type} (Q : A -> Prop) : feeds out_of_fuel Q.
Proof. intros t _. exact I. Qed.

Lemma fed_unexpected {A : Type} (tok : item) (context : string) (Q : A -> Prop) :
  feeds (unexpected tok context) Q.
Proof. intros t _. apply after_unexpected. Qed.

Lemma fed_must {A : Type} (x : option A) : feeds (must x) (fun a => x = Some a).
Proof. destruct x; [apply fed_ret; reflexivity | apply fed_crash]. Qed.

Lemma fed_get : feeds get ok.
Proof. intros t Ht. cbn. auto. Qed.

Lemma fed_put (t' : Tree) : ok t' -> feeds (put t') (fun _ => True).
Proof. intros H t _. cbn. auto. Qed.

Lemma ok_set_peekCount (n : Z) (t : Tree) : ok t -> ok (set_peekCount n t).
Proof. intros H. exact H. Qed.

Lemma ok_set_actionLine (n : Z) (t : Tree) : ok t -> ok (set_actionLine n t).
Proof. intros H. exact H. Qed.

Lemma sound_eofItem (t : Tree) : text t = txt -> sound txt (eofItem t) = true.
Proof.
  intros E. unfold sound, eofItem, mk, in_text. cbn [pos typ starts_operand implb].
  rewrite E, andb_true_r. apply andb_true_intro.
  split; apply Z.leb_le; unfold strings.len; lia.
Qed.

Lemma ok_read_token0 (t : Tree) : ok t -> ok (read_token0 t).
Proof.
  intros (E & H0 & H1 & H2 & Hl). unfold read_token0, nextItem.
  destruct (lex_ t) as [|i rest] eqn:El; unfold sound_state;
    cbn [text token0 token1 token2 lex_].
  - repeat split; auto. apply sound_eofItem. exact E.
  - cbn [forallb] in Hl. apply andb_true_iff in Hl. destruct Hl as [Hi Hr].
    repeat split; auto.
Qed.

Lemma sound_token (t : Tree) (i : Z) (x : item) :
  ok t -> token t i = Some x -> sound txt x = true.
Proof.
  intros (E & H0 & H1 & H2 & Hl). unfold token.
  destruct (i =? 0); [intros H; injection H as <-; exact H0|].
  destruct (i =? 1); [intros H; injection H as <-; exact H1|].
  destruct (i =? 2); [intros H; injection H as <-; exact H2|discriminate].
Qed.

Lemma fed_next : feeds next (fun x => sound txt x = true).
Proof.
  intros t Ht. unfold next.
  set (t1 := if 0 <? peekCount t then _ else _).
  assert (H1 : ok t1).
  { subst t1. destruct (0 <? peekCount t);
      [apply ok_set_peekCount | apply ok_read_token0]; exact Ht. }
  destruct (token t1 (peekCount t1)) as [x|] eqn:E; cbn; auto.
  split; [exact H1 | exact (sound_token t1 _ x H1 E)].
Qed.

Lemma fed_peek : feeds peek (fun x => sound txt x = true).
Proof.
  intros t Ht. unfold peek. destruct (0 <? peekCount t).
  - destruct (token t (peekCount t - 1)) as [x|] eqn:E; cbn; auto.
    split; [exact Ht | exact (sound_token t _ x Ht E)].
  - cbn [ret after].
    assert (H1 : ok (read_token0 (set_peekCount 1 t)))
      by (apply ok_read_token0, ok_set_peekCount, Ht).
    split; [exact H1 | exact (proj1 (proj2 H1))].
Qed.

Lemma fed_backup : feeds backup (fun _ => True).
Proof. intros t Ht. cbn. split; [exact Ht | exact I]. Qed.

Lemma fed_backup2 (t1 : item) :
  sound txt t1 = true -> feeds (backup2 t1) (fun _ => True).
Proof.
  intros H t (E & H0 & H1 & H2 & Hl). cbn. unfold sound_state.
  cbn [text token0 token1 token2 lex_]. auto 10.
Qed.

Lemma fed_backup3 (t2 t1 : item) :
  sound txt t2 = true -> sound txt t1 = true -> feeds (backup3 t2 t1) (fun _ => True).
Proof.
  intros H H' t (E & H0 & H1 & H2 & Hl). cbn. unfold sound_state.
  cbn [text token0 token1 token2 lex_]. auto 10.
Qed.

Lemma fed_nextNonSpace_loop (n : nat) :
  feeds (nextNonSpace_loop n) (fun x => sound txt x = true).
Proof.
  induction n as [|n IH]; cbn [nextNonSpace_loop];
    (eapply fed_bind; [apply fed_next|]); intros tok Htok;
    destruct (is_space tok); auto using fed_out_of_fuel, fed_ret.
Qed.

Lemma fed_nextNonSpace : feeds nextNonSpace (fun x => sound txt x = true).
Proof. intros t Ht. exact (fed_nextNonSpace_loop (pending t) t Ht). Qed.

Lemma fed_peekNonSpace : feeds peekNonSpace (fun x => sound txt x = true).
Proof.
  unfold peekNonSpace.
  eapply fed_bind; [apply fed_nextNonSpace|]. intros tok Htok.
  eapply fed_bind; [apply fed_backup|]. intros _ _.
  apply fed_ret. exact Htok.
Qed.

Lemma fed_node_String (n : Node) : feeds (node_String n) (fun _ => True).
Proof.
  unfold node_String. eapply fed_bind; [apply fed_get|]. intros t _.
  eapply fed_weaken; [apply fed_must|]. auto.
Qed.

Lemma fed_expect (expected : itemType) (context : string) :
  feeds (expect expected context) (fun x => sound txt x = true).
Proof.
  unfold expect. eapply fed_bind; [apply fed_nextNonSpace|]. intros tok Htok.
  destruct (negb _); [apply fed_unexpected | apply fed_ret; exact Htok].
Qed.

Ltac prim :=
  lazymatch goal with
  | |- fed _ next _ => apply fed_next
  | |- fed _ peek _ => apply fed_peek
  | |- fed _ backup _ => apply fed_backup
  | |- fed _ nextNonSpace _ => apply fed_nextNonSpace
  | |- fed _ peekNonSpace _ => apply fed_peekNonSpace
  | |- fed _ (node_String _) _ => apply fed_node_String
  | |- fed _ (expect _ _) _ => apply fed_expect
  | |- fed _ get _ => apply fed_get
  | |- fed _ (must _) _ => apply fed_must
  end.
Ltac step := eapply fed_bind; [prim | intros ? ?].
Tactic Notation "step" "as" simple_intropattern(x) simple_intropattern(H) :=
  eapply fed_bind; [prim | intros x H].
Ltac fails := first [apply fed_errorf | apply fed_unexpected
                     | apply fed_crash | apply fed_out_of_fuel].

Lemma fed_check_stages (cmds : list CommandNode) (i : Z) :
  feeds (check_stages i cmds) (fun _ => True).
Proof.
  revert i. induction cmds as [|c cmds IH]; intros i; cbn [check_stages].
  - apply fed_ret. exact I.
  - step. destruct (is_literal _); [fails | apply IH].
Qed.

Lemma fed_checkPipeline (pipe : PipeNode) (context : string) :
  feeds (checkPipeline pipe context) (fun _ => True).
Proof.
  unfold checkPipeline.
  apply (fed_bind _ _ (fun _ => True)); [|intros ? ?; apply fed_check_stages].
  destruct (_ =? _)%nat; [fails | apply fed_ret; exact I].
Qed.

Lemma fed_chain_fields (n : nat) (chain : ChainNode) :
  feeds (chain_fields n chain)
        (fun c => chain_Node c = chain_Node chain /\ chain_Pos c = chain_Pos chain).
Proof.
  revert chain. induction n as [|n IH]; intros chain; cbn [chain_fields].
  - step. destruct (itemType_eqb _ _); [|apply fed_ret; split; reflexivity].
    step. step. fails.
  - step. destruct (itemType_eqb _ _); [|apply fed_ret; split; reflexivity].
    step as tok _. step as chain' Hadd.
    eapply fed_weaken; [apply IH|]. intros c [Hc Hp]. rewrite Hc, Hp.
    unfold ChainNode_Add in Hadd.
    destruct (val tok) as [|d rest]; [discriminate|].
    destruct (negb _); [discriminate|]. destruct (String.eqb rest ""); [discriminate|].
    injection Hadd as <-. split; reflexivity.
Qed.

Lemma fed_pipeline_decls (fuel : nat) (context : string) (pipe : PipeNode) :
  feeds (pipeline_decls fuel context pipe)
        (fun p => Cmds p = Cmds pipe /\ pipe_Pos p = pipe_Pos pipe).
Proof.
  revert pipe. induction fuel as [|fuel IH]; intros pipe; cbn [pipeline_decls];
    [fails|].
  unfold pipeline_decls_body.
  step as v Hv.
  destruct (itemType_eqb (typ v) itemVariable); [|apply fed_ret; split; reflexivity].
  step. step as tokenAfterVariable Hafter. step as nxt _.
  destruct (_ || _).
  { step. apply fed_ret. split; reflexivity. }
  destruct (_ && _).
  { step. destruct (_ && _); [|fails].
    step as tok _.
    destruct (typ tok); try fails;
      (eapply fed_weaken; [apply IH|]; intros p [Hp Hq]; rewrite Hp, Hq;
       split; reflexivity). }
  destruct (is_space tokenAfterVariable).
  - eapply fed_bind; [apply fed_backup3; assumption|]. intros ? ?.
    apply fed_ret. split; reflexivity.
  - eapply fed_bind; [apply fed_backup2; assumption|]. intros ? ?.
    apply fed_ret. split; reflexivity.
Qed.

(** *** The expressions *)

Lemma sound_in_text (x : item) : sound txt x = true -> in_text txt (pos x) = true.
Proof. unfold sound. intros H. apply andb_true_iff in H. exact (proj1 H). Qed.

Lemma newNumber_pos (p : Z) (text : string) (ty : itemType) (n : NumberNode) :
  newNumber p text ty = Some (inl n) -> num_Pos n = p.
Proof.
  unfold newNumber.
  set (n0 := mkNumber p false false false false 0 0 zero64 (zero64, zero64) text).
  assert (Hc : forall c,
             Some (@inl NumberNode string (simplifyComplex (set_complex n0 c)))
             = Some (inl n) -> num_Pos n = p).
  { intros c H. injection H as <-. unfold simplifyComplex.
    destruct (float64_eqb _ _); reflexivity. }
  destruct ty;
    try (destruct (if ends_in_i text then ParseFloat (strings.init text) else None);
         [apply Hc|];
         cbv zeta;
         destruct (ParseUint text) as [u|]; destruct (ParseInt text) as [i|];
         try destruct (i =? 0); cbn;
         try (intros H; injection H as <-; reflexivity);
         (destruct (ParseFloat text) as [f|]; [|discriminate]);
         (destruct (negb _); [discriminate|]);
         intros H; injection H as <-;
         unfold extract_ints; cbn;
         repeat match goal with
                | |- context [float64_eqb ?a ?b] => destruct (float64_eqb a b)
                end;
         cbn; reflexivity).
  - destruct text as [|quote rest]; [discriminate|].
    destruct (UnquoteChar rest quote) as [[rune tail]|err]; [|discriminate].
    destruct (negb _); [discriminate|].
    intros H; injection H as <-. reflexivity.
  - destruct (Sscan_complex128 text) as [c|err]; [apply Hc | discriminate].
Qed.

Lemma placed_leaf (n : Node) :
  is_leaf n = true -> is_expression n = true ->
  in_text txt (Position n) = true -> placed_operand txt n = true.
Proof.
  intros Hl He Hp. unfold placed_operand. rewrite Hp, He.
  destruct n; try discriminate; reflexivity.
Qed.

Lemma placed_term (fuel : nat) :
  placed_expressions txt fuel -> feeds (term (S fuel)) (placed_opt txt).
Proof.
  intros (_ & _ & _ & _ & _ & Hpipeline).
  cbn [term]. unfold term_body. step as tok Htok.
  apply sound_in_text in Htok.
  destruct (typ tok) eqn:Ety; try (step; apply fed_ret; exact I);
    try (apply fed_ret; apply placed_leaf; [reflexivity | reflexivity | exact Htok]);
    try (step as r Hr; destruct r as [number|err]; [|fails];
         apply fed_ret; apply placed_leaf; [reflexivity | reflexivity |];
         cbn [Position]; rewrite (newNumber_pos _ _ _ _ Hr); exact Htok);
    try (destruct (Unquote _); [|fails];
         apply fed_ret; apply placed_leaf; [reflexivity | reflexivity | exact Htok]).
  - (* a field *)
    step as n Hn. apply fed_ret. unfold newField in Hn.
    destruct (val tok); [discriminate|]. injection Hn as <-.
    apply placed_leaf; [reflexivity | reflexivity | exact Htok].
  - (* a parenthesized pipeline *)
    eapply fed_bind; [apply Hpipeline|]. intros [p endtok] Hp.
    apply fed_ret. cbn [fst] in Hp. unfold placed_at in Hp.
    apply andb_true_iff in Hp. destruct Hp as [Hpos Hcmds].
    unfold placed_opt, placed_operand. cbn [Position is_expression placed].
    rewrite Hpos. exact Hcmds.
Qed.

Lemma placed_operand_ (fuel : nat) :
  placed_expressions txt fuel -> feeds (operand (S fuel)) (placed_opt txt).
Proof.
  intros (Hterm & _).
  cbn [operand]. unfold operand_body. eapply fed_bind; [apply Hterm|].
  intros [node|] Hnode; [|apply fed_ret; exact I].
  step as tok Htok. apply sound_in_text in Htok.
  destruct (itemType_eqb _ _); [|apply fed_ret; exact Hnode].
  step. eapply fed_bind; [apply fed_chain_fields|]. intros chain [Hchain Hpos].
  cbn [chain_Node chain_Pos newChain] in Hchain, Hpos.
  cbn [placed_opt] in Hnode. unfold placed_operand in Hnode.
  apply andb_true_iff in Hnode. destruct Hnode as [Hnode Hpl].
  apply andb_true_iff in Hnode. destruct Hnode as [Hin He].
  destruct (Type_ node) eqn:Ety;
    try (apply fed_ret; unfold placed_opt, placed_operand;
         cbn [Position placed is_expression];
         rewrite Hchain, Hpos, Htok, He, Hpl; reflexivity);
    try (step; fails).
  - (* fields go on the field *)
    step as s _. step as n Hn. apply fed_ret. unfold newField in Hn.
    destruct s; [discriminate|]. injection Hn as <-.
    apply placed_leaf; [reflexivity | reflexivity |].
    cbn [Position]. rewrite Hpos. exact Htok.
  - (* fields go on the variable *)
    step. apply fed_ret.
    apply placed_leaf; [reflexivity | reflexivity |].
    cbn [Position newVariable var_Pos]. rewrite Hpos. exact Htok.
Qed.

Lemma placed_args_append (cmd : CommandNode) (arg : Node) :
  placed_args txt cmd = true -> placed_operand txt arg = true ->
  placed_args txt (CommandNode_append cmd arg) = true.
Proof.
  intros Hc Ha. unfold placed_args, CommandNode_append in *. cbn [Args].
  rewrite forallb_app. apply andb_true_intro. split; [exact Hc|].
  cbn [forallb]. rewrite Ha. reflexivity.
Qed.

Lemma placed_command_loop (fuel : nat) (cmd : CommandNode) :
  placed_expressions txt fuel ->
  placed_args txt cmd = true ->
  feeds (command_loop (S fuel) cmd) (fun c => placed_args txt c = true).
Proof.
  intros (_ & Hoperand & Hloop & _) Hcmd.
  cbn [command_loop]. unfold command_loop_body. step.
  eapply fed_bind; [apply Hoperand|]. intros arg Harg.
  assert (Hcmd' : placed_args txt
                    match arg with
                    | Some arg => CommandNode_append cmd arg
                    | None => cmd
                    end = true).
  { destruct arg as [arg|]; [|exact Hcmd].
    apply placed_args_append; [exact Hcmd | exact Harg]. }
  step as tok _. destruct (typ tok); try fails.
  - apply fed_ret. exact Hcmd'.
  - step. apply fed_ret. exact Hcmd'.
  - step. apply fed_ret. exact Hcmd'.
  - apply Hloop. exact Hcmd'.
Qed.

Lemma placed_command_ (fuel : nat) :
  placed_expressions txt fuel ->
  feeds (command (S fuel)) (fun c => placed_args txt c = true).
Proof.
  intros (_ & _ & Hloop & _).
  cbn [command]. unfold command_body. step.
  eapply fed_bind; [apply Hloop; reflexivity|]. intros cmd Hcmd.
  apply (fed_bind _ _ (fun _ => True)).
  - destruct (_ =? _)%nat; [fails | apply fed_ret; exact I].
  - intros ? ?. apply fed_ret. exact Hcmd.
Qed.

Lemma placed_pipeline_loop (fuel : nat) (context : string) (end_ : itemType)
      (pipe : PipeNode) :
  placed_expressions txt fuel ->
  placed_at txt pipe = true ->
  feeds (pipeline_loop (S fuel) context end_ pipe)
        (fun r => placed_at txt (fst r) = true).
Proof.
  intros (_ & _ & _ & Hcommand & Hloop & _) Hpipe.
  cbn [pipeline_loop]. unfold pipeline_loop_body. step.
  destruct (itemType_eqb _ _).
  { eapply fed_bind; [apply fed_checkPipeline|]. intros ? ?.
    apply fed_ret. exact Hpipe. }
  destruct (starts_operand _); [|fails].
  step. eapply fed_bind; [apply Hcommand|]. intros cmd Hcmd.
  apply Hloop.
  unfold placed_at, PipeNode_append in *. cbn [Cmds pipe_Pos].
  apply andb_true_iff in Hpipe. destruct Hpipe as [Hpos Hcmds].
  apply andb_true_intro. split; [exact Hpos|].
  rewrite forallb_app. apply andb_true_intro. split; [exact Hcmds|].
  cbn [forallb]. rewrite Hcmd. reflexivity.
Qed.

Lemma placed_pipeline (fuel : nat) (context : string) (end_ : itemType) :
  placed_expressions txt fuel ->
  feeds (pipeline (S fuel) context end_) (fun r => placed_at txt (fst r) = true).
Proof.
  intros (_ & _ & _ & _ & Hloop & _).
  cbn [pipeline]. unfold pipeline_body. step as tok Htok.
  apply sound_in_text in Htok.
  eapply fed_bind; [apply fed_pipeline_decls|].
  intros pipe [Hcmds Hpos]. apply Hloop.
  unfold placed_at. rewrite Hcmds, Hpos. cbn [newPipeline Cmds pipe_Pos forallb].
  rewrite Htok. reflexivity.
Qed.

Lemma placed_expressions_all (fuel : nat) : placed_expressions txt fuel.
Proof.
  induction fuel as [|fuel IH].
  - repeat split; intros; apply fed_out_of_fuel.
  - split; [exact (placed_term fuel IH)|].
    split; [exact (placed_operand_ fuel IH)|].
    split; [intros cmd Hcmd; exact (placed_command_loop fuel cmd IH Hcmd)|].
    split; [exact (placed_command_ fuel IH)|].
    split; [intros context end_ pipe H1;
            exact (placed_pipeline_loop fuel context end_ pipe IH H1)|].
    intros context end_. exact (placed_pipeline fuel context end_ IH).
Qed.
End Fed.

(** *** The first token of an action *)

Section First.
Context {SC : Strconv}.

Lemma after_nextNonSpace_word (t : Tree) :
  after (nextNonSpace t) (fun x t' => last_read x t' /\ is_space x = false).
Proof.
  unfold nextNonSpace. generalize (pending t) as n. intros n. revert t.
  induction n as [|n IH]; intros t; cbn [nextNonSpace_loop];
    apply after_bind; (eapply after_weaken; [apply after_next|]);
    cbv beta; intros x t' H; destruct (is_space x) eqn:E; try exact I.
  - split; [exact H | exact E].
  - apply IH.
  - split; [exact H | exact E].
Qed.

Lemma last_read_count (x : item) (t : Tree) :
  last_read x t -> 0 <= peekCount t <= 2.
Proof.
  unfold last_read, token. intros H.
  destruct (peekCount t =? 0) eqn:E0; [apply Z.eqb_eq in E0; lia|].
  destruct (peekCount t =? 1) eqn:E1; [apply Z.eqb_eq in E1; lia|].
  destruct (peekCount t =? 2) eqn:E2; [apply Z.eqb_eq in E2; lia|discriminate].
Qed.

Lemma next_backed (x : item) (t : Tree) :
  last_read x t -> next (backed t) = Ok (x, t).
Proof.
  intros H. pose proof (last_read_count x t H) as Hc.
  unfold last_read in H. unfold next, backed.
  destruct t as [txt lx k0 k1 k2 pc al]. cbn [peekCount set_peekCount] in *.
  assert (E : (0 <? pc + 1) = true) by (apply Z.ltb_lt; lia). rewrite E.
  unfold set_peekCount. cbn [text lex_ token0 token1 token2 peekCount actionLine].
  replace (pc + 1 - 1) with pc by lia.
  unfold token in *. cbn [text lex_ token0 token1 token2 peekCount actionLine] in *.
  rewrite H. reflexivity.
Qed.

Lemma peek_backed (x : item) (t : Tree) :
  last_read x t -> peek (backed t) = Ok (x, backed t).
Proof.
  intros H. pose proof (last_read_count x t H) as Hc.
  unfold last_read in H. unfold peek, backed.
  destruct t as [txt lx k0 k1 k2 pc al]. cbn [peekCount set_peekCount] in *.
  assert (E : (0 <? pc + 1) = true) by (apply Z.ltb_lt; lia). rewrite E.
  replace (pc + 1 - 1) with pc by lia.
  unfold token, set_peekCount in *.
  cbn [text lex_ token0 token1 token2 peekCount actionLine] in *.
  rewrite H. reflexivity.
Qed.

Lemma nextNonSpace_backed (x : item) (t : Tree) :
  last_read x t -> is_space x = false -> nextNonSpace (backed t) = Ok (x, t).
Proof.
  intros H Hs. unfold nextNonSpace.
  destruct (pending (backed t)); cbn [nextNonSpace_loop]; unfold bind;
    rewrite (next_backed x t H), Hs; reflexivity.
Qed.

Lemma peekNonSpace_backed (x : item) (t : Tree) :
  last_read x t -> is_space x = false ->
  peekNonSpace (backed t) = Ok (x, backed t).
Proof.
  intros H Hs. unfold peekNonSpace, bind.
  rewrite (nextNonSpace_backed x t H Hs). reflexivity.
Qed.

(** [peekNonSpace] returns a token that is no space and leaves it to be
    read: after it [peek], [peekNonSpace] and [nextNonSpace] all return that
    token, the first two without a change of the state. *)
Theorem peekNonSpace_again (t t' : Tree) (x : item) :
  peekNonSpace t = Ok (x, t') ->
  is_space x = false
  /\ peek t' = Ok (x, t')
  /\ peekNonSpace t' = Ok (x, t')
  /\ exists t1, nextNonSpace t' = Ok (x, t1) /\ backup t1 = Ok (tt, t').
Proof.
  unfold peekNonSpace at 1. unfold bind.
  pose proof (after_nextNonSpace_word t) as N.
  destruct (nextNonSpace t) as [[y t1]|e| |]; try discriminate.
  cbn [after] in N. destruct N as [Hl Hs].
  cbn [backup ret]. fold (backed t1). intros H. injection H as <- <-.
  split; [exact Hs|].
  split; [exact (peek_backed y t1 Hl)|].
  split; [exact (peekNonSpace_backed y t1 Hl Hs)|].
  exists t1. split; [exact (nextNonSpace_backed y t1 Hl Hs) | reflexivity].
Qed.

(** A pipeline that is parsed starts with a token an operand can start
    with. *)
Lemma pipeline_starts (fuel : nat) (context : string) (end_ : itemType)
      (x : item) (t : Tree) (r : PipeNode * item * Tree) :
  last_read x t -> is_space x = false ->
  pipeline fuel context end_ (backed t) = Ok r ->
  starts_operand (typ x) = true.
Proof.
  intros H Hs. destruct fuel as [|fuel]; [discriminate|].
  cbn [pipeline]. unfold pipeline_body, bind at 1.
  rewrite (peekNonSpace_backed x t H Hs). unfold bind at 1.
  destruct fuel as [|fuel]; [discriminate|].
  cbn [pipeline_decls]. unfold pipeline_decls_body, bind at 1.
  rewrite (peekNonSpace_backed x t H Hs).
  destruct (itemType_eqb (typ x) itemVariable) eqn:Ev.
  { intros _. apply itemType_eqb_eq in Ev. rewrite Ev. reflexivity. }
  cbn [ret pipeline_loop]. unfold pipeline_loop_body, bind at 1.
  rewrite (nextNonSpace_backed x t H Hs).
  destruct (itemType_eqb (typ x) end_).
  { unfold checkPipeline, bind. cbn. discriminate. }
  destruct (starts_operand (typ x)); [reflexivity|].
  unfold unexpected. destruct (itemType_eqb (typ x) itemError); cbn; discriminate.
Qed.

Lemma after_elseControl (fuel : nat) (tr : trim) (t : Tree) :
  after (elseControl fuel tr t) (fun n _ => is_action n = false).
Proof.
  unfold elseControl. apply after_bind.
  eapply after_weaken; [apply after_any|]. cbv beta. intros pk t1 _.
  destruct (itemType_eqb _ _).
  - apply after_bind. eapply after_weaken; [apply after_any|]. cbv beta.
    intros tok t2 _. apply after_bind.
    eapply after_weaken; [apply after_any|]. cbv beta. intros [pipe e] t3 _.
    reflexivity.
  - apply after_bind. eapply after_weaken; [apply after_any|]. cbv beta.
    intros tok t2 _. reflexivity.
Qed.

Lemma after_endControl (tr : trim) (t : Tree) :
  after (endControl tr t) (fun n _ => is_action n = false).
Proof.
  unfold endControl. apply after_bind.
  eapply after_weaken; [apply after_any|]. cbv beta. intros tok t2 _. reflexivity.
Qed.

(** The position of an action is that of the first token after its left
    delimiter that is no space, and an operand can start with that token. *)
Lemma action_starts (fuel : nat) (tr : trim) (t t' : Tree) (a : ActionNode) :
  action fuel tr t = Ok (NAction a, t') ->
  exists tok t1,
    nextNonSpace t = Ok (tok, t1)
    /\ action_Pos a = pos tok /\ starts_operand (typ tok) = true.
Proof.
  destruct fuel as [|fuel]; [discriminate|].
  cbn [action]. unfold action_body, bind at 1.
  pose proof (after_nextNonSpace_word t) as N.
  destruct (nextNonSpace t) as [[tok t1]|e| |]; try discriminate.
  cbn [after] in N. destruct N as [Hl Hs].
  intros H. exists tok, t1. split; [reflexivity|].
  assert (Hdefault :
    (backup ;;
     tok <- peek ;;
     '(pipe, endtok) <- pipeline fuel "command" itemRightDelim ;;
     ret (newAction (pos tok) (line tok) pipe
            (set_right tr (trim_right (item_trim endtok))))) t1
    = Ok (NAction a, t') ->
    action_Pos a = pos tok /\ starts_operand (typ tok) = true).
  { clear H. unfold bind at 1. cbn [backup]. fold (backed t1).
    unfold bind at 1. rewrite (peek_backed tok t1 Hl). unfold bind at 1.
    destruct (pipeline fuel "command" itemRightDelim (backed t1))
      as [[[pipe endtok] t2]|e| |] eqn:Ep; try discriminate.
    cbn [ret newAction]. intros E. injection E as <- _.
    split; [reflexivity|].
    exact (pipeline_starts fuel "command" itemRightDelim tok t1 _ Hl Hs Ep). }
  destruct (typ tok); try (exact (Hdefault H)); exfalso;
    lazymatch type of H with
    | elseControl _ _ _ = _ =>
        pose proof (after_elseControl fuel tr t1) as A; rewrite H in A;
        discriminate A
    | endControl _ _ = _ =>
        pose proof (after_endControl tr t1) as A; rewrite H in A; discriminate A
    | branchControl _ _ _ _ = _ =>
        pose proof (after_branchControl fuel (val tok) tr t1) as A; rewrite H in A;
        exact A
    end.
Qed.
End First.

(** *** The statements *)

Section Statements.
Context {SC : Strconv}.
Variable txt : string.

#[local] Abbreviation ok := (sound_state txt).
#[local] Abbreviation feeds := (fed txt).

Ltac prim :=
  lazymatch goal with
  | |- fed _ next _ => apply fed_next
  | |- fed _ peek _ => apply fed_peek
  | |- fed _ backup _ => apply fed_backup
  | |- fed _ nextNonSpace _ => apply fed_nextNonSpace
  | |- fed _ peekNonSpace _ => apply fed_peekNonSpace
  | |- fed _ (node_String _) _ => apply fed_node_String
  | |- fed _ (expect _ _) _ => apply fed_expect
  | |- fed _ get _ => apply fed_get
  | |- fed _ (must _) _ => apply fed_must
  end.
Ltac step := eapply fed_bind; [prim | intros ? ?].
Tactic Notation "step" "as" simple_intropattern(x) simple_intropattern(H) :=
  eapply fed_bind; [prim | intros x H].
Ltac fails := first [apply fed_errorf | apply fed_unexpected
                     | apply fed_crash | apply fed_out_of_fuel].

Lemma placed_list_append (l : ListNode) (n : Node) :
  placed_list (placed txt) l = true -> placed txt n = true ->
  placed_list (placed txt) (ListNode_append l n) = true.
Proof.
  intros Hl Hn. unfold placed_list, ListNode_append in *. cbn [Nodes].
  rewrite forallb_app. apply andb_true_intro. split; [exact Hl|].
  cbn [forallb]. rewrite Hn. reflexivity.
Qed.

Lemma placed_at_pipe (p : PipeNode) :
  placed_at txt p = true -> placed_pipe txt (placed txt) p = true.
Proof. unfold placed_at. intros H. apply andb_true_iff in H. exact (proj2 H). Qed.

Lemma placed_elseControl (fuel : nat) (tr : trim) :
  feeds (elseControl fuel tr) (fun n => placed txt n = true).
Proof.
  unfold elseControl. step. destruct (itemType_eqb _ _).
  - step. eapply fed_bind; [apply (placed_expressions_all txt fuel)|].
    intros [pipe tok] Hpipe. apply fed_ret. cbn [fst] in Hpipe.
    cbn [newElse placed]. unfold placed_else. cbn [else_Pipe else_List].
    rewrite (placed_at_pipe _ Hpipe). reflexivity.
  - step. apply fed_ret. reflexivity.
Qed.

Lemma placed_textOrAction (fuel : nat) :
  placed_statements txt fuel ->
  feeds (textOrAction (S fuel)) (fun n => placed txt n = true).
Proof.
  intros (_ & Haction & _).
  cbn [textOrAction]. unfold textOrAction_body. step as tok _.
  destruct (typ tok); try fails; try (apply fed_ret; reflexivity).
  step as t Ht.
  eapply fed_bind; [apply fed_put, ok_set_actionLine; exact Ht|].
  intros ? ?. eapply fed_bind; [apply Haction|]. intros n Hn.
  step as t' Ht'.
  eapply fed_bind; [apply fed_put, ok_set_actionLine; exact Ht'|].
  intros ? ?. apply fed_ret. exact Hn.
Qed.

Lemma nearly_placed_action (fuel : nat) (tr : trim) :
  placed_statements txt fuel -> feeds (action (S fuel) tr) (nearly_placed txt).
Proof.
  intros (_ & _ & _ & _ & _ & Hbranch).
  cbn [action]. unfold action_body. step as tok _.
  assert (Hweak : forall m : M Node,
             feeds m (fun n => placed txt n = true /\ is_action n = false) ->
             feeds m (nearly_placed txt)).
  { intros m Hm. eapply fed_weaken; [exact Hm|]. intros n [Hn Ha].
    destruct n; try discriminate; exact Hn. }
  assert (Hdefault :
    feeds (backup ;;
           tok <- peek ;;
           '(pipe, endtok) <- pipeline fuel "command" itemRightDelim ;;
           ret (newAction (pos tok) (line tok) pipe
                  (set_right tr (trim_right (item_trim endtok)))))
          (nearly_placed txt)).
  { step. step as tok' Htok'.
    eapply fed_bind; [apply (placed_expressions_all txt fuel)|].
    intros [pipe endtok] Hpipe. apply fed_ret. cbn [fst] in Hpipe.
    split; [exact (sound_in_text txt tok' Htok') | exact (placed_at_pipe _ Hpipe)]. }
  destruct (typ tok); try exact Hdefault; apply Hweak;
    lazymatch goal with
    | |- fed _ (elseControl _ _) _ =>
        intros t Ht;
        pose proof (placed_elseControl fuel tr t Ht) as P;
        pose proof (after_elseControl fuel tr t) as A;
        destruct (elseControl fuel tr t) as [[n t']|e| |]; try exact I;
        cbn [after] in *; destruct P as [P1 P2];
        split; [exact P1 | split; [exact P2 | exact A]]
    | |- fed _ (endControl _) _ =>
        unfold endControl; step; apply fed_ret; split; reflexivity
    | |- fed _ (branchControl _ _ _) _ =>
        intros t Ht;
        pose proof (Hbranch (val tok) tr t Ht) as P;
        pose proof (after_branchControl fuel (val tok) tr t) as A;
        destruct (branchControl fuel (val tok) tr t) as [[n t']|e| |]; try exact I;
        cbn [after] in *; destruct n; try contradiction;
        destruct P as [P1 P2]; split; [exact P1 | split; [exact P2 | reflexivity]]
    end.
Qed.

Lemma placed_action (fuel : nat) (tr : trim) :
  placed_statements txt fuel ->
  feeds (action (S fuel) tr) (fun n => placed txt n = true).
Proof.
  intros IH t Ht.
  pose proof (nearly_placed_action fuel tr IH t Ht) as W.
  pose proof (fed_nextNonSpace txt t Ht) as N.
  destruct (action (S fuel) tr t) as [[n t']|e| |] eqn:E; try exact I.
  cbn [after] in *. destruct W as [Ht' Wn]. split; [exact Ht'|].
  destruct n; try exact Wn.
  destruct (action_starts (S fuel) tr t t' a E) as (tok & t1 & En & Hpos & Hty).
  rewrite En in N. cbn [after] in N. destruct N as [_ Hs].
  unfold sound in Hs. rewrite Hty in Hs. cbn [implb] in Hs.
  apply andb_true_iff in Hs. destruct Hs as [_ H1].
  destruct Wn as [Hin Hpipe]. unfold in_text in Hin.
  apply andb_true_iff in Hin. destruct Hin as [_ H2].
  cbn [placed]. rewrite Hpos, H1, Hpipe. rewrite <- Hpos, H2. reflexivity.
Qed.

Lemma placed_itemList_loop (fuel : nat) (l : ListNode) :
  placed_statements txt fuel ->
  placed_list (placed txt) l = true ->
  feeds (itemList_loop (S fuel) l)
        (fun r => placed_list (placed txt) (fst r) = true
                  /\ placed txt (snd r) = true).
Proof.
  intros (Htext & _ & Hloop & _) Hl.
  cbn [itemList_loop]. unfold itemList_loop_body. step.
  destruct (negb _); [|fails].
  eapply fed_bind; [apply Htext|]. intros n Hn.
  destruct (Type_ n);
    try (apply fed_ret; split; assumption);
    (apply Hloop; apply placed_list_append; assumption).
Qed.

Lemma placed_itemList (fuel : nat) :
  placed_statements txt fuel ->
  feeds (itemList (S fuel))
        (fun r => placed_list (placed txt) (fst r) = true
                  /\ placed txt (snd r) = true).
Proof.
  intros (_ & _ & Hloop & _).
  cbn [itemList]. unfold itemList_body. step. apply Hloop. reflexivity.
Qed.

Lemma placed_branch_elses (fuel : nat) (nxt : Node) (elses : list ElseNode) :
  placed_statements txt fuel ->
  placed txt nxt = true ->
  forallb (placed_else txt (placed txt)) elses = true ->
  feeds (branch_elses (S fuel) nxt elses)
        (fun r => forallb (placed_else txt (placed txt)) (fst r) = true).
Proof.
  intros (_ & _ & _ & Hlist & Helses & _) Hnxt He.
  cbn [branch_elses]. unfold branch_elses_body.
  destruct nxt as [| | | | | | | | | | | | | | |e|e|];
    try (apply Helses; assumption).
  - apply fed_ret. exact He.
  - eapply fed_bind; [apply Hlist|]. intros [l nxt] [Hl Hn].
    apply Helses; [exact Hn|].
    rewrite forallb_app. apply andb_true_intro. split; [exact He|].
    cbn [forallb]. rewrite andb_true_r.
    cbn [placed] in Hnxt. unfold placed_else in *.
    apply andb_true_iff in Hnxt. destruct Hnxt as [Hp _].
    unfold ElseNode_set_List. cbn [else_Pipe else_List].
    cbn [fst] in Hl. rewrite Hp, Hl. reflexivity.
Qed.

Lemma placed_branchControl (fuel : nat) (keyword : string) (tr : trim) :
  placed_statements txt fuel ->
  feeds (branchControl (S fuel) keyword tr) (fun n => placed txt n = true).
Proof.
  intros (_ & _ & _ & Hlist & Helses & _).
  cbn [branchControl]. unfold branchControl_body.
  eapply fed_bind; [apply (placed_expressions_all txt fuel)|]. intros [pipe tok] Hpipe.
  eapply fed_bind; [apply Hlist|]. intros [l nxt] [Hl Hn].
  eapply fed_bind; [apply Helses; [exact Hn | reflexivity]|].
  intros [elses e] He. apply fed_ret.
  cbn [placed]. unfold placed_branch. cbn [branch_Pipe branch_List Elses].
  cbn [fst] in *.
  apply andb_true_intro. split; [|exact He].
  apply andb_true_intro. split; [exact (placed_at_pipe _ Hpipe) | exact Hl].
Qed.

Lemma placed_statements_all (fuel : nat) : placed_statements txt fuel.
Proof.
  induction fuel as [|fuel IH].
  - repeat split; intros; apply fed_out_of_fuel.
  - split; [exact (placed_textOrAction fuel IH)|].
    split; [intros tr; exact (placed_action fuel tr IH)|].
    split; [intros l Hl; exact (placed_itemList_loop fuel l IH Hl)|].
    split; [exact (placed_itemList fuel IH)|].
    split; [intros nxt elses Hn He;
            exact (placed_branch_elses fuel nxt elses IH Hn He)|].
    intros keyword tr. exact (placed_branchControl fuel keyword tr IH).
Qed.

Lemma placed_parse_loop (fuel : nat) (root : ListNode) :
  placed_list (placed txt) root = true ->
  feeds (parse_loop fuel root) (fun r => placed_list (placed txt) r = true).
Proof.
  revert root. induction fuel as [|fuel IH]; intros root Hroot; cbn [parse_loop];
    [fails|].
  unfold parse_loop_body. step.
  destruct (negb _); [|apply fed_ret; exact Hroot].
  step. apply (fed_bind _ _ _ (fun _ => True)).
  { destruct (itemType_eqb _ _); [|apply fed_ret; exact I].
    step as delim Hdelim. step. apply fed_backup2. exact Hdelim. }
  intros ? ?. eapply fed_bind; [apply (placed_statements_all fuel)|]. intros n Hn.
  destruct (Type_ n);
    try (step; fails);
    (apply IH; apply placed_list_append; assumption).
Qed.

(** A document whose tokens lie in it, those that can start an operand
    past its first byte, is parsed into a tree the printer writes without
    a panic: the operands and the actions of the tree are at positions of
    the document, the actions past its first byte. *)
Theorem parsed_tree_printed (fuel : nat) (items : list item) (root : ListNode) :
  forallb (sound txt) items = true ->
  Parse_items fuel txt items = Ok root ->
  placed txt (NList root) = true
  /\ exists s, String_ txt (NList root) = Some s.
Proof.
  intros Hitems. unfold Parse_items, parse, bind.
  assert (Ht : ok (startTree txt items)).
  { unfold sound_state, startTree. cbn [text token0 token1 token2 lex_].
    assert (Hz : sound txt zeroItem = true).
    { unfold sound, zeroItem, in_text. cbn [pos typ starts_operand implb].
      rewrite andb_true_r. apply andb_true_intro.
      split; apply Z.leb_le; unfold strings.len; lia. }
    auto 10. }
  pose proof (fed_peek txt _ Ht) as P.
  destruct (peek (startTree txt items)) as [[tok t]|e| |]; try discriminate.
  cbn [after] in P. destruct P as [Ht1 _].
  pose proof (placed_parse_loop fuel (newList (pos tok)) eq_refl t Ht1) as L.
  destruct (parse_loop fuel (newList (pos tok)) t) as [[root' t']|e| |];
    try discriminate.
  intros E. injection E as <-. cbn [after] in L. destruct L as [_ L].
  assert (Hp : placed txt (NList root') = true) by exact L.
  split; [exact Hp|].
  unfold String_.
  destruct (proj1 (writes_all txt (NList root') Hp) newPrinter (Z.le_refl 0))
    as (sb & Hsb & _).
  rewrite Hsb. eexists. reflexivity.
Qed.
End Statements.

(** *** The first line of a document *)

Section FirstLine.
Context {SC : Strconv}.

Lemma HasPrefix_nl (c : ascii) (s : string) :
  strings.HasPrefix (String c s) nl = Ascii.eqb newline c.
Proof.
  cbn [strings.HasPrefix nl str1].
  destruct s; cbn [strings.HasPrefix]; rewrite andb_true_r; reflexivity.
Qed.

Lemma count_from_nonneg (s sub : string) (k : nat) : 0 <= strings.count_from k s sub.
Proof.
  revert k. induction s as [|c s IH]; intros k; cbn [strings.count_from]; [lia|].
  destruct k; [|apply IH].
  destruct (strings.HasPrefix (String c s) sub).
  - pose proof (IH (String.length sub - 1)%nat). lia.
  - apply IH.
Qed.

(** A string without a newline has no last index of one. *)
Lemma last_index_no_nl (s : string) (i found : Z) :
  strings.Count s nl = 0 -> strings.last_index_from i found s nl = found.
Proof.
  unfold strings.Count. revert i found.
  induction s as [|c s IH]; intros i found H.
  - reflexivity.
  - cbn [strings.last_index_from]. cbn [strings.count_from] in H.
    rewrite HasPrefix_nl in *.
    destruct (Ascii.eqb newline c).
    + cbn [nl str1 String.length Nat.sub] in H.
      pose proof (count_from_nonneg s (String newline "") 0). unfold nl, str1 in *. lia.
    + apply IH. exact H.
Qed.

Lemma take_cons (k : nat) (c : ascii) (s : string) :
  strings.take (S k) (String c s) = String c (strings.take k s).
Proof. reflexivity. Qed.

(** On the first line of a document, the white space in front of a node
    is looked for from the second byte on: the first byte of the document
    is not looked at. *)
Theorem whitespacePrefix_first_byte (c d : ascii) (rest : string) (n : Node)
        (ltok : string) :
  lineno (String c rest) n = Some 0 -> d <> newline ->
  whitespacePrefix (String d rest) n ltok = whitespacePrefix (String c rest) n ltok.
Proof.
  intros Hline Hd. unfold lineno in Hline. unfold whitespacePrefix. cbv zeta.
  assert (Hlen : strings.len (String d rest) = strings.len (String c rest))
    by reflexivity.
  unfold strings.slice in *. rewrite Hlen.
  destruct ((0 <=? 0) && (0 <=? Position n)
            && (Position n <=? strings.len (String c rest))) eqn:Hb;
    [|reflexivity].
  injection Hline as Hline.
  rewrite Z.sub_0_r in *. cbn [Z.to_nat strings.drop] in *.
  destruct (Z.to_nat (Position n)) as [|k] eqn:Ek.
  - (* at the first byte *)
    cbn [strings.take strings.LastIndex strings.last_index_from strings.HasPrefix nl
         str1]. reflexivity.
  - rewrite !take_cons in *.
    assert (Hc : strings.LastIndex (String c (strings.take k rest)) nl = -1)
      by (apply last_index_no_nl; exact Hline).
    assert (Hdd : strings.LastIndex (String d (strings.take k rest)) nl = -1).
    { apply last_index_no_nl.
      unfold strings.Count in *. cbn [strings.count_from] in *.
      rewrite HasPrefix_nl in *.
      assert (Ed : Ascii.eqb newline d = false).
      { apply Ascii.eqb_neq. intros E. apply Hd. symmetry. exact E. }
      rewrite Ed.
      destruct (Ascii.eqb newline c); [|exact Hline].
      cbn [nl str1 String.length Nat.sub] in Hline.
      pose proof (count_from_nonneg (strings.take k rest) (String newline "") 0).
      unfold nl, str1 in *. lia. }
    rewrite Hc, Hdd. cbn [Z.ltb Z.compare Z.add].
    destruct ((0 <=? 1) && (1 <=? Position n)
              && (Position n <=? strings.len (String c rest))); [|reflexivity].
    cbn [Z.to_nat Pos.to_nat Pos.iter_op Nat.add strings.drop]. reflexivity.
Qed.
End FirstLine.

(** ** The parser does not panic *)

Section Calm.
Context {SC : Strconv}.
Variable txt : string.

#[local] Abbreviation rdy := (ready txt).
#[local] Abbreviation frs := (fresh txt).

Lemma calm_ret {A : Type} (a : A) (P : Tree -> Prop) (Q : A -> Tree -> Prop) :
  (forall t, P t -> Q a t) -> calm P (ret a) Q.
Proof. intros H t Ht. cbn. auto. Qed.

Lemma calm_bind {A B : Type} (m : M A) (k : A -> M B) (P : Tree -> Prop)
      (Q1 : A -> Tree -> Prop) (Q : B -> Tree -> Prop) :
  calm P m Q1 -> (forall a, calm (Q1 a) (k a) Q) -> calm P (bind m k) Q.
Proof.
  intros Hm Hk t Ht. unfold bind. specialize (Hm t Ht).
  destruct (m t) as [[a t']|e| |]; auto. exact (Hk a t' Hm).
Qed.

Lemma calm_pre {A : Type} (m : M A) (P P' : Tree -> Prop) (Q : A -> Tree -> Prop) :
  (forall t, P t -> P' t) -> calm P' m Q -> calm P m Q.
Proof. intros HP Hm t Ht. exact (Hm t (HP t Ht)). Qed.

Lemma calm_post {A : Type} (m : M A) (P : Tree -> Prop) (Q Q' : A -> Tree -> Prop) :
  calm P m Q -> (forall a t, Q a t -> Q' a t) -> calm P m Q'.
Proof.
  intros Hm HQ t Ht. specialize (Hm t Ht).
  destruct (m t) as [[a t']|e| |]; auto.
Qed.

(** A fact that comes with the state. *)
Lemma calm_pure {A : Type} (m : M A) (P : Tree -> Prop) (F : Prop)
      (Q : A -> Tree -> Prop) :
  (F -> calm P m Q) -> calm (fun t => P t /\ F) m Q.
Proof. intros H t [Ht HF]. exact (H HF t Ht). Qed.

Lemma calm_errorf {A : Type} (msg : string) (P : Tree -> Prop) (Q : A -> Tree -> Prop) :
  calm P (errorf msg) Q.
Proof. intros t _. exact I. Qed.

Lemma calm_out_of_fuel {A : Type} (P : Tree -> Prop) (Q : A -> Tree -> Prop) :
  calm P out_of_fuel Q.
Proof. intros t _. exact I. Qed.

Lemma calm_unexpected {A : Type} (tok : item) (context : string) (P : Tree -> Prop)
      (Q : A -> Tree -> Prop) :
  calm P (unexpected tok context) Q.
Proof.
  intros t _. unfold unexpected. destruct (itemType_eqb _ _); exact I.
Qed.

Lemma calm_must {A : Type} (x : option A) (a : A) (P : Tree -> Prop) :
  x = Some a -> calm P (must x) (fun b t => P t /\ b = a).
Proof. intros -> t Ht. cbn. auto. Qed.

(** What [fed] gives of a run holds of a calm run too. *)
Lemma calm_fed {A : Type} (m : M A) (P : Tree -> Prop) (Q1 : A -> Prop)
      (Q2 : A -> Tree -> Prop) :
  fed txt m Q1 -> calm P m Q2 -> (forall t, P t -> sound_state txt t) ->
  calm P m (fun a t' => Q2 a t' /\ Q1 a).
Proof.
  intros Hf Hc HP t Ht. specialize (Hc t Ht). specialize (Hf t (HP t Ht)).
  destruct (m t) as [[a t']|e| |]; auto.
  cbn [after] in Hf. split; [exact Hc | exact (proj2 Hf)].
Qed.

Lemma fit_sound (x : item) : fit txt x = true -> sound txt x = true.
Proof. unfold fit. intros H. apply andb_true_iff in H. exact (proj1 H). Qed.

Lemma fit_lexical (x : item) : fit txt x = true -> lexical x = true.
Proof. unfold fit. intros H. apply andb_true_iff in H. exact (proj2 H). Qed.

Lemma forallb_fit_sound (l : list item) :
  forallb (fit txt) l = true -> forallb (sound txt) l = true.
Proof.
  intros H. apply forallb_forall. intros x Hx.
  rewrite forallb_forall in H. exact (fit_sound x (H x Hx)).
Qed.

Lemma ready_sound (t : Tree) : rdy t -> sound_state txt t.
Proof.
  intros (_ & E & H0 & H1 & H2 & Hl). unfold sound_state.
  auto 10 using fit_sound, forallb_fit_sound.
Qed.

Lemma fresh_ready (t : Tree) : frs t -> rdy t.
Proof. intros [H _]. exact H. Qed.

Lemma fresh_sound (t : Tree) : frs t -> sound_state txt t.
Proof. intros [H _]. exact (ready_sound t H). Qed.

Lemma fit_eofItem (t : Tree) : text t = txt -> fit txt (eofItem t) = true.
Proof.
  intros E. unfold fit. rewrite (sound_eofItem txt t E). reflexivity.
Qed.

(** The state with the next token of the lexer in [token[0]]. *)
Lemma ready_read_token0 (t : Tree) (n : Z) :
  rdy t -> 0 <= n <= 3 ->
  rdy (read_token0 (set_peekCount n t))
  /\ fit txt (token0 (read_token0 (set_peekCount n t))) = true.
Proof.
  intros (G & E & H0 & H1 & H2 & Hl) Hn. unfold read_token0, nextItem, set_peekCount.
  cbn [text lex_ token0 token1 token2 peekCount actionLine].
  destruct (lex_ t) as [|i rest] eqn:El; unfold ready, good;
    cbn [text lex_ token0 token1 token2 peekCount actionLine].
  - assert (F : fit txt (eofItem
                  {| text := text t; lex_ := []; token0 := token0 t;
                     token1 := token1 t; token2 := token2 t; peekCount := n;
                     actionLine := actionLine t |}) = true)
      by (apply fit_eofItem; exact E).
    auto 10.
  - cbn [forallb] in Hl. apply andb_true_iff in Hl. destruct Hl as [Hi Hr].
    auto 10.
Qed.

Lemma ready_token (t : Tree) (i : Z) (x : item) :
  rdy t -> token t i = Some x -> fit txt x = true.
Proof.
  intros (_ & E & H0 & H1 & H2 & Hl). unfold token.
  destruct (i =? 0); [intros H; injection H as <-; exact H0|].
  destruct (i =? 1); [intros H; injection H as <-; exact H1|].
  destruct (i =? 2); [intros H; injection H as <-; exact H2|discriminate].
Qed.

Lemma ready_set_peekCount (n : Z) (t : Tree) :
  rdy t -> 0 <= n <= 3 -> rdy (set_peekCount n t).
Proof.
  intros (G & E & H0 & H1 & H2 & Hl) Hn. unfold ready, good, set_peekCount.
  cbn [text lex_ token0 token1 token2 peekCount actionLine]. auto 10.
Qed.

Lemma ready_set_actionLine (n : Z) (t : Tree) : rdy t -> rdy (set_actionLine n t).
Proof. intros H. exact H. Qed.

Lemma token_some (t : Tree) (i : Z) : 0 <= i <= 2 -> exists x, token t i = Some x.
Proof.
  intros H. unfold token.
  destruct (i =? 0) eqn:E0; [eexists; reflexivity|].
  destruct (i =? 1) eqn:E1; [eexists; reflexivity|].
  destruct (i =? 2) eqn:E2; [eexists; reflexivity|].
  apply Z.eqb_neq in E0, E1, E2. lia.
Qed.

Lemma calm_next : calm rdy next (fun x t' => frs t' /\ fit txt x = true).
Proof.
  intros t Ht. pose proof Ht as (G & _). unfold good in G. unfold next.
  destruct (0 <? peekCount t) eqn:Ep.
  - apply Z.ltb_lt in Ep.
    assert (R : rdy (set_peekCount (peekCount t - 1) t))
      by (apply ready_set_peekCount; [exact Ht | lia]).
    cbn [peekCount set_peekCount] in *.
    destruct (token_some (set_peekCount (peekCount t - 1) t) (peekCount t - 1))
      as [x Ex]; [lia|].
    rewrite Ex. cbn [must ret].
    split; [split; [exact R | cbn; lia] | exact (ready_token _ _ x R Ex)].
  - apply Z.ltb_ge in Ep. assert (E0 : peekCount t = 0) by lia.
    destruct (ready_read_token0 t 0 Ht) as [R F]; [lia|].
    assert (Es : set_peekCount 0 t = t).
    { destruct t. cbn in E0. subst. reflexivity. }
    rewrite Es in R, F.
    assert (Ec : peekCount (read_token0 t) = 0).
    { unfold read_token0. destruct (nextItem t). cbn. exact E0. }
    rewrite Ec. cbn [token Z.eqb must ret].
    split; [split; [exact R | lia] | exact F].
Qed.

Lemma calm_peek : calm rdy peek (fun x t' => rdy t' /\ fit txt x = true).
Proof.
  intros t Ht. pose proof Ht as (G & _). unfold good in G. unfold peek.
  destruct (0 <? peekCount t) eqn:Ep.
  - apply Z.ltb_lt in Ep.
    destruct (token_some t (peekCount t - 1)) as [x Ex]; [lia|].
    rewrite Ex. cbn [must ret].
    split; [exact Ht | exact (ready_token _ _ x Ht Ex)].
  - destruct (ready_read_token0 t 1 Ht) as [R F]; [lia|].
    cbn [ret]. split; [exact R | exact F].
Qed.

Lemma calm_backup : calm frs backup (fun _ t' => rdy t').
Proof.
  intros t [Ht Hp]. pose proof Ht as (G & _). unfold good in G. cbn.
  apply ready_set_peekCount; [exact Ht | lia].
Qed.

Lemma calm_backup2 (t1 : item) :
  fit txt t1 = true -> calm rdy (backup2 t1) (fun _ t' => rdy t').
Proof.
  intros H t (G & E & H0 & H1 & H2 & Hl). cbn. unfold ready, good.
  cbn [text lex_ token0 token1 token2 peekCount actionLine].
  repeat split; auto; lia.
Qed.

Lemma calm_backup3 (t2 t1 : item) :
  fit txt t2 = true -> fit txt t1 = true ->
  calm rdy (backup3 t2 t1) (fun _ t' => rdy t').
Proof.
  intros H H' t (G & E & H0 & H1 & H2 & Hl). cbn. unfold ready, good.
  cbn [text lex_ token0 token1 token2 peekCount actionLine].
  repeat split; auto; lia.
Qed.

Lemma calm_nextNonSpace_loop (n : nat) :
  calm rdy (nextNonSpace_loop n) (fun x t' => frs t' /\ fit txt x = true).
Proof.
  induction n as [|n IH]; cbn [nextNonSpace_loop];
    (eapply calm_bind; [apply calm_next|]); intros tok;
    destruct (is_space tok).
  - apply calm_out_of_fuel.
  - apply calm_ret. auto.
  - eapply calm_pre; [|exact IH]. intros t [[Ht _] _]. exact Ht.
  - apply calm_ret. auto.
Qed.

Lemma calm_nextNonSpace :
  calm rdy nextNonSpace (fun x t' => frs t' /\ fit txt x = true).
Proof. intros t Ht. exact (calm_nextNonSpace_loop (pending t) t Ht). Qed.

Lemma calm_peekNonSpace :
  calm rdy peekNonSpace (fun x t' => rdy t' /\ fit txt x = true).
Proof.
  unfold peekNonSpace.
  eapply calm_bind; [apply calm_nextNonSpace|]. intros tok.
  apply calm_pure. intros Htok.
  eapply calm_bind; [apply calm_backup|]. intros ?.
  apply calm_ret. auto.
Qed.

Lemma calm_expect (expected : itemType) (context : string) :
  calm rdy (expect expected context) (fun x t' => frs t' /\ fit txt x = true).
Proof.
  unfold expect. eapply calm_bind; [apply calm_nextNonSpace|]. intros tok.
  destruct (negb _); [apply calm_unexpected | apply calm_ret; auto].
Qed.
End Calm.

Section Panics.
Context {SC : Strconv}.
Variable txt : string.

#[local] Abbreviation rdy := (ready txt).
#[local] Abbreviation frs := (fresh txt).

Lemma calm_get (P : Tree -> Prop) : calm P get (fun a t' => P t' /\ P a).
Proof. intros t Ht. cbn. auto. Qed.

Lemma calm_put (t0 : Tree) (P : Tree -> Prop) :
  rdy t0 -> calm P (put t0) (fun _ t' => rdy t').
Proof. intros H t _. cbn. exact H. Qed.

Lemma calm_peek_mark :
  calm rdy peek (fun x t' => (rdy t' /\ peeked x t') /\ fit txt x = true).
Proof.
  intros t Ht. pose proof (calm_peek txt t Ht) as C.
  pose proof Ht as (G & _). unfold good in G. unfold peek in *.
  destruct (0 <? peekCount t) eqn:Ep.
  - apply Z.ltb_lt in Ep.
    destruct (token t (peekCount t - 1)) as [x|] eqn:Ex; [|exact C].
    cbn [must ret] in *. destruct C as [R F].
    split; [split; [exact R | split; [lia | exact Ex]] | exact F].
  - cbn [ret] in *. destruct C as [R F].
    split; [split; [exact R|] | exact F].
    unfold peeked, read_token0. destruct (nextItem (set_peekCount 1 t)).
    cbn. split; [lia | reflexivity].
Qed.

Lemma calm_next_peeked (x : item) :
  calm (fun t => rdy t /\ peeked x t) next (fun y t' => frs t' /\ y = x).
Proof.
  intros t [Ht [Hp Hx]]. pose proof (calm_next txt t Ht) as C. unfold next in *.
  assert (Ep : (0 <? peekCount t) = true) by (apply Z.ltb_lt; lia).
  rewrite Ep in *. cbn [peekCount set_peekCount] in *.
  assert (Ex : token (set_peekCount (peekCount t - 1) t) (peekCount t - 1) = Some x)
    by exact Hx.
  rewrite Ex in *. cbn [must ret] in *. split; [exact (proj1 C) | reflexivity].
Qed.

Lemma String_placed (n : Node) :
  placed txt n = true -> exists s, String_ txt n = Some s.
Proof.
  intros Hp. unfold String_.
  destruct (proj1 (writes_all txt n Hp) newPrinter (Z.le_refl 0)) as (sb & E & _).
  rewrite E. eexists. reflexivity.
Qed.

Lemma calm_node_String (n : Node) (P : Tree -> Prop) :
  placed txt n = true -> (forall t, P t -> text t = txt) ->
  calm P (node_String n) (fun s t' => P t' /\ String_ txt n = Some s).
Proof.
  intros Hp HP t Ht. unfold node_String, bind, get. rewrite (HP t Ht).
  destruct (String_placed n Hp) as [s Es]. rewrite Es. cbn. auto.
Qed.

Lemma ready_text (t : Tree) : rdy t -> text t = txt.
Proof. intros (_ & E & _). exact E. Qed.

Lemma fresh_text (t : Tree) : frs t -> text t = txt.
Proof. intros [H _]. exact (ready_text t H). Qed.

Lemma calm_check_stages (cmds : list CommandNode) (i : Z) (P : Tree -> Prop) :
  Forall (fun c => Args c <> []) cmds ->
  calm P (check_stages i cmds) (fun _ t' => P t').
Proof.
  intros H. revert i. induction H as [|c cmds Hc Hl IH]; intros i;
    cbn [check_stages].
  - apply calm_ret. auto.
  - destruct (Args c) as [|arg args]; [contradiction|]. cbn [hd_error].
    eapply calm_bind; [apply (calm_must _ arg); reflexivity|]. intros arg0.
    apply calm_pure. intros ->.
    destruct (is_literal _); [apply calm_errorf | apply IH].
Qed.

Lemma calm_checkPipeline (pipe : PipeNode) (context : string) (P : Tree -> Prop) :
  filled pipe -> calm P (checkPipeline pipe context) (fun _ t' => P t').
Proof.
  intros H. unfold checkPipeline.
  apply (calm_bind _ _ P (fun _ t' => P t')).
  - destruct (_ =? _)%nat; [apply calm_errorf | apply calm_ret; auto].
  - intros ?. apply calm_check_stages. unfold filled in H.
    destruct (Cmds pipe); [constructor|]. inversion H. assumption.
Qed.

Lemma lexical_field (x : item) :
  lexical x = true -> typ x = itemField ->
  exists rest, val x = String "." rest /\ rest <> "".
Proof.
  unfold lexical. intros H E. rewrite E in H.
  destruct (val x) as [|c rest]; [discriminate|].
  apply andb_true_iff in H. destruct H as [Hc Hr].
  apply Ascii.eqb_eq in Hc. subst c. exists rest. split; [reflexivity|].
  intros ->. discriminate.
Qed.

Lemma calm_chain_fields (n : nat) (chain : ChainNode) :
  calm rdy (chain_fields n chain)
       (fun c t' => rdy t' /\ chain_Node c = chain_Node chain
                    /\ chain_Pos c = chain_Pos chain).
Proof.
  revert chain. induction n as [|n IH]; intros chain; cbn [chain_fields];
    (eapply calm_bind; [apply calm_peek_mark|]); intros tok;
    apply calm_pure; intros Htok;
    (destruct (itemType_eqb (typ tok) itemField) eqn:Ety;
     [|apply calm_ret; intros t [Ht _]; auto]);
    apply itemType_eqb_eq in Ety;
    destruct (lexical_field tok (fit_lexical txt tok Htok) Ety) as (rest & Ev & Hr);
    (eapply calm_bind; [apply calm_next_peeked|]); intros tok';
    apply calm_pure; intros ->;
    assert (Hadd : ChainNode_Add chain (val tok)
                   = Some (mkChain (chain_Pos chain) (chain_Node chain)
                             (Field chain ++ [rest])))
      by (unfold ChainNode_Add; rewrite Ev;
          destruct (String.eqb rest "") eqn:Er;
          [apply String.eqb_eq in Er; contradiction | reflexivity]);
    (eapply calm_bind; [apply (calm_must _ _ _ Hadd)|]); intros chain';
    apply calm_pure; intros ->.
  - apply calm_out_of_fuel.
  - eapply calm_pre; [apply fresh_ready|].
    eapply calm_post; [apply IH|]. cbv beta. intros c t H. exact H.
Qed.

Ltac cprim :=
  lazymatch goal with
  | |- calm _ next _ => apply calm_next
  | |- calm _ peek _ => apply calm_peek
  | |- calm _ backup _ => apply calm_backup
  | |- calm _ nextNonSpace _ => apply calm_nextNonSpace
  | |- calm _ peekNonSpace _ => apply calm_peekNonSpace
  | |- calm _ (expect _ _) _ => apply calm_expect
  end.
(** One step: a primitive, from a ready or from a fresh state. *)
Ltac cstep_ :=
  eapply calm_bind;
  [first [cprim | eapply calm_pre; [|cprim]; apply fresh_ready]|].
Tactic Notation "cstep" "as" simple_intropattern(x) simple_intropattern(H) :=
  cstep_; intros x; first [apply calm_pure; intros H | idtac].
Ltac cstep := cstep_; intros ?; first [apply calm_pure; intros ? | idtac].
Ltac cfails := first [apply calm_errorf | apply calm_unexpected
                      | apply calm_out_of_fuel].
(** The end of a function, in a ready or a fresh state. *)
Ltac cret :=
  apply calm_ret; intros ? ?;
  repeat match goal with H : _ /\ _ |- _ => destruct H end;
  repeat match goal with |- _ /\ _ => split end;
  try first [assumption | apply fresh_ready; assumption | reflexivity | exact I].

Lemma calm_pipeline_decls (fuel : nat) (context : string) (pipe : PipeNode) :
  calm rdy (pipeline_decls fuel context pipe)
       (fun p t' => rdy t' /\ Cmds p = Cmds pipe).
Proof.
  revert pipe. induction fuel as [|fuel IH]; intros pipe; cbn [pipeline_decls];
    [cfails|].
  unfold pipeline_decls_body.
  cstep as v Hv.
  destruct (itemType_eqb (typ v) itemVariable); [|cret].
  cstep. cstep as tokenAfterVariable Hafter. cstep as nxt Hnxt.
  destruct (_ || _).
  { cstep. cret. }
  destruct (_ && _).
  { cstep. destruct (_ && _); [|cfails].
    cstep as tok Htok.
    destruct (typ tok); try cfails;
      (eapply calm_post; [apply IH|]; cbv beta; intros p t [Hp Hc];
       split; [exact Hp | rewrite Hc; reflexivity]). }
  destruct (is_space tokenAfterVariable).
  - eapply calm_bind; [apply calm_backup3; assumption|]. intros ?. cret.
  - eapply calm_bind; [apply calm_backup2; assumption|]. intros ?. cret.
Qed.

(** *** The expressions *)

Lemma split_byte_cons (sep : ascii) (cur s : string) :
  strings.split_byte sep cur s <> [].
Proof.
  revert cur. induction s as [|c s IH]; intros cur; cbn [strings.split_byte].
  - discriminate.
  - destruct (Ascii.eqb c sep); [discriminate | apply IH].
Qed.

Lemma newField_named (p : Z) (ident : string) (n : Node) :
  newField p ident = Some n -> named n.
Proof.
  unfold newField. destruct ident as [|c rest]; [discriminate|].
  intros H. injection H as <-. cbn [named]. apply split_byte_cons.
Qed.

Lemma newNumber_some (p : Z) (text : string) (ty : itemType) :
  (ty = itemCharConstant -> text <> "") ->
  exists r, newNumber p text ty = Some r.
Proof.
  intros H. unfold newNumber.
  destruct ty;
    try (destruct (if ends_in_i text then ParseFloat (strings.init text) else None);
         [eexists; reflexivity|];
         cbv zeta;
         match goal with
         | |- context [IsInt ?n] => destruct (IsInt n); [eexists; reflexivity|]
         end;
         match goal with
         | |- context [IsUint ?n] => destruct (IsUint n); [eexists; reflexivity|]
         end;
         destruct (ParseFloat text); [|eexists; reflexivity];
         destruct (negb _); eexists; reflexivity).
  - destruct text as [|quote rest]; [exfalso; apply H; reflexivity|].
    destruct (UnquoteChar rest quote) as [[rune tail]|err]; [|eexists; reflexivity].
    destruct (negb _); eexists; reflexivity.
  - destruct (Sscan_complex128 text); eexists; reflexivity.
Qed.

Lemma lexical_char (x : item) :
  lexical x = true -> typ x = itemCharConstant -> val x <> "".
Proof.
  unfold lexical. intros H E. rewrite E in H. intros Ev. rewrite Ev in H. discriminate.
Qed.

Lemma calm_term (fuel : nat) :
  calm_expressions txt fuel ->
  calm rdy (term (S fuel)) (fun o t' => rdy t' /\ named_opt o).
Proof.
  intros (_ & _ & _ & _ & _ & Hpipeline).
  cbn [term]. unfold term_body. cstep as tok Htok.
  pose proof (fit_lexical txt tok Htok) as Hlex.
  destruct (typ tok) eqn:Ety;
    try (cstep; cret);
    try cret;
    try (destruct (newNumber_some (pos tok) (val tok) (typ tok)) as [r Hr];
         [rewrite Ety; first [discriminate | intros _; apply lexical_char; assumption]|];
         rewrite Ety in Hr;
         (eapply calm_bind; [apply (calm_must _ _ _ Hr)|]); intros r';
         apply calm_pure; intros ->;
         destruct r; [cret | cfails]);
    try (destruct (Unquote _); [cret | cfails]).
  - (* a field *)
    destruct (lexical_field tok Hlex Ety) as (rest & Ev & _).
    assert (Hn : newField (pos tok) (val tok)
                 = Some (NField (pos tok) (strings.Split rest ".")))
      by (rewrite Ev; reflexivity).
    eapply calm_bind; [apply (calm_must _ _ _ Hn)|]. intros n.
    apply calm_pure. intros ->. cret. apply split_byte_cons.
  - (* a parenthesized pipeline *)
    eapply calm_bind; [eapply calm_pre; [apply fresh_ready | apply Hpipeline]|].
    intros [p endtok]. cret.
Qed.

(** What a chain on a field is written as is not empty. *)
Lemma String_field_chain (c : ChainNode) (p : Z) (ids : list string) (s : string) :
  chain_Node c = NField p ids -> ids <> [] ->
  String_ txt (NChain c) = Some s -> s <> "".
Proof.
  intros Hc Hids. unfold String_. cbn [writeTo]. unfold ChainNode_writeTo.
  rewrite Hc. cbn [writeTo].
  destruct ids as [|id ids]; [contradiction|]. cbn [rangeW].
  set (rest := rangeW (fun (_ : Z) (id0 : string) =>
                         seqW (WriteByte ".") (WriteString id0)) (0 + 1) ids).
  set (fields := rangeW (fun (_ : Z) (field : string) =>
                           seqW (WriteByte ".") (WriteString field)) 0 (Field c)).
  assert (Hrest : appends rest).
  { apply appends_rangeW. apply Forall_forall. intros f _ i.
    apply appends_seq; [apply appends_WriteByte | apply appends_WriteString]. }
  assert (Hfields : appends fields).
  { apply appends_rangeW. apply Forall_forall. intros f _ i.
    apply appends_seq; [apply appends_WriteByte | apply appends_WriteString]. }
  destruct (seqW _ fields newPrinter) as [sb|] eqn:E; [|discriminate].
  intros H. injection H as <-.
  apply seqW_inv in E. destruct E as (s1 & E1 & E2).
  apply seqW_inv in E1. destruct E1 as (s2 & E1 & E3).
  injection E1 as <-.
  destruct (Hrest _ _ E3) as [o1 H1]. destruct (Hfields _ _ E2) as [o2 H2].
  rewrite H2, H1. cbn. discriminate.
Qed.

Lemma calm_operand (fuel : nat) :
  calm_expressions txt fuel ->
  calm rdy (operand (S fuel)) (fun o t' => rdy t' /\ named_opt o).
Proof.
  intros (Hterm & _).
  cbn [operand]. unfold operand_body.
  eapply calm_bind.
  { apply (calm_fed txt); [apply (placed_expressions_all txt fuel) | exact Hterm
                    | apply ready_sound]. }
  intros o. apply calm_pure. intros Hplaced. apply calm_pure. intros Hnamed.
  destruct o as [node|]; [|cret].
  cbn [placed_opt named_opt] in *.
  unfold placed_operand in Hplaced.
  apply andb_true_iff in Hplaced. destruct Hplaced as [Hplaced Hpl].
  apply andb_true_iff in Hplaced. destruct Hplaced as [Hin He].
  cstep as tok Htok.
  destruct (itemType_eqb _ _); [|cret].
  eapply calm_bind; [apply calm_get|]. intros t0. apply calm_pure. intros Ht0.
  eapply calm_bind; [apply calm_chain_fields|]. intros chain.
  apply calm_pure. intros [Hchain Hpos].
  cbn [chain_Node chain_Pos newChain] in Hchain, Hpos.
  assert (Hpc : placed txt (NChain chain) = true)
    by (cbn [placed]; rewrite Hchain, He, Hpl; reflexivity).
  destruct (Type_ node) eqn:Ety; try cret;
    try (eapply calm_bind; [apply calm_node_String; [exact Hpl | apply ready_text]|];
         intros s; cfails).
  - (* fields go on the field *)
    eapply calm_bind; [apply calm_node_String; [exact Hpc | apply ready_text]|].
    intros s. apply calm_pure. intros Hs.
    destruct node; try discriminate. cbn [named] in Hnamed.
    pose proof (String_field_chain chain Pos Ident s Hchain Hnamed Hs) as Hne.
    destruct s as [|c rest]; [contradiction|].
    eapply calm_bind; [apply (calm_must _ (NField (chain_Pos chain)
                                             (strings.Split rest "."))); reflexivity|].
    intros n. apply calm_pure. intros ->. cret. apply split_byte_cons.
  - (* fields go on the variable *)
    eapply calm_bind; [apply calm_node_String; [exact Hpc | apply ready_text]|].
    intros s. cret.
Qed.

Lemma calm_command_loop (fuel : nat) (cmd : CommandNode) :
  calm_expressions txt fuel ->
  calm rdy (command_loop (S fuel) cmd) (fun _ t' => rdy t').
Proof.
  intros (_ & Hoperand & Hloop & _).
  cbn [command_loop]. unfold command_loop_body. cstep.
  eapply calm_bind; [apply Hoperand|]. intros arg. apply calm_pure. intros _.
  cstep as tok Htok. destruct (typ tok); try cfails.
  - cret.
  - cstep. cret.
  - cstep. cret.
  - eapply calm_pre; [apply fresh_ready | apply Hloop].
Qed.

Lemma calm_command (fuel : nat) :
  calm_expressions txt fuel ->
  calm rdy (command (S fuel)) (fun c t' => rdy t' /\ Args c <> []).
Proof.
  intros (_ & _ & Hloop & _).
  cbn [command]. unfold command_body. cstep.
  eapply calm_bind; [apply Hloop|]. intros cmd.
  destruct (List.length (Args cmd) =? 0)%nat eqn:Hlen.
  - apply (calm_bind _ _ _ (fun _ _ => False)); [apply calm_errorf | intros ? t []].
  - apply (calm_bind _ _ _ (fun _ t' => rdy t'));
      [apply calm_ret; intros t Ht; exact Ht|]. intros ?.
    apply calm_ret. intros t Ht. split; [exact Ht|].
    intros E. rewrite E in Hlen. discriminate.
Qed.

Lemma calm_pipeline_loop (fuel : nat) (context : string) (end_ : itemType)
      (pipe : PipeNode) :
  calm_expressions txt fuel ->
  filled pipe ->
  calm rdy (pipeline_loop (S fuel) context end_ pipe)
       (fun r t' => frs t' /\ fit txt (snd r) = true).
Proof.
  intros (_ & _ & _ & Hcommand & Hloop & _) Hpipe.
  cbn [pipeline_loop]. unfold pipeline_loop_body. cstep as tok Htok.
  destruct (itemType_eqb _ _).
  { eapply calm_bind; [apply calm_checkPipeline; exact Hpipe|]. intros ?.
    apply calm_ret. intros t Ht. split; [exact Ht | exact Htok]. }
  destruct (starts_operand _); [|cfails].
  cstep. eapply calm_bind; [apply Hcommand|]. intros cmd.
  apply calm_pure. intros Hcmd.
  apply Hloop. unfold filled, PipeNode_append in *. cbn [Cmds].
  apply Forall_app. split; [exact Hpipe|]. constructor; [exact Hcmd | constructor].
Qed.

Lemma calm_pipeline (fuel : nat) (context : string) (end_ : itemType) :
  calm_expressions txt fuel ->
  calm rdy (pipeline (S fuel) context end_)
       (fun r t' => frs t' /\ fit txt (snd r) = true).
Proof.
  intros (_ & _ & _ & _ & Hloop & _).
  cbn [pipeline]. unfold pipeline_body. cstep as tok Htok.
  eapply calm_bind; [apply calm_pipeline_decls|]. intros pipe.
  apply calm_pure. intros Hcmds. apply Hloop.
  unfold filled. rewrite Hcmds. constructor.
Qed.

Lemma calm_expressions_all (fuel : nat) : calm_expressions txt fuel.
Proof.
  induction fuel as [|fuel IH].
  - repeat split; intros; apply calm_out_of_fuel.
  - split; [exact (calm_term fuel IH)|].
    split; [exact (calm_operand fuel IH)|].
    split; [intros cmd; exact (calm_command_loop fuel cmd IH)|].
    split; [exact (calm_command fuel IH)|].
    split; [intros context end_ pipe H1;
            exact (calm_pipeline_loop fuel context end_ pipe IH H1)|].
    intros context end_. exact (calm_pipeline fuel context end_ IH).
Qed.

(** *** The statements *)

Lemma calm_endControl (tr : trim) : calm rdy (endControl tr) (fun _ t' => rdy t').
Proof. unfold endControl. cstep. cret. Qed.

Lemma calm_elseControl (fuel : nat) (tr : trim) :
  calm rdy (elseControl fuel tr) (fun _ t' => rdy t').
Proof.
  unfold elseControl. cstep. destruct (itemType_eqb _ _).
  - cstep.
    eapply calm_bind;
      [eapply calm_pre; [apply fresh_ready | apply (calm_expressions_all fuel)]|].
    intros [pipe tok]. cret.
  - cstep. cret.
Qed.

Lemma calm_textOrAction (fuel : nat) :
  calm_statements txt fuel ->
  calm rdy (textOrAction (S fuel)) (fun _ t' => rdy t').
Proof.
  intros (_ & Haction & _).
  cbn [textOrAction]. unfold textOrAction_body. cstep as tok Htok.
  destruct (typ tok); try cfails; try cret.
  eapply calm_bind; [apply calm_get|]. intros t0. apply calm_pure. intros Ht0.
  eapply calm_bind;
    [apply calm_put, ready_set_actionLine, fresh_ready; exact Ht0|].
  intros ?. eapply calm_bind; [apply Haction|]. intros n.
  eapply calm_bind; [apply calm_get|]. intros t1. apply calm_pure. intros Ht1.
  eapply calm_bind; [apply calm_put, ready_set_actionLine; exact Ht1|].
  intros ?. cret.
Qed.

Lemma calm_action (fuel : nat) (tr : trim) :
  calm_statements txt fuel ->
  calm rdy (action (S fuel) tr) (fun _ t' => rdy t').
Proof.
  intros (_ & _ & _ & _ & _ & Hbranch).
  cbn [action]. unfold action_body. cstep as tok Htok.
  assert (Hdefault :
    calm frs (backup ;;
              tok <- peek ;;
              '(pipe, endtok) <- pipeline fuel "command" itemRightDelim ;;
              ret (newAction (pos tok) (line tok) pipe
                     (set_right tr (trim_right (item_trim endtok)))))
         (fun _ t' => rdy t')).
  { cstep. cstep as tok' Htok'.
    eapply calm_bind; [apply (calm_expressions_all fuel)|].
    intros [pipe endtok]. cret. }
  destruct (typ tok); try exact Hdefault;
    (eapply calm_pre; [apply fresh_ready|]);
    first [apply calm_elseControl | apply calm_endControl | apply Hbranch].
Qed.

Lemma calm_itemList_loop (fuel : nat) (l : ListNode) :
  calm_statements txt fuel ->
  calm rdy (itemList_loop (S fuel) l) (fun _ t' => rdy t').
Proof.
  intros (Htext & _ & Hloop & _).
  cbn [itemList_loop]. unfold itemList_loop_body. cstep.
  destruct (negb _); [|cfails].
  eapply calm_bind; [apply Htext|]. intros n.
  destruct (Type_ n); try cret; apply Hloop.
Qed.

Lemma calm_itemList (fuel : nat) :
  calm_statements txt fuel ->
  calm rdy (itemList (S fuel)) (fun _ t' => rdy t').
Proof.
  intros (_ & _ & Hloop & _).
  cbn [itemList]. unfold itemList_body. cstep. apply Hloop.
Qed.

Lemma calm_branch_elses (fuel : nat) (nxt : Node) (elses : list ElseNode) :
  calm_statements txt fuel ->
  calm rdy (branch_elses (S fuel) nxt elses) (fun _ t' => rdy t').
Proof.
  intros (_ & _ & _ & Hlist & Helses & _).
  cbn [branch_elses]. unfold branch_elses_body.
  destruct nxt as [| | | | | | | | | | | | | | |e|e|]; try apply Helses.
  - cret.
  - eapply calm_bind; [apply Hlist|]. intros [l nxt]. apply Helses.
Qed.

Lemma calm_branchControl (fuel : nat) (keyword : string) (tr : trim) :
  calm_statements txt fuel ->
  calm rdy (branchControl (S fuel) keyword tr) (fun _ t' => rdy t').
Proof.
  intros (_ & _ & _ & Hlist & Helses & _).
  cbn [branchControl]. unfold branchControl_body.
  eapply calm_bind; [apply (calm_expressions_all fuel)|]. intros [pipe tok].
  eapply calm_bind; [eapply calm_pre; [|apply Hlist]|].
  { intros t [[Ht _] _]. exact Ht. }
  intros [l nxt].
  eapply calm_bind; [apply Helses|]. intros [elses e]. cret.
Qed.

Lemma calm_statements_all (fuel : nat) : calm_statements txt fuel.
Proof.
  induction fuel as [|fuel IH].
  - repeat split; intros; apply calm_out_of_fuel.
  - split; [exact (calm_textOrAction fuel IH)|].
    split; [intros tr; exact (calm_action fuel tr IH)|].
    split; [intros l; exact (calm_itemList_loop fuel l IH)|].
    split; [exact (calm_itemList fuel IH)|].
    split; [intros nxt elses; exact (calm_branch_elses fuel nxt elses IH)|].
    intros keyword tr. exact (calm_branchControl fuel keyword tr IH).
Qed.

Lemma calm_parse_loop (fuel : nat) (root : ListNode) :
  calm rdy (parse_loop fuel root) (fun _ t' => rdy t').
Proof.
  revert root. induction fuel as [|fuel IH]; intros root; cbn [parse_loop];
    [cfails|].
  unfold parse_loop_body. cstep.
  destruct (negb _); [|cret].
  cstep. apply (calm_bind _ _ _ (fun _ t' => rdy t')).
  { destruct (itemType_eqb _ _); [|cret].
    cstep as delim Hdelim. cstep.
    eapply calm_pre; [apply fresh_ready | apply calm_backup2; exact Hdelim]. }
  intros ?. eapply calm_bind.
  { apply (calm_fed txt); [apply (placed_statements_all txt fuel)
                    | apply (calm_statements_all fuel) | apply ready_sound]. }
  intros n. apply calm_pure. intros Hn.
  destruct (Type_ n);
    try (eapply calm_bind; [apply calm_node_String; [exact Hn | apply ready_text]|];
         intros s; cfails);
    apply IH.
Qed.

(** On tokens that are fit for the document the parser does not panic:
    the look-ahead is never indexed out of its three places, no field is
    made of an empty name, no number of an empty text, [checkPipeline]
    finds an operand in every command, and the nodes written into messages
    are written without a panic. *)
Theorem Parse_items_calm (fuel : nat) (items : list item) :
  forallb (fit txt) items = true -> Parse_items fuel txt items <> Crashed.
Proof.
  intros Hitems. unfold Parse_items, parse, bind.
  assert (Ht : rdy (startTree txt items)).
  { unfold ready, good, startTree.
    cbn [text token0 token1 token2 lex_ peekCount].
    assert (Hz : fit txt zeroItem = true).
    { unfold fit, sound, zeroItem, in_text, lexical.
      cbn [pos typ val starts_operand implb].
      rewrite !andb_true_r. apply andb_true_intro.
      split; apply Z.leb_le; unfold strings.len; lia. }
    repeat split; auto; lia. }
  pose proof (calm_peek txt _ Ht) as P.
  destruct (peek (startTree txt items)) as [[tok t]|e| |]; try discriminate;
    [|contradiction].
  destruct P as [Ht1 _].
  pose proof (calm_parse_loop fuel (newList (pos tok)) t Ht1) as L.
  destruct (parse_loop fuel (newList (pos tok)) t) as [[root' t']|e| |];
    try discriminate.
  contradiction.
Qed.
End Panics.

(** Runs the witnesses below are about. *)
Section Runs.
Context {SC : Strconv}.

Lemma piped_text_parsed :
  exists root, Parse_items 40 piped_text (lex piped_text) = Ok root.
Proof. eexists. vm_compute. reflexivity. Qed.

Lemma textOrAction_trimmed_end :
  exists t',
    textOrAction 4 at_trimmed_end = Ok (NEnd (mkEnd 8 (mkTrim true true)), t').
Proof. eexists. vm_compute. reflexivity. Qed.
End Runs.

Lemma piped_action_prefix :
  whitespacePrefix piped_text (NAction piped_action) "{{" = Some (str1 tab, true).
Proof. vm_compute. reflexivity. Qed.

Lemma piped_action_flat : flat_pipe piped_text (action_Pipe piped_action) = true.
Proof. vm_compute. reflexivity. Qed.

Lemma piped_if_written :
  exists sb',
    writeTo piped_text (NBranch piped_if) (mkPrinter "x" "" 0) = Some sb'.
Proof. eexists. vm_compute. reflexivity. Qed.

(** The end of [{{- end -}}] has both trim flags. *)
Lemma textOrAction_node_witness :
  exists t',
    textOrAction (SC := GoStrconv) 4 at_trimmed_end
    = Ok (NEnd (mkEnd 8 (mkTrim true true)), t')
    /\ exists first t1,
         nextNonSpace at_trimmed_end = Ok (first, t1)
         /\ match typ first with
            | itemText => NEnd (mkEnd 8 (mkTrim true true)) = NText (pos first) (val first)
            | itemComment =>
                NEnd (mkEnd 8 (mkTrim true true)) = NComment (pos first) (val first)
            | itemLeftDelim =>
                action_node (item_trim first) (NEnd (mkEnd 8 (mkTrim true true))) t'
            | _ => False
            end.
Proof.
  destruct (textOrAction_trimmed_end (SC := GoStrconv)) as [t' H].
  exists t'. split; [exact H|].
  exact (textOrAction_node 4 at_trimmed_end t' _ H).
Defined.

(** The if around the piped action, written behind [x]. *)
Lemma writeTo_appends_witness :
  exists sb',
    writeTo piped_text (NBranch piped_if) (mkPrinter "x" "" 0) = Some sb'
    /\ exists out, buf sb' = "x" ++ out.
Proof.
  destruct piped_if_written as [sb' H].
  exists sb'. split; [exact H|].
  exact (writeTo_appends piped_text (NBranch piped_if) (mkPrinter "x" "" 0) sb' H).
Defined.

Lemma branch_written_witness :
  exists sb',
    writeTo piped_text (NBranch piped_if) newPrinter = Some sb'
    /\ exists sb1 sb2 sb3 guard body elses,
         writeTo piped_text (NPipe (branch_Pipe piped_if))
           (written newPrinter ("{{ " ++ "if" ++ " ")) = Some sb1
         /\ buf sb1 = "" ++ "{{ " ++ "if" ++ " " ++ guard
         /\ writeTo piped_text (NList (branch_List piped_if))
              (written sb1 " -}}") = Some sb2
         /\ buf sb2 = buf sb1 ++ " -}}" ++ body
         /\ rangeW (fun _ e => writeTo piped_text (NElse e)) 0 (Elses piped_if) sb2
            = Some sb3
         /\ buf sb3 = buf sb2 ++ elses
         /\ sb' = written sb3 ("{{- " ++ "end" ++ " }}")
         /\ buf sb' = "" ++ "{{ " ++ "if" ++ " " ++ guard ++ " -}}" ++ body ++ elses
                      ++ "{{- " ++ "end" ++ " }}".
Proof.
  assert (H : exists sb', writeTo piped_text (NBranch piped_if) newPrinter = Some sb')
    by (eexists; vm_compute; reflexivity).
  destruct H as [sb' H].
  exists sb'. split; [exact H|].
  exact (branch_written piped_text piped_if newPrinter sb' H).
Defined.

(** The piped action is written on one line, with its trim marker. *)
Lemma flat_action_written_witness :
  whitespacePrefix piped_text (NAction piped_action) "{{" = Some (str1 tab, true)
  /\ flat_pipe piped_text (action_Pipe piped_action) = true
  /\ writeTo piped_text (NAction piped_action) newPrinter
     = Some (mkPrinter "{{- . | a | b }}" (str1 tab) 0).
Proof.
  split; [exact piped_action_prefix|]. split; [exact piped_action_flat|].
  exact (flat_action_written piped_text piped_action newPrinter (str1 tab) true
           piped_action_prefix piped_action_flat).
Defined.

(** The if of the piped document is placed, and written. *)
Lemma placed_tree_written_witness :
  placed piped_text (NBranch piped_if) = true
  /\ 0 <= depth newPrinter
  /\ (exists sb', writeTo piped_text (NBranch piped_if) newPrinter = Some sb')
  /\ exists s, String_ piped_text (NBranch piped_if) = Some s.
Proof.
  assert (P : placed piped_text (NBranch piped_if) = true) by (vm_compute; reflexivity).
  split; [exact P|]. split; [cbn; lia|].
  exact (placed_tree_written piped_text (NBranch piped_if) newPrinter P (Z.le_refl 0)).
Defined.

(** An action at the first byte of the piped document. *)
Lemma action_at_start_panics_witness :
  action_Pos first_byte_action = 0
  /\ writeTo piped_text (NAction first_byte_action) newPrinter = None.
Proof.
  split; [reflexivity|].
  exact (action_at_start_panics piped_text first_byte_action newPrinter eq_refl).
Defined.

Lemma piped_text_sound : forallb (sound piped_text) (lex piped_text) = true.
Proof. vm_compute. reflexivity. Qed.

(** The piped document: its tokens are sound, and its tree is written. *)
Lemma parsed_tree_printed_witness :
  exists root,
    forallb (sound piped_text) (lex piped_text) = true
    /\ Parse_items (SC := GoStrconv) 40 piped_text (lex piped_text) = Ok root
    /\ placed piped_text (NList root) = true
    /\ exists s, String_ piped_text (NList root) = Some s.
Proof.
  destruct (piped_text_parsed (SC := GoStrconv)) as [root H].
  exists root. split; [exact piped_text_sound|]. split; [exact H|].
  exact (parsed_tree_printed piped_text 40 (lex piped_text) root piped_text_sound H).
Defined.

(** In [x{{ . }}] the action counts as having only white space in front
    of it, as it has in the document that starts with a space. *)
Lemma whitespacePrefix_first_byte_witness :
  lineno "x{{ . }}" (NAction first_line_action) = Some 0
  /\ " "%char <> newline
  /\ whitespacePrefix " {{ . }}" (NAction first_line_action) "{{"
     = whitespacePrefix "x{{ . }}" (NAction first_line_action) "{{"
  /\ whitespacePrefix "x{{ . }}" (NAction first_line_action) "{{" = Some ("", true).
Proof.
  assert (H : " "%char <> newline) by discriminate.
  split; [reflexivity|]. split; [exact H|]. split; [|reflexivity].
  exact (whitespacePrefix_first_byte "x" " " "{{ . }}" (NAction first_line_action)
           "{{" eq_refl H).
Defined.

Lemma piped_text_fit : forallb (fit piped_text) (lex piped_text) = true.
Proof. vm_compute. reflexivity. Qed.

(** The tokens of the piped document are fit, and its parse is no panic. *)
Lemma Parse_items_calm_witness :
  forallb (fit piped_text) (lex piped_text) = true
  /\ Parse_items (SC := GoStrconv) 40 piped_text (lex piped_text) <> Crashed.
Proof.
  split; [exact piped_text_fit|].
  exact (Parse_items_calm piped_text 40 (lex piped_text) piped_text_fit).
Defined.

(** Peeking over the spaces of [{{}}] past its left delimiter. *)
Lemma peekNonSpace_again_witness :
  peekNonSpace at_right_delim = Ok (mk itemRightDelim 2 "}}" 1, at_right_delim)
  /\ is_space (mk itemRightDelim 2 "}}" 1) = false
  /\ peek at_right_delim = Ok (mk itemRightDelim 2 "}}" 1, at_right_delim)
  /\ peekNonSpace at_right_delim = Ok (mk itemRightDelim 2 "}}" 1, at_right_delim)
  /\ exists t1,
       nextNonSpace at_right_delim = Ok (mk itemRightDelim 2 "}}" 1, t1)
       /\ backup t1 = Ok (tt, at_right_delim).
Proof.
  split; [reflexivity|].
  exact (peekNonSpace_again at_right_delim at_right_delim
           (mk itemRightDelim 2 "}}" 1) eq_refl).
Defined.
